(** * Homer story-flow runtime: a shallow embedding of [HomerParser]

    The development follows the JavaScript class [HomerParser]: the project
    model, the localisation resolver, the text templater, the element
    selector and the flow walker.  JavaScript objects that the code mutates
    in place (elements, localized contents, variation records) live inside
    the [World] record and are addressed by index paths, so that aliasing is
    kept; exceptions are an explicit result type. *)

From stdpp Require Import base option list strings gmap pretty.
From Stdlib Require Import ZArith Ascii String Lia.

Open Scope string_scope.

(** ** JavaScript values and string primitives *)

Module JS.

(** The values a story variable can hold.  Numbers are integers here: the
    fractional part of a JavaScript number is outside the model. *)
Inductive value :=
| VUndef
| VNull
| VBool (b : bool)
| VNum (z : Z)
| VStr (s : string).

(** [ToBoolean]. *)
Definition truthy (v : value) : bool :=
  match v with
  | VUndef | VNull => false
  | VBool b => b
  | VNum z => negb (Z.eqb z 0)
  | VStr s => negb (String.eqb s EmptyString)
  end.

(** [===] on the values of the model. *)
Definition strict_eq (a b : value) : bool :=
  match a, b with
  | VUndef, VUndef | VNull, VNull => true
  | VBool x, VBool y => Bool.eqb x y
  | VNum x, VNum y => Z.eqb x y
  | VStr x, VStr y => String.eqb x y
  | _, _ => false
  end.

(** [v != null]. *)
Definition not_nullish (v : value) : bool :=
  match v with
  | VUndef | VNull => false
  | _ => true
  end.

(** [ToString]. *)
Definition to_string (v : value) : string :=
  match v with
  | VUndef => "undefined"
  | VNull => "null"
  | VBool true => "true"
  | VBool false => "false"
  | VNum z => pretty z
  | VStr s => s
  end.

(** *** Characters

    A string of the model is the UTF-8 encoding of the string of the
    program: a character of the ASCII range is one byte, the bytes of any
    other character are above 127, and no encoding starts inside another
    one.  So the ASCII literals and classes of the parser's patterns match
    in the encoding exactly where they match in the string, and a class
    that reaches beyond ASCII ([\s], and the line terminators that [.]
    refuses) is the list of the encodings of its characters. *)

Definition in_range (lo hi : nat) (c : ascii) : bool :=
  let n := nat_of_ascii c in Nat.leb lo n && Nat.leb n hi.

Definition is_alpha (c : ascii) : bool := in_range 65 90 c || in_range 97 122 c.
Definition is_digit (c : ascii) : bool := in_range 48 57 c.
(** [\w] *)
Definition is_word (c : ascii) : bool :=
  is_alpha c || is_digit c || Ascii.eqb c "_".

Definition utf8 (bytes : list nat) : string :=
  fold_right (fun n s => String (ascii_of_nat n) s) EmptyString bytes.

(** [\s], which is also what [trim] strips: the white space and the line
    terminators of the language.  These are U+0009 to U+000D, U+0020,
    U+00A0, U+1680, U+2000 to U+200A, U+2028, U+2029, U+202F, U+205F,
    U+3000 and U+FEFF. *)
Definition white_space : list string := Eval vm_compute in
    (utf8 <$> [[9]; [10]; [11]; [12]; [13]; [32]; [194; 160]; [225; 154; 128]])
    ++ ((fun n => utf8 [226; 128; n]) <$> seq 128 11)
    ++ (utf8 <$> [[226; 128; 168]; [226; 128; 169]; [226; 128; 175]; [226; 129; 159];
                 [227; 128; 128]; [239; 187; 191]]).

(** What [.] refuses: U+000A, U+000D, U+2028 and U+2029. *)
Definition line_terminators : list string :=
  Eval vm_compute in utf8 <$> [[10]; [13]; [226; 128; 168]; [226; 128; 169]].

Definition lower (c : ascii) : ascii :=
  if in_range 65 90 c then ascii_of_nat (nat_of_ascii c + 32) else c.

(** *** Slices *)

Fixpoint sdrop (n : nat) (s : string) : string :=
  match n, s with
  | O, _ => s
  | S _, EmptyString => EmptyString
  | S k, String _ s' => sdrop k s'
  end.

Fixpoint stake (n : nat) (s : string) : string :=
  match n, s with
  | O, _ => EmptyString
  | S _, EmptyString => EmptyString
  | S k, String a s' => String a (stake k s')
  end.

Fixpoint srev_onto (s acc : string) : string :=
  match s with
  | EmptyString => acc
  | String a s' => srev_onto s' (String a acc)
  end.

Definition srev (s : string) : string := srev_onto s EmptyString.

(** Case-insensitive prefix test, for patterns carrying the [i] flag. *)
Fixpoint prefix_ci (p s : string) : bool :=
  match p, s with
  | EmptyString, _ => true
  | String _ _, EmptyString => false
  | String a p', String b s' => Ascii.eqb (lower a) (lower b) && prefix_ci p' s'
  end.

Definition starts (ci : bool) (p s : string) : bool :=
  if ci then prefix_ci p s else String.prefix p s.

(** Length of the longest prefix whose characters satisfy [p]. *)
Fixpoint span (p : ascii -> bool) (s : string) : nat :=
  match s with
  | EmptyString => 0
  | String a s' => if p a then S (span p s') else 0
  end.

(** [s.indexOf(pat)]. *)
Fixpoint index_of (pat s : string) : option nat :=
  if String.prefix pat s then Some 0
  else match s with
       | EmptyString => None
       | String _ s' => option_map S (index_of pat s')
       end.

(** [s.indexOf(pat) >= 0]. *)
Definition includes (pat s : string) : bool :=
  match index_of pat s with
  | Some _ => true
  | None => false
  end.

(** The number of bytes of the member of [chars] that [s] starts with, [0]
    when it starts with none. *)
Definition char_at (chars : list string) (s : string) : nat :=
  match List.find (fun c => String.prefix c s) chars with
  | Some c => String.length c
  | None => 0
  end.

(** The number of bytes of the longest run of members of [chars] at the head
    of [s]; [fuel] bounds their number. *)
Fixpoint run (chars : list string) (fuel : nat) (s : string) : nat :=
  match fuel with
  | O => 0
  | S k =>
      match char_at chars s with
      | O => 0
      | S n => S n + run chars k (sdrop (S n) s)
      end
  end.

(** [\s*] at the head of [s]. *)
Definition spaces (s : string) : nat := run white_space (String.length s) s.

(** [s.trim()]: the white space is stripped from the head and, read
    backwards, from the end. *)
Definition strip_run (chars : list string) (s : string) : string :=
  sdrop (run chars (String.length s) s) s.
Definition trim_start (s : string) : string := strip_run white_space s.
Definition trim_end (s : string) : string :=
  srev (strip_run (srev <$> white_space) (srev s)).
Definition trim (s : string) : string := trim_end (trim_start s).

(** [s.split(c)] for a one-character separator, the only kind the parser
    uses. *)
Fixpoint split (c : ascii) (s : string) : list string :=
  match s with
  | EmptyString => [EmptyString]
  | String a s' =>
      if Ascii.eqb a c then EmptyString :: split c s'
      else match split c s' with
           | h :: t => String a h :: t
           | [] => [String a EmptyString]
           end
  end.

(** *** Replacement

    [GetSubstitution] for a string pattern: there are no capture groups, so
    only [$$], [$&], [$`] and [$'] are special in the replacement text. *)
Fixpoint get_substitution (matched before after rep : string) : string :=
  match rep with
  | EmptyString => EmptyString
  | String a rest =>
      if Ascii.eqb a "$" then
        match rest with
        | String c rest' =>
            if Ascii.eqb c "$" then String "$" (get_substitution matched before after rest')
            else if Ascii.eqb c "&" then matched ++ get_substitution matched before after rest'
            else if Ascii.eqb c "`" then before ++ get_substitution matched before after rest'
            else if Ascii.eqb c "'" then after ++ get_substitution matched before after rest'
            else String a (get_substitution matched before after rest)
        | EmptyString => String a EmptyString
        end
      else String a (get_substitution matched before after rest)
  end.

(** [s.replace(pat, rep)] with a string pattern: the first occurrence only. *)
Definition replace (pat rep s : string) : string :=
  match index_of pat s with
  | None => s
  | Some i =>
      let before := stake i s in
      let after := sdrop (i + String.length pat) s in
      before ++ get_substitution pat before after rep ++ after
  end.

(** [s.replaceAll(pat, rep)] with a string pattern.  [whole] is the subject,
    [pos] the offset of [s] in it, [skip] the characters of a match still to
    be passed over. *)
Fixpoint replaceAll_from (pat rep whole : string) (pos skip : nat) (s : string) : string :=
  match s with
  | EmptyString => EmptyString
  | String a s' =>
      match skip with
      | S k => replaceAll_from pat rep whole (S pos) k s'
      | O =>
          if String.prefix pat s then
            get_substitution pat (stake pos whole)
              (sdrop (pos + String.length pat) whole) rep
            ++ replaceAll_from pat rep whole (S pos) (String.length pat - 1) s'
          else String a (replaceAll_from pat rep whole (S pos) 0 s')
      end
  end.

(** With an empty pattern the replacement goes between all characters and
    at both ends. *)
Fixpoint intersperse_from (rep whole : string) (pos : nat) (s : string) : string :=
  get_substitution EmptyString (stake pos whole) (sdrop pos whole) rep ++
  match s with
  | EmptyString => EmptyString
  | String a s' => String a (intersperse_from rep whole (S pos) s')
  end.

Definition replaceAll (pat rep s : string) : string :=
  match pat with
  | EmptyString => intersperse_from rep s 0 s
  | _ => replaceAll_from pat rep s 0 0 s
  end.

(** [s.replace(/lit/g, rep)] for a literal pattern and a replacement free of
    [$]; [ci] is the [i] flag. *)
Fixpoint replace_lit_from (ci : bool) (pat rep : string) (skip : nat) (s : string) : string :=
  match s with
  | EmptyString => EmptyString
  | String a s' =>
      match skip with
      | S k => replace_lit_from ci pat rep k s'
      | O =>
          if starts ci pat s
          then rep ++ replace_lit_from ci pat rep (String.length pat - 1) s'
          else String a (replace_lit_from ci pat rep 0 s')
      end
  end.

Definition replace_lit (ci : bool) (pat rep s : string) : string :=
  replace_lit_from ci pat rep 0 s.

(** *** The regular expressions of the parser

    [s.match(/open(.*?)close/gi)]: every block that starts with [opn], ends
    with the nearest [cls], and has no line terminator in between.  The
    empty list stands for [null]. *)
Fixpoint find_close (cls s : string) : option nat :=
  if String.prefix cls s then Some 0
  else match s with
       | EmptyString => None
       | String _ s' =>
           match char_at line_terminators s with
           | O => option_map S (find_close cls s')
           | S _ => None
           end
       end.

Fixpoint lazy_blocks_from (ci : bool) (opn cls : string) (skip : nat) (s : string) : list string :=
  match s with
  | EmptyString => []
  | String _ s' =>
      match skip with
      | S k => lazy_blocks_from ci opn cls k s'
      | O =>
          if starts ci opn s then
            match find_close cls (sdrop (String.length opn) s) with
            | Some n =>
                let len := String.length opn + n + String.length cls in
                stake len s :: lazy_blocks_from ci opn cls (len - 1) s'
            | None => lazy_blocks_from ci opn cls 0 s'
            end
          else lazy_blocks_from ci opn cls 0 s'
      end
  end.

Definition lazy_blocks (ci : bool) (opn cls s : string) : list string :=
  lazy_blocks_from ci opn cls 0 s.

(** [/\[\[(.*?)\]\]/gi] *)
Definition match_variations : string -> list string := lazy_blocks true "[[" "]]".
(** [/\[IF(.*?)\]/gi] *)
Definition match_conditionals : string -> list string := lazy_blocks true "[IF" "]".
(** [/\[TODO(.*?)\]/gi] *)
Definition match_todos : string -> list string := lazy_blocks true "[TODO" "]".
(** [/\{(.*?)\}/gi] *)
Definition match_braces : string -> list string := lazy_blocks true "{" "}".

(** [s.match(/lit/gi)] for a literal without letters. *)
Fixpoint occurrences_from (pat : string) (skip : nat) (s : string) : list string :=
  match s with
  | EmptyString => []
  | String _ s' =>
      match skip with
      | S k => occurrences_from pat k s'
      | O =>
          if String.prefix pat s
          then pat :: occurrences_from pat (String.length pat - 1) s'
          else occurrences_from pat 0 s'
      end
  end.

(** [/\[-\]/gi] *)
Definition match_justOnce : string -> list string := occurrences_from "[-]" 0.
(** [/\[\+\]/gi] *)
Definition match_ifNoMore : string -> list string := occurrences_from "[+]" 0.

(** Matches whose length is given, at each position, by [len_at]. *)
Fixpoint scan (len_at : string -> option nat) (skip : nat) (s : string) : list string :=
  match s with
  | EmptyString => []
  | String _ s' =>
      match skip with
      | S k => scan len_at k s'
      | O =>
          match len_at s with
          | Some len => stake len s :: scan len_at (len - 1) s'
          | None => scan len_at 0 s'
          end
      end
  end.

(** One match of [/\$([a-zA-Z]\w+)/] at the head of [s]. *)
Definition global_at (s : string) : option nat :=
  match s with
  | String "$" (String c rest) =>
      if is_alpha c then
        match span is_word rest with
        | O => None
        | S n => Some (S (S (S n)))
        end
      else None
  | _ => None
  end.

(** The class [[a-zA-Z0-9\]\w.?()[a-zA-Z]]. *)
Definition is_local_char (c : ascii) : bool :=
  is_word c || Ascii.eqb c "]" || Ascii.eqb c "." || Ascii.eqb c "?"
  || Ascii.eqb c "(" || Ascii.eqb c ")" || Ascii.eqb c "[".

(** One match of [/\%([a-zA-Z0-9\]\w.?()[a-zA-Z]+)/] at the head of [s]. *)
Definition local_at (s : string) : option nat :=
  match s with
  | String "%" rest =>
      match span is_local_char rest with
      | O => None
      | S n => Some (S (S n))
      end
  | _ => None
  end.

(** One match of [/<(?!br\s*\/?)[^>]+>/] at the head of [s]. *)
Definition tag_at (s : string) : option nat :=
  match s with
  | String "<" rest =>
      if String.prefix "br" rest then None
      else
        let n := span (fun c => negb (Ascii.eqb c ">")) rest in
        match n, sdrop n rest with
        | S _, String _ _ => Some (S (S n))
        | _, _ => None
        end
  | _ => None
  end.

(** Removal of the matches of [len_at]. *)
Fixpoint remove_scan (len_at : string -> option nat) (skip : nat) (s : string) : string :=
  match s with
  | EmptyString => EmptyString
  | String a s' =>
      match skip with
      | S k => remove_scan len_at k s'
      | O =>
          match len_at s with
          | Some len => remove_scan len_at (len - 1) s'
          | None => String a (remove_scan len_at 0 s')
          end
      end
  end.

(** The quoted-result pattern of the inline conditional: a quote character
    (double or single), then lazily any characters, a backslash taking the
    character after it along, up to the same quote character.
    [quoted_body] gives the number of characters after the opening quote [q]
    up to and including the closing one. *)
Fixpoint quoted_body (q : ascii) (after_backslash : bool) (s : string) : option nat :=
  match s with
  | EmptyString => None
  | String a s' =>
      if negb (Nat.eqb (char_at line_terminators s) 0) then None
      else if after_backslash then option_map S (quoted_body q false s')
      else if Ascii.eqb a q then Some 1
      else if Ascii.eqb a "\" then option_map S (quoted_body q true s')
      else option_map S (quoted_body q false s')
  end.

Definition dquote : ascii := "034".

Definition quoted_at (s : string) : option nat :=
  match s with
  | String q rest =>
      if Ascii.eqb q dquote || Ascii.eqb q "'"
      then option_map S (quoted_body q false rest)
      else None
  | EmptyString => None
  end.

(** All matches of the quoted-result pattern. *)
Definition match_quoted : string -> list string := scan quoted_at 0.

(** [sanitizeVariables] and [getTextWithoutTags] are static and pure. *)
Definition sanitizeVariables (str : string) : string :=
  let str := replace_lit true "<br>" EmptyString str in
  let str := replace_lit false "&gt;" ">" str in
  let str := replace_lit false "&lt;" "<" str in
  replace_lit false "&nbsp;" " " str.

Definition getTextWithoutTags (text : string) : string := remove_scan tag_at 0 text.

(** [findGlobalVariables] and [findLocalVariables]; the empty list stands
    for [null]. *)
Definition findGlobalVariables (s : string) : list string := scan global_at 0 s.
Definition findLocalVariables (s : string) : list string :=
  List.filter (String.prefix "%") (scan local_at 0 s).

(** *** Trimming of line breaks

    One match of [<br\s*\/?>] at the head of [s]. *)
Definition br_at (s : string) : option nat :=
  if String.prefix "<br" s then
    let r := sdrop 3 s in
    let n := spaces r in
    match sdrop n r with
    | String "/" (String ">" _) => Some (3 + n + 2)
    | String ">" _ => Some (3 + n + 1)
    | _ => None
    end
  else None.

(** [^\s*<br\s*\/?>] *)
Definition leading_br (s : string) : option nat :=
  let n := spaces s in
  option_map (Nat.add n) (br_at (sdrop n s)).

(** [<br\s*\/?>\s*$] at the head of [s]. *)
Definition trailing_br (s : string) : bool :=
  match br_at s with
  | Some n => let r := sdrop n s in Nat.eqb (spaces r) (String.length r)
  | None => false
  end.

(** Cuts [s] at the leftmost position where [at_end] holds of the rest. *)
Fixpoint cut_where (at_end : string -> bool) (s : string) : string :=
  if at_end s then EmptyString
  else match s with
       | EmptyString => EmptyString
       | String a s' => String a (cut_where at_end s')
       end.

(** [s.replace(/^\s*<br\s*\/?>|<br\s*\/?>\s*$/g, '')] *)
Definition strip_br (s : string) : string :=
  match leading_br s with
  | Some n => cut_where trailing_br (sdrop n s)
  | None => cut_where trailing_br s
  end.

(** One match of [\ ?<br( \/)?>\ ?] at the head of [s]. *)
Definition spaced_br_at (s : string) : option nat :=
  let a := if String.prefix " " s then 1 else 0 in
  let s1 := sdrop a s in
  if String.prefix "<br" s1 then
    let s2 := sdrop 3 s1 in
    let b := if String.prefix " />" s2 then 2 else 0 in
    let s3 := sdrop b s2 in
    if String.prefix ">" s3 then
      let c := if String.prefix " " (sdrop 1 s3) then 1 else 0 in
      Some (a + 3 + b + 1 + c)
    else None
  else None.

(** The length of the longest run of such matches at the head of [s];
    [fuel] bounds their number. *)
Fixpoint spaced_br_run (fuel : nat) (s : string) : nat :=
  match fuel with
  | O => 0
  | S k =>
      match spaced_br_at s with
      | Some n => n + spaced_br_run k (sdrop n s)
      | None => 0
      end
  end.

Definition spaced_br_to_end (s : string) : bool :=
  let n := spaced_br_run (String.length s) s in
  negb (Nat.eqb n 0) && Nat.eqb n (String.length s).

(** [s.replace(/^(\ ?<br( \/)?>\ ?)+|(\ ?<br( \/)?>\ ?)+$/g, EmptyString)] *)
Definition strip_spaced_br (s : string) : string :=
  cut_where spaced_br_to_end (sdrop (spaced_br_run (String.length s) s) s).

End JS.

(** ** The project model *)

(** The classes [VariableType], [NodeType] and [CycleType] enumerate the
    strings found in the project data. *)
Module VariableType.
Inductive t := bool | string | int | float | fixed | separator.
End VariableType.

Module NodeType.
Inductive t :=
| start | text | note | choices | variables | condition | failCondition
| random | sequence | jumpToNode | layout | subFlow | label.
End NodeType.

Module CycleType.
(** [CycleType.none] is [null]: an absent cycle type is [None]. *)
Inductive t := list | loop | random | smartRandom.
End CycleType.

#[global] Instance VariableType_eq_dec : EqDecision VariableType.t.
Proof. solve_decision. Defined.
#[global] Instance NodeType_eq_dec : EqDecision NodeType.t.
Proof. solve_decision. Defined.
#[global] Instance CycleType_eq_dec : EqDecision CycleType.t.
Proof. solve_decision. Defined.

(** [a === b] for enumerated strings and identifiers. *)
Definition same {A} `{EqDecision A} (a b : A) : bool := bool_decide (a = b).

Record LocalizedContent := {
  lc_localeCode : string;
  lc_text : string;
  (** runtime flag, absent until the resolver writes it *)
  lc_notTranslated : option bool;
}.

Record NodeElement := {
  el_id : string;
  el_nodeId : string;
  el_type : option NodeType.t;
  el_localizedContents : list LocalizedContent;
  el_visited : bool;
  el_justOnce : bool;
  el_ifNoMore : bool;
  el_wasHiddenBecauseEmpty : bool;
}.

(** [conn_to] and [conn_nodeElementId] are [None] when the data has [null]. *)
Record Connection := {
  conn_to : option string;
  conn_type : option NodeType.t;
  conn_nodeElementId : option string;
}.

Record JumpTo := { jt_flowId : string; jt_nodeId : string }.

Record Node := {
  node_id : string;
  node_type : NodeType.t;
  node_cycleType : option CycleType.t;
  node_translatable : bool;
  node_jumpTo : option JumpTo;
  node_elements : list NodeElement;
  node_connections : list Connection;
  node_previousNodeId : option string;
}.

Record Flow := {
  flow_id : string;
  flow_name : string;
  flow_slug : string;
  flow_nodes : list Node;
}.

Record FlowGroup := { fg_flowIds : list string }.

Record VariableDecl := {
  var_key : string;
  var_value : JS.value;
  var_type : VariableType.t;
}.

Record LabelEntry := {
  label_key : string;
  label_localizedContents : list LocalizedContent;
}.

Record Project := {
  proj_locale : string;
  proj_mainLocale : string;
  proj_flowGroups : list FlowGroup;
  proj_flows : list Flow;
  proj_variables : list VariableDecl;
  proj_labels : list LabelEntry;
}.

(** A record of the variation registry; [vn_values] is the mutable
    [_values] array. *)
Record Variation := {
  vn_index : nat;
  vn_type : string;
  vn_values : list string;
  vn_elementId : string;
}.

(** An entry of [HomerParser.activeSubFlows]. *)
Record SubFlowEntry := { sf_flowId : option string; sf_nodeId : string }.

(** A variable store: a JavaScript object used as a map from names to
    values.  A property of its own holds a value or, once [load] has passed
    a name of [Object.prototype] through [eval], the object that
    [Object.prototype] has under that name; of such an object the model
    keeps that it is one, which is all the code asks of it.  The prototype
    of the store is [Object.prototype], as for the [{}] of the class, until
    [null] is assigned to [__proto__]. *)
Inductive Held :=
| Value (v : JS.value)
| Inherited.

Coercion Value : JS.value >-> Held.

Inductive Prototype := ObjectPrototype | NullPrototype.

Record Vars := {
  own : gmap string Held;
  prototype : Prototype;
}.

(** [{}] *)
Definition empty_object : Vars := {| own := ∅; prototype := ObjectPrototype |}.

(** The names that [Object.prototype] defines: [__proto__] is an accessor,
    the others are writable data properties that hold functions. *)
Definition object_prototype : list string :=
  ["constructor"; "__defineGetter__"; "__defineSetter__"; "hasOwnProperty";
   "__lookupGetter__"; "__lookupSetter__"; "isPrototypeOf"; "propertyIsEnumerable";
   "toString"; "valueOf"; "__proto__"; "toLocaleString"].

(** [ToBoolean] and [===] on what a property holds: an object is truthy and
    is no primitive value. *)
Definition held_truthy (h : Held) : bool :=
  match h with
  | Value v => JS.truthy v
  | Inherited => true
  end.

Definition held_is (h : Held) (v : JS.value) : bool :=
  match h with
  | Value x => JS.strict_eq x v
  | Inherited => false
  end.

(** [store[key]]: the property of the store itself, or else what the
    prototype answers; the getter of [__proto__] answers the prototype.  A
    name found nowhere reads as [undefined]. *)
Definition read_var (store : Vars) (key : string) : Held :=
  match own store !! key with
  | Some h => h
  | None =>
      match prototype store with
      | ObjectPrototype =>
          if bool_decide (key ∈ object_prototype) then Inherited else Value JS.VUndef
      | NullPrototype => Value JS.VUndef
      end
  end.

(** Whether [store[key] = h] goes to the setter of [__proto__]: the store
    has [Object.prototype] above it and no property of that name itself. *)
Definition to_accessor (store : Vars) (key : string) : bool :=
  String.eqb key "__proto__"
  && match own store !! key, prototype store with
     | None, ObjectPrototype => true
     | _, _ => false
     end.

(** [store[key] = h].  The setter of [__proto__] makes [null] the prototype,
    keeps [Object.prototype] when it is given it back, and ignores a value
    that is neither [null] nor an object.  Any other assignment sets the
    property of the store itself, creating it when needed. *)
Definition write_var (key : string) (h : Held) (store : Vars) : Vars :=
  if to_accessor store key then
    match h with
    | Value JS.VNull => {| own := own store; prototype := NullPrototype |}
    | _ => store
    end
  else {| own := <[key := h]> (own store); prototype := prototype store |}.

(** ** The world

    [globalVariables] and [activeSubFlows] are the static fields of the
    class; [this._globalVars] is only ever an alias of the former, so the
    model keeps the one store.  The class creates it as [{}]: the
    declaration [class HomerVars] of the project makes no property of
    [window], so [window.HomerVars] is undefined.  The remaining fields are those of the
    instance, which is also the global [Homer] the code refers to.
    [rnd_tick] counts the calls of [Math.random]. *)
Record World := {
  globalVariables : Vars;
  activeSubFlows : list SubFlowEntry;
  _project : Project;
  _locale : string;
  _selectedFlowId : option string;
  _selectedNodeId : option string;
  _localVars : Vars;
  _variations : list Variation;
  _isJumping : bool;
  rnd_tick : nat;
}.

(** *** Field updates *)

Definition set_notTranslated (b : bool) (c : LocalizedContent) : LocalizedContent :=
  {| lc_localeCode := lc_localeCode c; lc_text := lc_text c;
     lc_notTranslated := Some b |}.

Definition set_contents (cs : list LocalizedContent) (e : NodeElement) : NodeElement :=
  {| el_id := el_id e; el_nodeId := el_nodeId e; el_type := el_type e;
     el_localizedContents := cs; el_visited := el_visited e;
     el_justOnce := el_justOnce e; el_ifNoMore := el_ifNoMore e;
     el_wasHiddenBecauseEmpty := el_wasHiddenBecauseEmpty e |}.

Definition set_visited (b : bool) (e : NodeElement) : NodeElement :=
  {| el_id := el_id e; el_nodeId := el_nodeId e; el_type := el_type e;
     el_localizedContents := el_localizedContents e; el_visited := b;
     el_justOnce := el_justOnce e; el_ifNoMore := el_ifNoMore e;
     el_wasHiddenBecauseEmpty := el_wasHiddenBecauseEmpty e |}.

Definition set_justOnce (b : bool) (e : NodeElement) : NodeElement :=
  {| el_id := el_id e; el_nodeId := el_nodeId e; el_type := el_type e;
     el_localizedContents := el_localizedContents e; el_visited := el_visited e;
     el_justOnce := b; el_ifNoMore := el_ifNoMore e;
     el_wasHiddenBecauseEmpty := el_wasHiddenBecauseEmpty e |}.

Definition set_ifNoMore (b : bool) (e : NodeElement) : NodeElement :=
  {| el_id := el_id e; el_nodeId := el_nodeId e; el_type := el_type e;
     el_localizedContents := el_localizedContents e; el_visited := el_visited e;
     el_justOnce := el_justOnce e; el_ifNoMore := b;
     el_wasHiddenBecauseEmpty := el_wasHiddenBecauseEmpty e |}.

Definition set_wasHiddenBecauseEmpty (b : bool) (e : NodeElement) : NodeElement :=
  {| el_id := el_id e; el_nodeId := el_nodeId e; el_type := el_type e;
     el_localizedContents := el_localizedContents e; el_visited := el_visited e;
     el_justOnce := el_justOnce e; el_ifNoMore := el_ifNoMore e;
     el_wasHiddenBecauseEmpty := b |}.

Definition set_label_contents (cs : list LocalizedContent) (l : LabelEntry) : LabelEntry :=
  {| label_key := label_key l; label_localizedContents := cs |}.

Definition set_elements (es : list NodeElement) (n : Node) : Node :=
  {| node_id := node_id n; node_type := node_type n;
     node_cycleType := node_cycleType n; node_translatable := node_translatable n;
     node_jumpTo := node_jumpTo n; node_elements := es;
     node_connections := node_connections n;
     node_previousNodeId := node_previousNodeId n |}.

Definition set_previousNodeId (i : option string) (n : Node) : Node :=
  {| node_id := node_id n; node_type := node_type n;
     node_cycleType := node_cycleType n; node_translatable := node_translatable n;
     node_jumpTo := node_jumpTo n; node_elements := node_elements n;
     node_connections := node_connections n;
     node_previousNodeId := i |}.

Definition set_nodes (ns : list Node) (f : Flow) : Flow :=
  {| flow_id := flow_id f; flow_name := flow_name f; flow_slug := flow_slug f;
     flow_nodes := ns |}.

Definition set_flows (fs : list Flow) (p : Project) : Project :=
  {| proj_locale := proj_locale p; proj_mainLocale := proj_mainLocale p;
     proj_flowGroups := proj_flowGroups p; proj_flows := fs;
     proj_variables := proj_variables p; proj_labels := proj_labels p |}.

Definition set_labels (ls : list LabelEntry) (p : Project) : Project :=
  {| proj_locale := proj_locale p; proj_mainLocale := proj_mainLocale p;
     proj_flowGroups := proj_flowGroups p; proj_flows := proj_flows p;
     proj_variables := proj_variables p; proj_labels := ls |}.

Definition set_values (vs : list string) (v : Variation) : Variation :=
  {| vn_index := vn_index v; vn_type := vn_type v; vn_values := vs;
     vn_elementId := vn_elementId v |}.

Definition with_globalVariables (g : Vars) (w : World) : World :=
  {| globalVariables := g; activeSubFlows := activeSubFlows w;
     _project := _project w; _locale := _locale w;
     _selectedFlowId := _selectedFlowId w; _selectedNodeId := _selectedNodeId w;
     _localVars := _localVars w; _variations := _variations w;
     _isJumping := _isJumping w; rnd_tick := rnd_tick w |}.

Definition with_activeSubFlows (a : list SubFlowEntry) (w : World) : World :=
  {| globalVariables := globalVariables w; activeSubFlows := a;
     _project := _project w; _locale := _locale w;
     _selectedFlowId := _selectedFlowId w; _selectedNodeId := _selectedNodeId w;
     _localVars := _localVars w; _variations := _variations w;
     _isJumping := _isJumping w; rnd_tick := rnd_tick w |}.

Definition with_project (p : Project) (w : World) : World :=
  {| globalVariables := globalVariables w; activeSubFlows := activeSubFlows w;
     _project := p; _locale := _locale w;
     _selectedFlowId := _selectedFlowId w; _selectedNodeId := _selectedNodeId w;
     _localVars := _localVars w; _variations := _variations w;
     _isJumping := _isJumping w; rnd_tick := rnd_tick w |}.

Definition with_locale (l : string) (w : World) : World :=
  {| globalVariables := globalVariables w; activeSubFlows := activeSubFlows w;
     _project := _project w; _locale := l;
     _selectedFlowId := _selectedFlowId w; _selectedNodeId := _selectedNodeId w;
     _localVars := _localVars w; _variations := _variations w;
     _isJumping := _isJumping w; rnd_tick := rnd_tick w |}.

Definition with_selectedFlowId (i : option string) (w : World) : World :=
  {| globalVariables := globalVariables w; activeSubFlows := activeSubFlows w;
     _project := _project w; _locale := _locale w;
     _selectedFlowId := i; _selectedNodeId := _selectedNodeId w;
     _localVars := _localVars w; _variations := _variations w;
     _isJumping := _isJumping w; rnd_tick := rnd_tick w |}.

Definition with_selectedNodeId (i : option string) (w : World) : World :=
  {| globalVariables := globalVariables w; activeSubFlows := activeSubFlows w;
     _project := _project w; _locale := _locale w;
     _selectedFlowId := _selectedFlowId w; _selectedNodeId := i;
     _localVars := _localVars w; _variations := _variations w;
     _isJumping := _isJumping w; rnd_tick := rnd_tick w |}.

Definition with_localVars (l : Vars) (w : World) : World :=
  {| globalVariables := globalVariables w; activeSubFlows := activeSubFlows w;
     _project := _project w; _locale := _locale w;
     _selectedFlowId := _selectedFlowId w; _selectedNodeId := _selectedNodeId w;
     _localVars := l; _variations := _variations w;
     _isJumping := _isJumping w; rnd_tick := rnd_tick w |}.

Definition with_variations (v : list Variation) (w : World) : World :=
  {| globalVariables := globalVariables w; activeSubFlows := activeSubFlows w;
     _project := _project w; _locale := _locale w;
     _selectedFlowId := _selectedFlowId w; _selectedNodeId := _selectedNodeId w;
     _localVars := _localVars w; _variations := v;
     _isJumping := _isJumping w; rnd_tick := rnd_tick w |}.

Definition with_isJumping (b : bool) (w : World) : World :=
  {| globalVariables := globalVariables w; activeSubFlows := activeSubFlows w;
     _project := _project w; _locale := _locale w;
     _selectedFlowId := _selectedFlowId w; _selectedNodeId := _selectedNodeId w;
     _localVars := _localVars w; _variations := _variations w;
     _isJumping := b; rnd_tick := rnd_tick w |}.

Definition with_rnd_tick (n : nat) (w : World) : World :=
  {| globalVariables := globalVariables w; activeSubFlows := activeSubFlows w;
     _project := _project w; _locale := _locale w;
     _selectedFlowId := _selectedFlowId w; _selectedNodeId := _selectedNodeId w;
     _localVars := _localVars w; _variations := _variations w;
     _isJumping := _isJumping w; rnd_tick := n |}.

(** ** Exceptions and state

    A method either returns a value and the world it leaves, or throws. *)
Inductive result (A : Type) :=
| Ok (a : A)
| Throw (e : string).
Arguments Ok {A} a.
Arguments Throw {A} e.

Definition M (A : Type) : Type := World -> result (A * World).

Definition ret {A} (a : A) : M A := fun w => Ok (a, w).
Definition throw {A} (e : string) : M A := fun _ => Throw e.
Definition bind {A B} (m : M A) (k : A -> M B) : M B :=
  fun w => match m w with
           | Ok (a, w') => k a w'
           | Throw e => Throw e
           end.
Definition get : M World := fun w => Ok (w, w).
Definition gets {A} (f : World -> A) : M A := fun w => Ok (f w, w).
Definition modify (f : World -> World) : M unit := fun w => Ok (tt, f w).

Notation "'let*' x ':=' m 'in' k" := (bind m (fun x => k))
  (at level 10, x pattern, m at level 100, k at level 200).
Notation "m ';;' k" := (bind m (fun _ => k))
  (at level 100, k at level 200, right associativity).

(** A dereference of [null] or [undefined]. *)
Definition TypeError : string := "TypeError".

(** [o.field] where [o] may be [null] or [undefined]. *)
Definition deref {A} (o : option A) : M A :=
  match o with
  | Some a => ret a
  | None => throw TypeError
  end.

(** [l.forEach(f)] for an [f] with effects. *)
Fixpoint forEach {A} (f : A -> M unit) (l : list A) : M unit :=
  match l with
  | [] => ret tt
  | x :: l' => f x ;; forEach f l'
  end.

(** The last and the first element satisfying [p], with their indices:
    a [forEach] that overwrites a variable keeps the last match, [filter]
    followed by [[0]] takes the first. *)
Fixpoint find_last_from {A} (p : A -> bool) (i : nat) (l : list A) : option (nat * A) :=
  match l with
  | [] => None
  | x :: l' =>
      match find_last_from p (S i) l' with
      | Some r => Some r
      | None => if p x then Some (i, x) else None
      end
  end.
Definition find_last {A} (p : A -> bool) (l : list A) : option (nat * A) :=
  find_last_from p 0 l.

Fixpoint find_first_from {A} (p : A -> bool) (i : nat) (l : list A) : option (nat * A) :=
  match l with
  | [] => None
  | x :: l' => if p x then Some (i, x) else find_first_from p (S i) l'
  end.
Definition find_first {A} (p : A -> bool) (l : list A) : option (nat * A) :=
  find_first_from p 0 l.

(** The elements satisfying [p], with their indices: [filter]. *)
Fixpoint filter_from {A} (p : A -> bool) (i : nat) (l : list A) : list (nat * A) :=
  match l with
  | [] => []
  | x :: l' => if p x then (i, x) :: filter_from p (S i) l' else filter_from p (S i) l'
  end.
Definition filter_idx {A} (p : A -> bool) (l : list A) : list (nat * A) :=
  filter_from p 0 l.

(** ** The host

    Three services come from the browser, not from the class: [eval], the
    DOM used by [stripHtml], and [Math.random].  [js_eval code globals locals]
    is what [eval(code)] does when [Homer._globalVars] and [Homer._localVars]
    are the two stores: the value it returns ([None] when it throws) and the
    stores it leaves.  [random_index tick n] is
    [Math.floor(Math.random() * n)] at the [tick]-th call of [Math.random]. *)
Record EvalOutcome := {
  ev_result : option JS.value;
  ev_globals : Vars;
  ev_locals : Vars;
}.

Record Host := {
  js_eval : string -> Vars -> Vars -> EvalOutcome;
  dom_text : string -> string;
  random_index : nat -> nat -> nat;
}.

(** ** References into the project

    An element object is [(flow, node, element)] by position, a node object
    [(flow, node)]; a localized content belongs to an element or to a label. *)
Definition NodeRef : Type := nat * nat.
Definition ElemRef : Type := nat * nat * nat.

Inductive Owner :=
| OfElement (r : ElemRef)
| OfLabel (i : nat).

Definition ContentRef : Type := Owner * nat.

Definition node_at (p : Project) (r : NodeRef) : option Node :=
  f ← proj_flows p !! r.1; flow_nodes f !! r.2.

Definition elem_at (p : Project) (r : ElemRef) : option NodeElement :=
  n ← node_at p r.1; node_elements n !! r.2.

Definition contents_of (p : Project) (o : Owner) : option (list LocalizedContent) :=
  match o with
  | OfElement r => el_localizedContents <$> elem_at p r
  | OfLabel i => label_localizedContents <$> proj_labels p !! i
  end.

Definition content_at (p : Project) (c : ContentRef) : option LocalizedContent :=
  cs ← contents_of p c.1; cs !! c.2.

Definition alter_node (g : Node -> Node) (r : NodeRef) (p : Project) : Project :=
  set_flows
    (alter (fun f => set_nodes (alter g r.2 (flow_nodes f)) f) r.1 (proj_flows p)) p.

Definition alter_elem (g : NodeElement -> NodeElement) (r : ElemRef) (p : Project) : Project :=
  alter_node (fun n => set_elements (alter g r.2 (node_elements n)) n) r.1 p.

Definition alter_content (g : LocalizedContent -> LocalizedContent) (c : ContentRef)
    (p : Project) : Project :=
  match c.1 with
  | OfElement r =>
      alter_elem (fun e => set_contents (alter g c.2 (el_localizedContents e)) e) r p
  | OfLabel i =>
      set_labels
        (alter (fun l => set_label_contents (alter g c.2 (label_localizedContents l)) l)
           i (proj_labels p)) p
  end.

(** Reads and writes through a reference. *)
Definition read_node (r : NodeRef) : M Node :=
  let* p := gets _project in deref (node_at p r).
Definition read_elem (r : ElemRef) : M NodeElement :=
  let* p := gets _project in deref (elem_at p r).
Definition read_content (c : ContentRef) : M LocalizedContent :=
  let* p := gets _project in deref (content_at p c).
Definition write_elem (g : NodeElement -> NodeElement) (r : ElemRef) : M unit :=
  modify (fun w => with_project (alter_elem g r (_project w)) w).
Definition write_node (g : Node -> Node) (r : NodeRef) : M unit :=
  modify (fun w => with_project (alter_node g r (_project w)) w).
Definition write_content (g : LocalizedContent -> LocalizedContent) (c : ContentRef) : M unit :=
  modify (fun w => with_project (alter_content g c (_project w)) w).

(** [a || b] on identifiers: the empty string and [null] are falsy. *)
Definition js_or (a b : option string) : option string :=
  match a with
  | Some s => if String.eqb s EmptyString then b else a
  | None => b
  end.

(** [!x] on an identifier. *)
Definition falsy_id (a : option string) : bool :=
  match a with
  | Some s => String.eqb s EmptyString
  | None => true
  end.

(** ** Flows and nodes *)

Definition getFlow (flow_identifier : option string) (w : World) : option (nat * Flow) :=
  let fs := proj_flows (_project w) in
  match find_last (fun f => same (Some (flow_id f)) flow_identifier) fs with
  | Some r => Some r
  | None =>
      match find_last (fun f => same (Some (flow_name f)) flow_identifier) fs with
      | Some r => Some r
      | None => find_last (fun f => same (Some (flow_slug f)) flow_identifier) fs
      end
  end.

Definition getSelectedFlow (w : World) : option (nat * Flow) :=
  find_last (fun f => same (Some (flow_id f)) (_selectedFlowId w)) (proj_flows (_project w)).

Definition getNode (nodeId flowId : option string) : M (option (NodeRef * Node)) :=
  let* w := get in
  let nodeId := js_or nodeId (_selectedNodeId w) in
  let flow := if falsy_id flowId then getSelectedFlow w else getFlow flowId w in
  let* (fi, f) := deref flow in
  ret (match find_last (fun n => same (Some (node_id n)) nodeId) (flow_nodes f) with
       | Some (ni, n) => Some ((fi, ni), n)
       | None => None
       end).

Definition getNodesByType (type : NodeType.t) : M (list (NodeRef * Node)) :=
  let* w := get in
  let* (fi, f) := deref (getSelectedFlow w) in
  ret (List.map (fun '(ni, n) => ((fi, ni), n))
         (filter_idx (fun n => same (node_type n) type) (flow_nodes f))).

Definition nodeExists (nodeId flowId : string) (w : World) : bool :=
  let flow := if String.eqb flowId EmptyString then getSelectedFlow w
              else getFlow (Some flowId) w in
  match flow with
  | None => false
  | Some (_, f) =>
      negb (Nat.eqb (List.length (List.filter (fun n => same (node_id n) nodeId) (flow_nodes f))) 0)
  end.

(** [getNodesByType(NodeType.start)[0]._id] *)
Definition startNodeId : M string :=
  let* ns := getNodesByType NodeType.start in
  let* (_, n) := deref (head ns) in
  ret (node_id n).

Definition start (nodeId flowName : option string) : M (option string) :=
  let* flowName :=
    if falsy_id flowName then
      let* w := get in
      let* g := deref (head (proj_flowGroups (_project w))) in
      let flow_id := head (fg_flowIds g) in
      let* (_, f) := deref (getFlow flow_id w) in
      ret (Some (flow_name f))
    else ret flowName in
  let* w := get in
  let* (_, flow) := deref (getFlow flowName w) in
  modify (with_selectedFlowId (Some (flow_id flow))) ;;
  let* ns := getNodesByType NodeType.start in
  let* sel :=
    match nodeId with
    | None => let* (_, n) := deref (head ns) in ret (Some (node_id n))
    | Some _ => ret nodeId
    end in
  modify (with_selectedNodeId sel) ;;
  ret sel.

Definition restart : M (option string) :=
  let* i := startNodeId in
  modify (with_selectedNodeId (Some i)) ;;
  ret (Some i).

Definition getNodeElement (nodeId : string) (elementId : option string) : M (option ElemRef) :=
  let* n := getNode (Some nodeId) None in
  let* (r, node) := deref n in
  ret (match find_first (fun el => same (Some (el_id el)) elementId) (node_elements node) with
       | Some (ei, _) => Some (r, ei)
       | None => None
       end).

(** A left fold with effects: a [forEach] that updates local variables. *)
Fixpoint foldM {A B} (f : A -> B -> M A) (a : A) (l : list B) : M A :=
  match l with
  | [] => ret a
  | x :: l' => let* a' := f a x in foldM f a' l'
  end.

(** The bound on nested calls, after which JavaScript gives up. *)
Definition RangeError : string := "RangeError".
Definition call_depth : nat := 1000.

Section Parser.

Context (H : Host).

(** [eval] under [try]: the stores keep what the code did before it threw. *)
Definition try_eval (code : string) : M (option JS.value) :=
  fun w =>
    let o := js_eval H code (globalVariables w) (_localVars w) in
    Ok (ev_result o,
        with_localVars (ev_locals o) (with_globalVariables (ev_globals o) w)).

Definition eval (code : string) : M JS.value :=
  let* r := try_eval code in
  match r with
  | Some v => ret v
  | None => throw "eval"
  end.

(** [Math.floor(Math.random() * n)] *)
Definition random_below (n : nat) : M nat :=
  fun w => Ok (random_index H (rnd_tick w) n, with_rnd_tick (S (rnd_tick w)) w).

(** ** Localization resolver *)

(** [!Homer._project._mainLocale._code === localeCode]: the negation applies
    to the main locale code first, and the boolean it gives is compared with
    the requested code. *)
Definition negated_main_is (main localeCode : string) : bool :=
  JS.strict_eq (JS.VBool (negb (JS.truthy (JS.VStr main)))) (JS.VStr localeCode).

(** [nodeElement._nodeId]; a label has none. *)
Definition owner_nodeId (o : Owner) : M (option string) :=
  match o with
  | OfElement r => let* e := read_elem r in ret (Some (el_nodeId e))
  | OfLabel _ => ret None
  end.

Fixpoint getLocalizedContent_rec (depth : nat) (nodeElement : option Owner)
    (localeCode : string) : M (option ContentRef) :=
  match nodeElement with
  | None => ret None
  | Some o =>
      match depth with
      | O => throw RangeError
      | S d =>
          let* nid := owner_nodeId o in
          let* node := getNode nid None in
          let* main := gets (fun w => proj_mainLocale (_project w)) in
          if match node with
             | Some (_, n) => negb (node_translatable n)
             | None => false
             end && negated_main_is main localeCode
          then getLocalizedContent_rec d nodeElement main
          else
            let* p := gets _project in
            let* cs := deref (contents_of p o) in
            foldM (fun content '(i, localizedContent) =>
                     if String.eqb (lc_localeCode localizedContent) localeCode then
                       if String.eqb (lc_text localizedContent) EmptyString
                          && negated_main_is main localeCode
                       then
                         let* c := getLocalizedContent_rec d nodeElement main in
                         let* c := deref c in
                         write_content (set_notTranslated true) c ;;
                         ret (Some c)
                       else
                         write_content (set_notTranslated false) (o, i) ;;
                         ret (Some (o, i))
                     else ret content)
                  None (imap pair cs)
      end
  end.

(** [localeCode] defaults to [this._locale]. *)
Definition getLocalizedContent (nodeElement : option Owner) (localeCode : option string)
    : M (option ContentRef) :=
  let* l := gets _locale in
  getLocalizedContent_rec call_depth nodeElement (default l localeCode).

(** [getLocalizedContent(...)._text] *)
Definition content_text (nodeElement : option Owner) (localeCode : option string) : M string :=
  let* c := getLocalizedContent nodeElement localeCode in
  let* c := deref c in
  let* lc := read_content c in
  ret (lc_text lc).

Definition resolve_globals (text : string) : string :=
  fold_left (fun t v => JS.replace v ("Homer._globalVars." ++ JS.replace "$" EmptyString v) t)
    (JS.findGlobalVariables text) text.

Definition resolve_locals (text : string) : string :=
  fold_left (fun t v => JS.replace v ("Homer._localVars." ++ JS.replace "%" EmptyString v) t)
    (JS.findLocalVariables text) text.

Definition getOriginalText (element : option ElemRef) (cleaned resolveVariables : bool)
    (localeCode : option string) : M string :=
  let* contentText := content_text (OfElement <$> element) localeCode in
  let contentText := if cleaned then dom_text H contentText else contentText in
  ret (if resolveVariables then resolve_locals (resolve_globals contentText)
       else contentText).

(** ** Variation registry and text templater *)

Definition getElementVariations (elementId : string) (w : World) : list (nat * Variation) :=
  filter_idx (fun variation => String.eqb (vn_elementId variation) elementId) (_variations w).

(** The text between the brackets of a block, its type and its options. *)
Definition variation_body (variation : string) : string :=
  let v := JS.trim (JS.replace_lit false "]]" EmptyString
                      (JS.replace_lit false "[[" EmptyString variation)) in
  JS.replace_lit false " | " "|" v.

Definition variation_type (v : string) : string :=
  JS.trim (default EmptyString (head (JS.split " " v))).

Definition variation_options (v : string) : list string :=
  JS.split "|" (JS.replace (variation_type v) EmptyString v).

(** [!variationContent] for a string or [undefined]. *)
Definition falsy_text (c : option string) : bool :=
  match c with
  | Some s => String.eqb s EmptyString
  | None => true
  end.

(** String concatenation with a string or [undefined]. *)
Definition text_or_undefined (c : option string) : string :=
  default "undefined" c.

Definition write_values (k : nat) (vs : list string) : M unit :=
  modify (fun w => with_variations (alter (set_values vs) k (_variations w)) w).

(** The [switch] on the persisted variation: the content of the block for
    this rendering. *)
Definition variationContent (k : nat) (persistedVariation : Variation)
    (variations : list string) : M (option string) :=
  let values := vn_values persistedVariation in
  let type := vn_type persistedVariation in
  if String.eqb type "LIST" then
    write_values k (tail values) ;;
    ret (if falsy_text (head values) then last variations else head values)
  else if String.eqb type "LOOP" then
    write_values k (match tail values with [] => variations | vs => vs end) ;;
    ret (head values)
  else if String.eqb type "RND" then
    let* rnd := random_below (List.length variations) in
    ret (variations !! rnd)
  else if String.eqb type "SRND" then
    let* srnd := random_below (List.length values) in
    write_values k (match delete srnd values with [] => variations | vs => vs end) ;;
    ret (values !! srnd)
  else ret (Some EmptyString).

Definition variation_step (elementId : string) (acc : string * nat) (variation : string)
    : M (string * nat) :=
  let '(output, idx) := acc in
  let variations := variation_options (variation_body variation) in
  let* w := get in
  let* (k, persistedVariation) := deref (getElementVariations elementId w !! idx) in
  let* c := variationContent k persistedVariation variations in
  ret (JS.replaceAll variation ("<variation>" ++ text_or_undefined c ++ "</variation>") output,
       S idx).

Definition error_mark : string := " --ERROR-- ".

Definition conditional_step (output conditionalInsideText : string) : M string :=
  let parts := JS.split "?" conditionalInsideText in
  let condition := JS.trim (JS.replace "[IF " EmptyString (default EmptyString (head parts))) in
  let* second := deref (parts !! 1) in
  let possibleResults := JS.match_quoted (JS.replace "]" EmptyString second) in
  let str := JS.getTextWithoutTags condition in
  let str := fold_left
               (fun s variable =>
                  JS.replaceAll variable
                    ("Homer._globalVars." ++ JS.replace "$" EmptyString variable) s)
               (JS.findGlobalVariables condition) str in
  let str := fold_left
               (fun s variable =>
                  JS.replaceAll variable
                    ("Homer._localVars." ++ JS.replace "%" EmptyString variable) s)
               (JS.findLocalVariables condition) str in
  let str := JS.sanitizeVariables str in
  let* result := try_eval str in
  let* print :=
    match result with
    | Some v =>
        if JS.not_nullish v then
          match possibleResults with
          | [] => throw TypeError
          | _ => ret (if JS.truthy v then possibleResults !! 0 else possibleResults !! 1)
          end
        else ret (Some error_mark)
    | None => ret (Some error_mark)
    end in
  let print := match print with
               | Some s => JS.replace_lit true (String JS.dquote EmptyString) EmptyString s
               | None => error_mark
               end in
  ret (JS.replaceAll conditionalInsideText print output).

Definition strip_braces (s : string) : string :=
  JS.replace "}" EmptyString (JS.replace "{" EmptyString s).

Definition variable_step (type : option NodeType.t) (force_eval : bool)
    (output block : string) : M string :=
  let variableBlock := dom_text H block in
  let globalVariables := JS.findGlobalVariables variableBlock in
  let localVariables := JS.findLocalVariables variableBlock in
  match globalVariables, localVariables with
  | [], [] => ret output
  | _, _ =>
      let tmpString := strip_braces variableBlock in
      let tmpString :=
        fold_left (fun t v => JS.replace v ("Homer._globalVars." ++ JS.replace "$" EmptyString v) t)
          globalVariables tmpString in
      let tmpString :=
        fold_left (fun t v => JS.replace v ("Homer._localVars." ++ JS.replace "%" EmptyString v) t)
          localVariables tmpString in
      let is_choice := same type (Some NodeType.choices) in
      let* evaluated :=
        if force_eval || negb is_choice
           || (is_choice && negb (JS.includes "=" tmpString))
        then let* r := try_eval tmpString in ret (default (JS.VStr "--error--") r)
        else ret (JS.VStr "--error--") in
      let bare := JS.trim (strip_braces variableBlock) in
      if match globalVariables with g :: _ => String.eqb bare g | [] => false end
         || match localVariables with l :: _ => String.eqb bare l | [] => false end
      then ret (JS.replace block (JS.to_string evaluated) output)
      else ret (JS.replace block EmptyString output)
  end.

Definition parsedText (element : option ElemRef) (force_eval : bool) : M string :=
  match element with
  | None => ret EmptyString
  | Some r =>
      let* content := content_text (Some (OfElement r)) None in
      let* el := read_elem r in
      let* (output, _) :=
        foldM (variation_step (el_id el)) (content, 0) (JS.match_variations content) in
      let* output := foldM conditional_step output (JS.match_conditionals content) in
      let output :=
        fold_left (fun o todo => JS.replaceAll todo EmptyString o)
          (JS.match_todos content) output in
      let justOnceBlocks := JS.match_justOnce content in
      forEach (fun _ => write_elem (set_justOnce true) r) justOnceBlocks ;;
      let output :=
        fold_left (fun o justonce => JS.replaceAll justonce EmptyString o)
          justOnceBlocks output in
      let ifNoMoreBlocks := JS.match_ifNoMore content in
      forEach (fun _ => write_elem (set_ifNoMore true) r) ifNoMoreBlocks ;;
      let output :=
        fold_left (fun o ifNoMore => JS.replaceAll ifNoMore EmptyString o)
          ifNoMoreBlocks output in
      let variableBlocks :=
        match JS.match_braces output with
        | [] =>
            if same (el_type el) (Some NodeType.condition)
               || same (el_type el) (Some NodeType.variables)
            then [output] else []
        | blocks => blocks
        end in
      let* output := foldM (variable_step (el_type el) force_eval) output variableBlocks in
      let output := JS.trim (JS.replace_lit false "&nbsp;" " " output) in
      ret (JS.trim (JS.strip_br output))
  end.

(** ** Element selector *)

Definition unvisited (e : NodeElement) : bool := negb (el_visited e).

(** [node._elements.forEach(element => element._visited = false)] *)
Definition reset_visited (r : NodeRef) : M unit :=
  write_node (fun n => set_elements (List.map (set_visited false) (node_elements n)) n) r.

(** [element._visited = true] for an element taken out of an array: it
    throws when the index was out of range. *)
Definition visit (r : NodeRef) (i : option nat) : M (option ElemRef) :=
  let* i := deref i in
  write_elem (set_visited true) (r, i) ;;
  ret (Some (r, i)).

(** [xs.length - 1] as an index into [xs]. *)
Definition last_index {A} (xs : list A) : option nat :=
  match xs with
  | [] => None
  | _ :: xs' => Some (List.length xs')
  end.

Definition getAvailableNodeElement (nodeId : option string) : M (option ElemRef) :=
  let* n := getNode nodeId None in
  let* (r, node) := deref n in
  let elements := node_elements node in
  let availableElements := filter_idx unvisited elements in
  match node_type node with
  | NodeType.text =>
      match node_cycleType node with
      | Some CycleType.list =>
          visit r (match availableElements with
                   | (i, _) :: _ => Some i
                   | [] => last_index elements
                   end)
      | Some CycleType.smartRandom =>
          (match availableElements with
           | [] => reset_visited r
           | _ => ret tt
           end) ;;
          let availableElements :=
            match availableElements with
            | [] => imap pair elements
            | _ => availableElements
            end in
          let* sRnd :=
            if Nat.ltb 1 (List.length availableElements)
            then random_below (List.length availableElements)
            else ret 0 in
          visit r (fst <$> availableElements !! sRnd)
      | Some CycleType.random =>
          let* rnd :=
            if Nat.ltb 1 (List.length elements)
            then random_below (List.length elements)
            else ret 0 in
          visit r (if Nat.ltb rnd (List.length elements) then Some rnd else None)
      | Some CycleType.loop =>
          (match availableElements with
           | [] => reset_visited r
           | _ => ret tt
           end) ;;
          let availableElements :=
            match availableElements with
            | [] => imap pair elements
            | _ => availableElements
            end in
          visit r (fst <$> head availableElements)
      | None => ret None
      end
  | _ => ret None
  end.

Definition getParsedText (element : option ElemRef) (force_eval : bool) : M string :=
  let* element :=
    match element with
    | Some _ => ret element
    | None => getAvailableNodeElement None
    end in
  let* parsedText := parsedText element force_eval in
  ret (JS.strip_spaced_br parsedText).

(** The callback of the filter in [getAvailableChoices]: it updates the
    flags of the element and tells whether the element is kept. *)
Definition choice_filter (r : ElemRef) : M bool :=
  let* content := getOriginalText (Some r) false false None in
  let ifNoMoreBlocks := JS.match_ifNoMore content in
  let* nodeElement := read_elem r in
  (if same (el_type nodeElement) (Some NodeType.text)
      || same (el_type nodeElement) (Some NodeType.choices)
   then
     let* text := parsedText (Some r) false in
     let* nodeElement := read_elem r in
     let isEmpty := Nat.eqb (String.length text) 0 && negb (el_visited nodeElement) in
     if isEmpty then
       write_elem (fun e => set_wasHiddenBecauseEmpty true (set_visited true e)) r
     else if el_wasHiddenBecauseEmpty nodeElement && Nat.ltb 0 (String.length text) then
       write_elem (fun e => set_wasHiddenBecauseEmpty false (set_visited false e)) r
     else ret tt
   else ret tt) ;;
  (match ifNoMoreBlocks with
   | [] => ret tt
   | _ => write_elem (fun e => set_visited true (set_ifNoMore true e)) r
   end) ;;
  let* nodeElement := read_elem r in
  ret (negb (el_visited nodeElement)).

(** [xs.filter(f)] for an [f] with effects, over the positions [is]. *)
Fixpoint filterM {A} (f : A -> M bool) (l : list A) : M (list A) :=
  match l with
  | [] => ret []
  | x :: l' =>
      let* keep := f x in
      let* rest := filterM f l' in
      ret (if keep then x :: rest else rest)
  end.

Definition getAvailableChoices (nodeId : option string) : M (list ElemRef) :=
  let* n := getNode nodeId None in
  let* (r, node) := deref n in
  let* availableElements :=
    filterM choice_filter (imap (fun i _ => (r, i)) (node_elements node)) in
  match availableElements with
  | [] =>
      let* node := read_node r in
      ret (List.map (fun '(i, _) => (r, i)) (filter_idx el_ifNoMore (node_elements node)))
  | _ => ret availableElements
  end.

(** ** Connections *)

(** What [getAvailableConnections] can hand back: nothing ([null] or
    [undefined]), the empty array that the sub-flow case leaves when no
    connection has the type [SubFlow], or a connection. *)
Inductive Available :=
| NoConnection
| EmptyArray
| AConnection (c : Connection).

Definition available (c : option Connection) : Available :=
  match c with
  | Some c => AConnection c
  | None => NoConnection
  end.

Definition getConnectionsByElementId (node : Node) (nodeElementId : option string)
    : option Connection :=
  snd <$> find_last (fun connection => same (conn_nodeElementId connection) nodeElementId)
            (node_connections node).

Definition getFailedConnection (node : Node) : option Connection :=
  snd <$> find_last (fun connection => same (conn_type connection) (Some NodeType.failCondition))
            (node_connections node).

(** The loop of the condition case: every element is evaluated; the first
    truthy result that finds a connection fixes [availableConnection]. *)
Definition condition_step (r : NodeRef) (node : Node) (availableConnection : option Connection)
    (ie : nat * NodeElement) : M (option Connection) :=
  let* condition := getOriginalText (Some (r, ie.1)) true true None in
  let* result := eval condition in
  ret (if JS.truthy result && negb (bool_decide (is_Some availableConnection))
       then getConnectionsByElementId node (Some (el_id ie.2))
       else availableConnection).

Definition getAvailableConnections (elementId : option string) : M Available :=
  let* n := getNode None None in
  let* (r, node) := deref n in
  let elements := node_elements node in
  let connections := node_connections node in
  let availableElements := filter_idx unvisited elements in
  match node_type node with
  | NodeType.start | NodeType.text | NodeType.note | NodeType.layout =>
      ret (available (head connections))
  | NodeType.subFlow =>
      match connections with
      | [] => ret NoConnection
      | _ =>
          let* w := get in
          match List.filter (fun sf => String.eqb (sf_nodeId sf) (node_id node))
                  (activeSubFlows w) with
          | [] =>
              match List.filter (fun conn => same (conn_type conn) (Some NodeType.subFlow))
                      connections with
              | [] => ret EmptyArray
              | c :: _ =>
                  let subFlow := {| sf_flowId := _selectedFlowId w; sf_nodeId := node_id node |} in
                  modify (with_activeSubFlows (subFlow :: activeSubFlows w)) ;;
                  ret (AConnection c)
              end
          | _ =>
              modify (with_activeSubFlows (tail (activeSubFlows w))) ;;
              ret (available
                     (head (List.filter
                              (fun conn => negb (same (conn_type conn) (Some NodeType.subFlow)))
                              connections)))
          end
      end
  | NodeType.choices =>
      ret (available (getConnectionsByElementId node elementId))
  | NodeType.condition =>
      let* availableConnection := foldM (condition_step r node) None (imap pair elements) in
      ret (available (match availableConnection with
                      | Some c => Some c
                      | None => getFailedConnection node
                      end))
  | NodeType.variables =>
      forEach (fun i => parsedText (Some (r, i)) false ;; ret tt) (seq 0 (List.length elements)) ;;
      ret (available (head connections))
  | NodeType.random =>
      let* rnd := random_below (List.length connections) in
      ret (available (connections !! rnd))
  | NodeType.sequence =>
      match node_cycleType node with
      | Some CycleType.list =>
          match availableElements with
          | (i, possibleElement) :: _ =>
              write_elem (set_visited true) (r, i) ;;
              ret (available (getConnectionsByElementId node (Some (el_id possibleElement))))
          | [] =>
              match getFailedConnection node with
              | Some failedConnection => ret (AConnection failedConnection)
              | None =>
                  let* e := deref (last elements) in
                  ret (available (getConnectionsByElementId node (Some (el_id e))))
              end
          end
      | Some CycleType.loop =>
          match availableElements with
          | (i, possibleElement) :: _ =>
              write_elem (set_visited true) (r, i) ;;
              ret (available (getConnectionsByElementId node (Some (el_id possibleElement))))
          | [] =>
              reset_visited r ;;
              ret (match head elements with
                   | Some e => available (getConnectionsByElementId node (Some (el_id e)))
                   | None => NoConnection
                   end)
          end
      | Some CycleType.random =>
          let* rnd := random_below (List.length elements) in
          let* possibleElement := deref (elements !! rnd) in
          ret (available (getConnectionsByElementId node (Some (el_id possibleElement))))
      | Some CycleType.smartRandom =>
          match availableElements, getFailedConnection node with
          | [], Some failedConnection => ret (AConnection failedConnection)
          | _, _ =>
              (match availableElements with
               | [] => reset_visited r
               | _ => ret tt
               end) ;;
              let availableElements :=
                match availableElements with
                | [] => imap pair (List.map (set_visited false) elements)
                | _ => availableElements
                end in
              let* sRnd :=
                if Nat.ltb 1 (List.length availableElements)
                then random_below (List.length availableElements)
                else ret 0 in
              let* possibleElement := deref (snd <$> availableElements !! sRnd) in
              ret (available (getConnectionsByElementId node (Some (el_id possibleElement))))
          end
      | None => ret NoConnection
      end
  | NodeType.jumpToNode =>
      let* jumpTo := deref (node_jumpTo node) in
      modify (with_selectedFlowId (Some (jt_flowId jumpTo))) ;;
      modify (with_selectedNodeId (Some (jt_nodeId jumpTo))) ;;
      ret NoConnection
  | NodeType.failCondition | NodeType.label => ret NoConnection
  end.

(** ** Flow walker *)

(** What [nextNode] returns: [null] at the end sentinel, [false] when the
    flow runs out, or a node. *)
Inductive Outcome :=
| RNull
| RFalse
| RNode (r : NodeRef).

(** One activation of [nextNode]: it returns, or it ends with the tail call
    [return this.nextNode()]. *)
Inductive Step :=
| Return (o : Outcome)
| Again.

Definition THE_END : string := "THE END".

(** The node types that [nextNode] passes through without returning them. *)
Definition passes_through (t : NodeType.t) : bool :=
  match t with
  | NodeType.start | NodeType.note | NodeType.sequence | NodeType.random
  | NodeType.variables | NodeType.layout | NodeType.subFlow
  | NodeType.jumpToNode | NodeType.condition => true
  | _ => false
  end.

(** [!connection || !connection._to] *)
Definition no_target (connection : Available) : bool :=
  match connection with
  | AConnection c => falsy_id (conn_to c)
  | _ => true
  end.

(** [connection._to] *)
Definition target_of (connection : Available) : option string :=
  match connection with
  | AConnection c => conn_to c
  | _ => None
  end.

(** [targetNode = this.getNode(this._selectedNodeId);
     targetNode._previousNodeId = currentNode._id] *)
Definition enter_target (currentNode : Node) : M (NodeRef * Node) :=
  let* sel := gets _selectedNodeId in
  let* t := getNode sel None in
  let* (tr, targetNode) := deref t in
  write_node (set_previousNodeId (Some (node_id currentNode))) tr ;;
  ret (tr, targetNode).

(** The part of [nextNode] after the cursor has moved. *)
Definition arrive (currentNode : Node) : M Step :=
  let* (tr, targetNode) := enter_target currentNode in
  let* exhausted :=
    if same (node_type targetNode) NodeType.choices then
      let* availableChoices := getAvailableChoices (Some (node_id targetNode)) in
      match availableChoices, getFailedConnection targetNode with
      | [], Some connection =>
          modify (with_selectedNodeId (conn_to connection)) ;;
          enter_target currentNode ;;
          ret true
      | _, _ => ret false
      end
    else ret false in
  if exhausted then ret Again
  else
    modify (with_isJumping false) ;;
    if passes_through (node_type targetNode) then ret Again
    else ret (Return (RNode tr)).

(** The part of [nextNode] up to the move of the cursor: it returns early
    ([Stop]) or hands the current node over to [arrive]. *)
Inductive Departure :=
| Stop (s : Step)
| Moved (currentNode : Node).

Definition depart (elementId : option string) : M Departure :=
  let* sel := gets _selectedNodeId in
  if same sel (Some THE_END) then ret (Stop (Return RNull))
  else
    (match sel with
     | None => let* i := startNodeId in modify (with_selectedNodeId (Some i))
     | Some _ => ret tt
     end) ;;
    let* w := get in
    let* c := getNode (_selectedNodeId w) (_selectedFlowId w) in
    let* (cr, currentNode) := deref c in
    let* nodeElement := getNodeElement (node_id currentNode) elementId in
    let* connection := getAvailableConnections elementId in
    let connection :=
      match connection with
      | NoConnection => available (getFailedConnection currentNode)
      | _ => connection
      end in
    let* isJumping := gets _isJumping in
    let* unset :=
      if same (node_type currentNode) NodeType.choices && negb isJumping then
        (match nodeElement with
         | Some er =>
             let* e := read_elem er in
             if el_justOnce e then write_elem (set_visited true) er else ret tt
         | None => ret tt
         end) ;;
        getParsedText nodeElement true ;;
        ret false
      else if same (node_type currentNode) NodeType.jumpToNode then
        let* jumpTo := deref (node_jumpTo currentNode) in
        let* w := get in
        if negb (nodeExists (jt_nodeId jumpTo) (jt_flowId jumpTo) w) then ret true
        else modify (with_isJumping true) ;; ret false
      else
        (match nodeElement with
         | Some er => write_elem (set_visited true) er
         | None => ret tt
         end) ;;
        ret false in
    if unset then ret (Stop (Return (RNode cr)))
    else
      let* w := get in
      if no_target connection && negb (same (node_type currentNode) NodeType.jumpToNode) then
        match activeSubFlows w with
        | subFlow :: _ =>
            (if negb (same (sf_flowId subFlow) (_selectedFlowId w))
             then start (Some (sf_nodeId subFlow)) (sf_flowId subFlow) ;; ret tt
             else ret tt) ;;
            modify (with_selectedNodeId (Some (sf_nodeId subFlow))) ;;
            ret (Stop Again)
        | [] =>
            modify (with_selectedNodeId (Some THE_END)) ;;
            ret (Stop (Return RFalse))
        end
      else
        (if negb (_isJumping w)
         then modify (with_selectedNodeId (target_of connection))
         else ret tt) ;;
        ret (Moved currentNode).

Definition nextNode_step (elementId : option string) : M Step :=
  let* d := depart elementId in
  match d with
  | Stop s => ret s
  | Moved currentNode => arrive currentNode
  end.

(** [nextNode]: the activations follow one another until one returns;
    [depth] is the number of nested calls the engine allows. *)
Fixpoint nextNode_rec (depth : nat) (elementId : option string) : M Outcome :=
  match depth with
  | O => throw RangeError
  | S d =>
      let* s := nextNode_step elementId in
      match s with
      | Return o => ret o
      | Again => nextNode_rec d None
      end
  end.

Definition nextNode (elementId : option string) : M Outcome :=
  nextNode_rec call_depth elementId.

(** ** Loading *)

(** [this._globalVars[key] = h] *)
Definition set_global (key : string) (h : Held) : M unit :=
  modify (fun w => with_globalVariables (write_var key h (globalVariables w)) w).

(** [eval(h)]: only a string is code, anything else comes back as it is. *)
Definition eval_value (h : Held) : M Held :=
  match h with
  | Value (JS.VStr code) => let* v := eval code in ret (Value v)
  | _ => ret h
  end.

Definition resetGlobalVariables : M unit :=
  let* p := gets _project in
  forEach (fun variable =>
             if negb (same (var_type variable) VariableType.separator) then
               let key := var_key variable in
               set_global key (var_value variable) ;;
               let* g := gets globalVariables in
               set_global key (if held_is (read_var g key) (JS.VStr "false")
                               then Value (JS.VBool false) else read_var g key) ;;
               let* g := gets globalVariables in
               set_global key (if held_is (read_var g key) (JS.VStr "true")
                               then Value (JS.VBool true) else read_var g key)
             else ret tt)
    (proj_variables p).

(** [Object.entries] lists the properties of the store itself. *)
Definition resetLocalVariables : M unit :=
  modify (fun w =>
            with_localVars
              {| own := (fun _ => Value JS.VNull) <$> own (_localVars w);
                 prototype := prototype (_localVars w) |} w).

(** The references of all elements of the project, flow by flow and node by
    node. *)
Definition all_elements (p : Project) : list ElemRef :=
  List.concat
    (imap (fun fi f =>
             List.concat
               (imap (fun ni n => imap (fun ei _ => (fi, ni, ei)) (node_elements n))
                  (flow_nodes f)))
       (proj_flows p)).

Definition InitializeVariations : M unit :=
  modify (with_variations []) ;;
  let* p := gets _project in
  forEach (fun r =>
             let* element := read_elem r in
             match el_localizedContents element with
             | [] => ret tt
             | _ =>
                 let* contentObj := getLocalizedContent (Some (OfElement r)) None in
                 let* content :=
                   match contentObj with
                   | Some c => let* lc := read_content c in ret (lc_text lc)
                   | None => ret EmptyString
                   end in
                 forEach (fun variation =>
                            let v := variation_body variation in
                            let variationObj :=
                              {| vn_index := 0; vn_type := variation_type v;
                                 vn_values := variation_options v;
                                 vn_elementId := el_id element |} in
                            modify (fun w => with_variations (_variations w ++ [variationObj]) w))
                   (JS.match_variations content)
             end)
    (all_elements p).

(** The loop of [load] over the project variables. *)
Definition load_variable (variable : VariableDecl) : M unit :=
  let* g := gets globalVariables in
  (if negb (same (var_type variable) VariableType.separator)
      && negb (held_truthy (read_var g (var_key variable)))
   then set_global (var_key variable) (var_value variable)
   else ret tt) ;;
  if same (var_type variable) VariableType.bool then
    let* g := gets globalVariables in
    let* v := eval_value (read_var g (var_key variable)) in
    set_global (var_key variable) v
  else ret tt.

Definition clear_visited (p : Project) : Project :=
  set_flows
    (List.map (fun f =>
                 set_nodes
                   (List.map (fun n =>
                                set_elements (List.map (set_visited false) (node_elements n)) n)
                      (flow_nodes f)) f)
       (proj_flows p)) p.

Definition load (project : Project) (flowName : option string) : M unit :=
  modify (with_project project) ;;
  let* w := get in
  let* flow :=
    if falsy_id flowName then deref (head (proj_flows project))
    else let* (_, f) := deref (getFlow flowName w) in ret f in
  modify (with_selectedFlowId (Some (flow_id flow))) ;;
  modify (with_locale (proj_locale project)) ;;
  forEach load_variable (proj_variables project) ;;
  modify (fun w => with_project (clear_visited (_project w)) w) ;;
  let* vs := gets _variations in
  (match vs with
   | [] => InitializeVariations
   | _ => ret tt
   end) ;;
  start None (Some (flow_name flow)) ;;
  modify (with_activeSubFlows []).

(** [new HomerParser(project, flowName)] with a project object: the
    instance fields start afresh, the static fields are those the class
    holds at that moment. *)
Definition empty_project : Project :=
  {| proj_locale := EmptyString; proj_mainLocale := EmptyString; proj_flowGroups := [];
     proj_flows := []; proj_variables := []; proj_labels := [] |}.

Definition fresh_instance (w : World) : World :=
  {| globalVariables := globalVariables w; activeSubFlows := activeSubFlows w;
     _project := empty_project; _locale := EmptyString;
     _selectedFlowId := None; _selectedNodeId := None;
     _localVars := empty_object; _variations := []; _isJumping := false;
     rnd_tick := rnd_tick w |}.

Definition new_HomerParser (project : Project) (flowName : option string) : M unit :=
  modify fresh_instance ;;
  load project flowName.

(** ** Labels *)

Definition getLabel (key : string) (locale : option string) : M (option string) :=
  let* p := gets _project in
  match find_last (fun l => String.eqb (label_key l) key) (proj_labels p) with
  | Some (i, _) =>
      let* text := content_text (Some (OfLabel i)) locale in
      ret (Some text)
  | None => ret None
  end.

End Parser.

(** ** Running a story

    The calls a host makes between two user inputs, and what each hands
    back. *)
Inductive Call :=
| CallNextNode (elementId : option string)
| CallGetParsedText (element : option ElemRef) (force_eval : bool)
| CallGetAvailableChoices (nodeId : option string).

Inductive Answer :=
| ANode (o : Outcome)
| AText (s : string)
| AChoices (l : list ElemRef).

Definition perform (H : Host) (c : Call) : M Answer :=
  match c with
  | CallNextNode elementId => let* o := nextNode H elementId in ret (ANode o)
  | CallGetParsedText element force_eval =>
      let* s := getParsedText H element force_eval in ret (AText s)
  | CallGetAvailableChoices nodeId =>
      let* l := getAvailableChoices H nodeId in ret (AChoices l)
  end.

Fixpoint perform_all (H : Host) (cs : list Call) : M (list Answer) :=
  match cs with
  | [] => ret []
  | c :: cs' =>
      let* a := perform H c in
      let* rest := perform_all H cs' in
      ret (a :: rest)
  end.

(** A run: a runtime is constructed on the project, then the calls are
    made.  Only the answers are kept. *)
Definition answers {A} (r : result (A * World)) : result A :=
  match r with
  | Ok (a, _) => Ok a
  | Throw e => Throw e
  end.

Definition run (H : Host) (project : Project) (cs : list Call) (w : World)
    : result (list Answer) :=
  answers ((new_HomerParser H project None ;; perform_all H cs) w).

(** [n] renderings of the same element, one after the other. *)
Fixpoint renderings (H : Host) (n : nat) (element : option ElemRef) : M (list string) :=
  match n with
  | O => ret []
  | S k =>
      let* s := getParsedText H element false in
      let* rest := renderings H k element in
      ret (s :: rest)
  end.

(** [xs.map(f)] for an [f] with effects. *)
Fixpoint mapM {A B} (f : A -> M B) (xs : list A) : M (list B) :=
  match xs with
  | x :: rest =>
      let* y := f x in
      let* ys := mapM f rest in
      ret (y :: ys)
  | [] => ret []
  end.



(** [n] selections of an element of the current node, one after the other. *)
Fixpoint selections (H : Host) (n : nat) : M (list (option ElemRef)) :=
  match n with
  | O => ret []
  | S k =>
      let* e := getAvailableNodeElement H None in
      let* rest := selections H k in
      ret (e :: rest)
  end.

(** The visited elements are the first [k] ones: the states a loop node is
    in after [load], and after any number of selections. *)
Definition visited_prefix (k : nat) (elements : list NodeElement) : Prop :=
  forall i e, elements !! i = Some e -> el_visited e = bool_decide (i < k).

(** No element of the project is marked visited. *)
Definition all_unvisited (p : Project) : Prop :=
  forall r e, elem_at p r = Some e -> el_visited e = false.

(** What [load] passes to [eval] without harm: anything that is not a
    string, and the two strings that spell a boolean. *)
Definition evaluable (h : Held) : Prop :=
  match h with
  | Value (JS.VStr s) => s = "true" \/ s = "false"
  | _ => True
  end.

(** What [eval] makes of it. *)
Definition as_boolean (h : Held) : Held :=
  match h with
  | Value (JS.VStr s) =>
      if String.eqb s "true" then Value (JS.VBool true)
      else if String.eqb s "false" then Value (JS.VBool false)
      else h
  | _ => h
  end.

(** The host evaluates the two boolean literals to their values and leaves
    the stores alone. *)
Definition knows_booleans (H : Host) : Prop :=
  forall g l,
    js_eval H "true" g l
    = {| ev_result := Some (JS.VBool true); ev_globals := g; ev_locals := l |}
    /\ js_eval H "false" g l
       = {| ev_result := Some (JS.VBool false); ev_globals := g; ev_locals := l |}.

(** What the store answers for a declared variable after [load], given the
    store [g] that [load] found: what it answered before when that is
    truthy, the declared value otherwise; a variable of type bool goes
    through [eval]. *)
Definition kept_or_declared (g : Vars) (v : VariableDecl) : Held :=
  let earlier := read_var g (var_key v) in
  let x := if held_truthy earlier then earlier else Value (var_value v) in
  if same (var_type v) VariableType.bool then as_boolean x else x.

(** The store after the turn of [load]'s loop for the variable [v]. *)
Definition seed (v : VariableDecl) (g : Vars) : Vars :=
  let g1 := if negb (same (var_type v) VariableType.separator)
               && negb (held_truthy (read_var g (var_key v)))
            then write_var (var_key v) (var_value v) g else g in
  if same (var_type v) VariableType.bool
  then write_var (var_key v) (as_boolean (read_var g1 (var_key v))) g1
  else g1.


(** [P] survives the writes of the resolver. *)
Definition content_stable (P : World -> Prop) : Prop :=
  forall w b c, P w -> P (with_project (alter_content (set_notTranslated b) c (_project w)) w).


(** [P] survives any change of the variation registry, and any move of the
    cursor. *)
Definition registry_stable (P : World -> Prop) : Prop :=
  forall w vs, P w -> P (with_variations vs w).

Definition cursor_stable (P : World -> Prop) : Prop :=
  forall w, P w ->
    (forall i, P (with_selectedNodeId i w)) /\ (forall i, P (with_selectedFlowId i w)).

(** The text of an element in the locale [l]: that of its last content for
    [l].  An element is marked when this text holds the marker [[+]]. *)
Definition localized (l : string) (e : NodeElement) : option string :=
  (fun ic : nat * LocalizedContent => lc_text ic.2)
    <$> find_last (fun c => String.eqb (lc_localeCode c) l) (el_localizedContents e).

Definition marked (l : string) (e : NodeElement) : bool :=
  match localized l e with
  | Some t => match JS.match_ifNoMore t with [] => false | _ => true end
  | None => false
  end.

(** What the runtime never changes in a content and in an element; and the
    relation between an element and what the templater and the resolver
    may leave of it: only [_notTranslated] and [_justOnce] change freely,
    and [_ifNoMore] can only be raised, on a marked element. *)
Definition static_content (c : LocalizedContent) : string * string :=
  (lc_localeCode c, lc_text c).

Definition elem_kept (l : string) (e1 e2 : NodeElement) : Prop :=
  el_id e2 = el_id e1
  /\ el_nodeId e2 = el_nodeId e1
  /\ el_type e2 = el_type e1
  /\ static_content <$> el_localizedContents e2 = static_content <$> el_localizedContents e1
  /\ el_visited e2 = el_visited e1
  /\ el_wasHiddenBecauseEmpty e2 = el_wasHiddenBecauseEmpty e1
  /\ (el_ifNoMore e1 = true -> el_ifNoMore e2 = true)
  /\ (el_ifNoMore e2 = true -> el_ifNoMore e1 = true \/ marked l e1 = true).

Definition kept (w1 w2 : World) : Prop :=
  _locale w2 = _locale w1
  /\ forall r,
       match elem_at (_project w1) r, elem_at (_project w2) r with
       | Some e1, Some e2 => elem_kept (_locale w1) e1 e2
       | None, None => True
       | _, _ => False
       end.






(** ** Projects that never draw

    A variation type that draws from [Math.random]; a text none of whose
    variation blocks has such a type; and a project whose contents are all
    such texts, with no node of type random and no text or sequence
    node whose cycle type is random or smart random. *)
Definition random_type (t : string) : bool :=
  String.eqb t "RND" || String.eqb t "SRND".

Definition quiet_text (t : string) : bool :=
  forallb (fun block => negb (random_type (variation_type (variation_body block))))
    (JS.match_variations t).

Definition quiet_element (e : NodeElement) : bool :=
  forallb (fun c => quiet_text (lc_text c)) (el_localizedContents e).

Definition quiet_cycle (c : option CycleType.t) : bool :=
  match c with
  | Some CycleType.random | Some CycleType.smartRandom => false
  | _ => true
  end.

Definition quiet_kind (n : Node) : bool :=
  match node_type n with
  | NodeType.random => false
  | NodeType.text | NodeType.sequence => quiet_cycle (node_cycleType n)
  | _ => true
  end.

Definition quiet_node (n : Node) : bool :=
  quiet_kind n && forallb quiet_element (node_elements n).

Definition quiet_project (p : Project) : bool :=
  forallb (fun f => forallb quiet_node (flow_nodes f)) (proj_flows p).

(** The runtime holds such a project, and its registry no variation of a
    type that draws. *)
Definition quiet (w : World) : Prop :=
  quiet_project (_project w) = true
  /\ forallb (fun v => negb (random_type (vn_type v))) (_variations w) = true.

(** ** Successive renderings of one variation

    The switch of [parsedText] on the [k]-th record of the registry, for a
    block whose options are [variations]; and [n] such turns, one after the
    other, as [n] renderings of the text make them. *)
Definition pick (H : Host) (k : nat) (variations : list string) : M (option string) :=
  let* vs := gets _variations in
  let* persistedVariation := deref (vs !! k) in
  variationContent H k persistedVariation variations.

Fixpoint picks (H : Host) (k : nat) (variations : list string) (n : nat)
    : M (list (option string)) :=
  match n with
  | O => ret []
  | S m =>
      let* c := pick H k variations in
      let* rest := picks H k variations m in
      ret (c :: rest)
  end.

(** What [Math.floor(Math.random() * n)] can be. *)
Definition draws_in_range (H : Host) : Prop :=
  forall tick n, 0 < n -> random_index H tick n < n.

(** ** The links between the nodes

    [getLinkingNodes] and [getNodesLinkingTo] are the same code under two
    names: the nodes of the selected flow, each once for every connection
    it has to the node. *)
Definition getLinkingNodes (nodeId : option string) : M (list (NodeRef * Node)) :=
  let* w := get in
  let nodeId := js_or nodeId (_selectedNodeId w) in
  let* (fi, f) := deref (getSelectedFlow w) in
  ret (List.concat
         (imap (fun ni node =>
                  List.map (fun _ => ((fi, ni), node))
                    (List.filter (fun connection => same (conn_to connection) nodeId)
                       (node_connections node)))
            (flow_nodes f))).

Definition getNodesLinkingTo (nodeId : option string) : M (list (NodeRef * Node)) :=
  let* w := get in
  let nodeId := js_or nodeId (_selectedNodeId w) in
  let* (fi, f) := deref (getSelectedFlow w) in
  ret (List.concat
         (imap (fun ni node =>
                  List.map (fun _ => ((fi, ni), node))
                    (List.filter (fun connection => same (conn_to connection) nodeId)
                       (node_connections node)))
            (flow_nodes f))).

(** [getLinksToNodes]: what [getNode] answers for the target of each
    connection of the node. *)
Definition getLinksToNodes (nodeId : option string) : M (list (option (NodeRef * Node))) :=
  let* w := get in
  let nodeId := js_or nodeId (_selectedNodeId w) in
  let* node := getNode nodeId None in
  match node with
  | Some (_, n) => mapM (fun connection => getNode (conn_to connection) None)
                     (node_connections n)
  | None => ret []
  end.

(** ** Example data *)

Module Ex.

(** A small evaluator for the examples.  It covers the literals [true] and
    [false], a read of [Homer._globalVars.x] or [Homer._localVars.x] where
    the store answers a value, and an assignment of one of these to
    [Homer._globalVars.x]; on this fragment it does what [eval] does.
    Everything else throws, as [eval] does on the malformed code the
    examples use. *)
Definition answer (h : Held) : option JS.value :=
  match h with
  | Value v => Some v
  | Inherited => None
  end.

Definition atom (s : string) (g l : Vars) : option JS.value :=
  if String.eqb s "true" then Some (JS.VBool true)
  else if String.eqb s "false" then Some (JS.VBool false)
  else if String.prefix "Homer._globalVars." s then answer (read_var g (JS.sdrop 18 s))
  else if String.prefix "Homer._localVars." s then answer (read_var l (JS.sdrop 17 s))
  else None.

Definition eval (code : string) (g l : Vars) : EvalOutcome :=
  let code := JS.trim code in
  match JS.split "=" code with
  | [lhs; rhs] =>
      let lhs := JS.trim lhs in
      match atom (JS.trim rhs) g l with
      | Some v =>
          if String.prefix "Homer._globalVars." lhs then
            {| ev_result := Some v; ev_globals := write_var (JS.sdrop 18 lhs) v g;
               ev_locals := l |}
          else {| ev_result := None; ev_globals := g; ev_locals := l |}
      | None => {| ev_result := None; ev_globals := g; ev_locals := l |}
      end
  | _ => {| ev_result := atom code g l; ev_globals := g; ev_locals := l |}
  end.

(** The example texts carry no markup, so the DOM gives them back as they
    are.  [host k] draws [k] from [Math.random] whenever a draw over more
    than [k] alternatives is made, and [0] otherwise. *)
Definition host (k : nat) : Host :=
  {| js_eval := eval;
     dom_text := fun s => s;
     random_index := fun _ n => if Nat.ltb k n then k else 0 |}.

Definition content (locale text : string) : LocalizedContent :=
  {| lc_localeCode := locale; lc_text := text; lc_notTranslated := None |}.

Definition element (id nodeId : string) (type : NodeType.t) (cs : list LocalizedContent)
    : NodeElement :=
  {| el_id := id; el_nodeId := nodeId; el_type := Some type;
     el_localizedContents := cs; el_visited := false; el_justOnce := false;
     el_ifNoMore := false; el_wasHiddenBecauseEmpty := false |}.

Definition connection (to : string) (type : option NodeType.t) (elementId : option string)
    : Connection :=
  {| conn_to := Some to; conn_type := type; conn_nodeElementId := elementId |}.

Definition node (id : string) (type : NodeType.t) (cycle : option CycleType.t)
    (es : list NodeElement) (cs : list Connection) : Node :=
  {| node_id := id; node_type := type; node_cycleType := cycle;
     node_translatable := true; node_jumpTo := None; node_elements := es;
     node_connections := cs; node_previousNodeId := None |}.

Definition jump (id flowId nodeId : string) : Node :=
  {| node_id := id; node_type := NodeType.jumpToNode; node_cycleType := None;
     node_translatable := true;
     node_jumpTo := Some {| jt_flowId := flowId; jt_nodeId := nodeId |};
     node_elements := []; node_connections := []; node_previousNodeId := None |}.

Definition flow (id name : string) (ns : list Node) : Flow :=
  {| flow_id := id; flow_name := name; flow_slug := name; flow_nodes := ns |}.

Definition project (locale : string) (fs : list Flow) (vs : list VariableDecl) : Project :=
  {| proj_locale := locale; proj_mainLocale := "en";
     proj_flowGroups := [ {| fg_flowIds := flow_id <$> fs |} ];
     proj_flows := fs; proj_variables := vs; proj_labels := [] |}.

(** The page before any runtime exists: empty static stores. *)
Definition blank : World :=
  {| globalVariables := empty_object; activeSubFlows := []; _project := empty_project;
     _locale := EmptyString; _selectedFlowId := None; _selectedNodeId := None;
     _localVars := empty_object; _variations := []; _isJumping := false; rnd_tick := 0 |}.

(** A text node whose only element is translated into English alone. *)
Definition english_only (locale : string) : Project :=
  project locale
    [ flow "f1" "Main"
        [ node "start" NodeType.start None [] [connection "hello" None None];
          node "hello" NodeType.text (Some CycleType.list)
            [element "e1" "hello" NodeType.text [content "en" "Hello"]] [] ] ] [].

(** The same element with an Italian content that is empty. *)
Definition italian_empty : Project :=
  project "it"
    [ flow "f1" "Main"
        [ node "start" NodeType.start None [] [connection "hello" None None];
          node "hello" NodeType.text (Some CycleType.list)
            [element "e1" "hello" NodeType.text [content "it" EmptyString; content "en" "Hello"]]
            [] ] ] [].

(** The element of these projects, and its English content. *)
Definition e1 : ElemRef := (0, 1, 0).

(** An element whose text is one LIST block. *)
Definition list_block : Project :=
  project "en"
    [ flow "f1" "Main"
        [ node "start" NodeType.start None [] [connection "t" None None];
          node "t" NodeType.text (Some CycleType.list)
            [element "e1" "t" NodeType.text [content "en" "[[LIST a|b|c]]"]] [] ] ] [].

Definition marked (value : string) : string := "<variation>" ++ value ++ "</variation>".

(** A condition node whose expression is malformed. *)
Definition malformed_condition : Project :=
  project "en"
    [ flow "f1" "Main"
        [ node "start" NodeType.start None [] [connection "c" None None];
          node "c" NodeType.condition None
            [element "e1" "c" NodeType.condition [content "en" ")("]]
            [connection "t" None (Some "e1")];
          node "t" NodeType.text (Some CycleType.list)
            [element "e2" "t" NodeType.text [content "en" "Hello"]] [] ] ] [].

(** A project with a label translated into English alone. *)
Definition labelled (locale : string) : Project :=
  {| proj_locale := locale; proj_mainLocale := "en";
     proj_flowGroups := [ {| fg_flowIds := ["f1"] |} ];
     proj_flows := [ flow "f1" "Main" [ node "start" NodeType.start None [] [] ] ];
     proj_variables := [];
     proj_labels := [ {| label_key := "greeting";
                         label_localizedContents := [content "en" "Hello"] |} ] |}.

(** The world after the runtime has loaded [list_block] and rendered its
    element three times. *)
Definition list_block_w3 : World :=
  Eval vm_compute in
    match (new_HomerParser (host 0) list_block None ;;
           renderings (host 0) 3 (Some e1)) blank with
    | Ok (_, w) => w
    | Throw _ => blank
    end.



(** A text node that picks one of two elements at random. *)
Definition random_cycle : Project :=
  project "en"
    [ flow "f1" "Main"
        [ node "start" NodeType.start None [] [connection "t" None None];
          node "t" NodeType.text (Some CycleType.random)
            [ element "e1" "t" NodeType.text [content "en" "A"];
              element "e2" "t" NodeType.text [content "en" "B"] ] [] ] ] [].

(** A story that shows a variable and then sets it. *)
Definition counter : Project :=
  project "en"
    [ flow "f1" "Main"
        [ node "start" NodeType.start None [] [connection "t" None None];
          node "t" NodeType.text (Some CycleType.list)
            [element "e1" "t" NodeType.text [content "en" "n={$nn}"]]
            [connection "v" None None];
          node "v" NodeType.variables None
            [element "e2" "v" NodeType.variables [content "en" "{$nn = true}"]]
            [connection "u" None None];
          node "u" NodeType.text (Some CycleType.list)
            [element "e3" "u" NodeType.text [content "en" "end"]] [] ] ]
    [ {| var_key := "nn"; var_value := JS.VStr "false"; var_type := VariableType.bool |} ].

(** The host's calls for a story of two text nodes. *)
Definition two_texts : list Call :=
  [ CallNextNode None; CallGetParsedText None false;
    CallNextNode None; CallGetParsedText None false ].

(** The page a first run of [counter] leaves behind. *)
Definition after_counter : World :=
  Eval vm_compute in
    match (new_HomerParser (host 0) counter None ;; perform_all (host 0) two_texts) blank with
    | Ok (_, w) => w
    | Throw _ => blank
    end.




(** A project that declares one number, and a page where the story has
    already counted and holds a local variable. *)
Definition scored : Project :=
  project "en"
    [ flow "f1" "Main" [ node "start" NodeType.start None [] [] ] ]
    [ {| var_key := "score"; var_value := JS.VNum 0; var_type := VariableType.int |} ].

Definition played : World :=
  {| globalVariables := write_var "score" (JS.VNum 5) empty_object; activeSubFlows := [];
     _project := empty_project; _locale := EmptyString;
     _selectedFlowId := None; _selectedNodeId := None;
     _localVars := write_var "tmp" (JS.VNum 1) empty_object; _variations := [];
     _isJumping := false; rnd_tick := 0 |}.

(** [played] after [scored] has been loaded. *)
Definition reloaded : World :=
  Eval vm_compute in
    match load (host 0) scored None played with
    | Ok (_, w) => w
    | Throw _ => blank
    end.

(** A flow that calls a sub-flow: the node [s] has an edge of type SubFlow
    into [a], where the callee ends, and a plain edge to [z]. *)
Definition calling_flow : Flow :=
  flow "f1" "Main"
    [ node "start" NodeType.start None [] [connection "s" None None];
      node "s" NodeType.subFlow None []
        [ connection "a" (Some NodeType.subFlow) None; connection "z" None None ];
      node "a" NodeType.text (Some CycleType.list)
        [element "e1" "a" NodeType.text [content "en" "In"]] [];
      node "z" NodeType.text (Some CycleType.list)
        [element "e2" "z" NodeType.text [content "en" "Out"]] [] ].

Definition calling : Project := project "en" [calling_flow] [].

(** The runtime started on the sub-flow node, and the runtime after one
    [nextNode] from the start of the flow, which stands in the callee. *)
Definition before_call : World :=
  Eval vm_compute in
    match (new_HomerParser (host 0) calling None ;;
           start (Some "s") (Some "Main")) blank with
    | Ok (_, w) => w
    | Throw _ => blank
    end.

Definition in_callee : World :=
  Eval vm_compute in
    match (new_HomerParser (host 0) calling None ;; nextNode (host 0) None) blank with
    | Ok (_, w) => w
    | Throw _ => blank
    end.


(** The flow and the nodes of these two worlds, as the runtime holds them. *)
Definition flow_of (w : World) : Flow :=
  default calling_flow (head (proj_flows (_project w))).
Definition node_of (w : World) (i : nat) : Node :=
  default (jump EmptyString EmptyString EmptyString) (flow_nodes (flow_of w) !! i).

Definition before_call_flow : Flow := Eval vm_compute in flow_of before_call.
Definition before_call_s : Node := Eval vm_compute in node_of before_call 1.
Definition in_callee_flow : Flow := Eval vm_compute in flow_of in_callee.
Definition in_callee_a : Node := Eval vm_compute in node_of in_callee 2.
Definition in_callee_s : Node := Eval vm_compute in node_of in_callee 1.





(** A text node that loops over two elements. *)
Definition looping : Project :=
  project "en"
    [ flow "f1" "Main"
        [ node "start" NodeType.start None [] [connection "t" None None];
          node "t" NodeType.text (Some CycleType.loop)
            [ element "e1" "t" NodeType.text [content "en" "A"];
              element "e2" "t" NodeType.text [content "en" "B"] ] [] ] ] [].

(** The runtime on the loop node, as [nextNode] leaves it after [load]. *)
Definition at_loop : World :=
  Eval vm_compute in
    match (new_HomerParser (host 0) looping None ;; nextNode (host 0) None) blank with
    | Ok (_, w) => w
    | Throw _ => blank
    end.

Definition at_loop_flow : Flow := Eval vm_compute in flow_of at_loop.
Definition at_loop_node : Node := Eval vm_compute in node_of at_loop 1.

(** That runtime in the middle of a pass: after one selection. *)
Definition in_loop : World :=
  Eval vm_compute in
    match getAvailableNodeElement (host 0) None at_loop with
    | Ok (_, w) => w
    | Throw _ => blank
    end.

Definition in_loop_flow : Flow := Eval vm_compute in flow_of in_loop.
Definition in_loop_node : Node := Eval vm_compute in node_of in_loop 1.

(** A project that declares a number, a boolean and a separator. *)
Definition declared : Project :=
  project "en"
    [ flow "f1" "Main"
        [ node "start" NodeType.start None [] [connection "t" None None];
          node "t" NodeType.text (Some CycleType.list)
            [element "e1" "t" NodeType.text [content "en" "Hello"]] [] ] ]
    [ {| var_key := "score"; var_value := JS.VNum 0; var_type := VariableType.int |};
      {| var_key := "----"; var_value := JS.VStr "Flags"; var_type := VariableType.separator |};
      {| var_key := "flag"; var_value := JS.VStr "true"; var_type := VariableType.bool |} ].

(** [played] after [declared] has been loaded. *)
Definition redeclared : World :=
  Eval vm_compute in
    match load (host 0) declared None played with
    | Ok (_, w) => w
    | Throw _ => blank
    end.


(** A choice node with two choices to take just once, which lead back to
    it, and a fallback. *)
Definition three_choices : Project :=
  project "en"
    [ flow "f1" "Main"
        [ node "start" NodeType.start None [] [connection "c" None None];
          node "c" NodeType.choices None
            [ element "e1" "c" NodeType.choices [content "en" "[-] Stay"];
              element "e2" "c" NodeType.choices [content "en" "[-] Wait"];
              element "e3" "c" NodeType.choices [content "en" "[+] Leave"] ]
            [ connection "c" None (Some "e1"); connection "c" None (Some "e2");
              connection "t" None (Some "e3") ];
          node "t" NodeType.text (Some CycleType.list)
            [element "e4" "t" NodeType.text [content "en" "Out"]] [] ] ] [].

(** The runtime on [three_choices] once both of them were taken. *)
Definition exhausted : World :=
  Eval vm_compute in
    match (new_HomerParser (host 0) three_choices None ;;
           nextNode (host 0) None ;;
           getAvailableChoices (host 0) None ;;
           nextNode (host 0) (Some "e1") ;;
           nextNode (host 0) (Some "e2")) blank with
    | Ok (_, w) => w
    | Throw _ => blank
    end.

Definition exhausted_node : Node := Eval vm_compute in node_of exhausted 1.

Definition fallback_listed : World :=
  Eval vm_compute in
    match getAvailableChoices (host 0) (Some "c") exhausted with
    | Ok (_, w) => w
    | Throw _ => blank
    end.


(** A text node that goes through two elements once. *)
Definition listing : Project :=
  project "en"
    [ flow "f1" "Main"
        [ node "start" NodeType.start None [] [connection "t" None None];
          node "t" NodeType.text (Some CycleType.list)
            [ element "e1" "t" NodeType.text [content "en" "A"];
              element "e2" "t" NodeType.text [content "en" "B"] ] [] ] ] [].

Definition at_list : World :=
  Eval vm_compute in
    match (new_HomerParser (host 0) listing None ;; nextNode (host 0) None) blank with
    | Ok (_, w) => w
    | Throw _ => blank
    end.

Definition at_list_flow : Flow := Eval vm_compute in flow_of at_list.
Definition at_list_node : Node := Eval vm_compute in node_of at_list 1.


(** The runtime on [listing] as [load] leaves it, and after the flow has
    run out. *)
Definition listing_loaded : World :=
  Eval vm_compute in
    match new_HomerParser (host 0) listing None blank with
    | Ok (_, w) => w
    | Throw _ => blank
    end.

Definition list_over : World :=
  Eval vm_compute in
    match nextNode (host 0) None at_list with
    | Ok (_, w) => w
    | Throw _ => blank
    end.

(** [at_list] once its first element has been rendered. *)
Definition list_rendered : World :=
  Eval vm_compute in
    match getParsedText (host 0) None false at_list with
    | Ok (_, w) => w
    | Throw _ => blank
    end.


(** Elements whose text is one LOOP block, and one SRND block; and the
    runtime as [load] leaves it on each, and on [list_block]. *)
Definition loop_block : Project :=
  project "en"
    [ flow "f1" "Main"
        [ node "start" NodeType.start None [] [connection "t" None None];
          node "t" NodeType.text (Some CycleType.list)
            [element "e1" "t" NodeType.text [content "en" "[[LOOP a|b|c]]"]] [] ] ] [].

Definition srnd_block : Project :=
  project "en"
    [ flow "f1" "Main"
        [ node "start" NodeType.start None [] [connection "t" None None];
          node "t" NodeType.text (Some CycleType.list)
            [element "e1" "t" NodeType.text [content "en" "[[SRND a|b|c]]"]] [] ] ] [].

Definition loaded (p : Project) : World :=
  match new_HomerParser (host 0) p None blank with
  | Ok (_, w) => w
  | Throw _ => blank
  end.

Definition list_loaded : World := Eval vm_compute in loaded list_block.
Definition loop_loaded : World := Eval vm_compute in loaded loop_block.
Definition srnd_loaded : World := Eval vm_compute in loaded srnd_block.


(** [at_list] once its first element has been rendered by name. *)
(** [at_list] after the resolver was asked for an Italian content. *)
Definition at_list_resolved : World :=
  Eval vm_compute in
    match getLocalizedContent (Some (OfElement (0, 1, 0))) (Some "it") at_list with
    | Ok (_, w) => w
    | Throw _ => blank
    end.


(** [list_block_w3] after the same project has been loaded again. *)
Definition list_reloaded : World :=
  Eval vm_compute in
    match load (host 0) list_block None list_block_w3 with
    | Ok (_, w) => w
    | Throw _ => blank
    end.










(** A jump to a choice without choices, whose fail connection leads to a
    sub-flow node. *)
Definition jumping : Project :=
  project "en"
    [ flow "f1" "Main"
        [ node "start" NodeType.start None [] [connection "j" None None];
          jump "j" "f1" "c";
          node "c" NodeType.choices None []
            [connection "s" (Some NodeType.failCondition) None];
          node "s" NodeType.subFlow None []
            [ connection "a" (Some NodeType.subFlow) None; connection "z" None None ];
          node "a" NodeType.text (Some CycleType.list)
            [element "e1" "a" NodeType.text [content "en" "In"]] [];
          node "z" NodeType.text (Some CycleType.list)
            [element "e2" "z" NodeType.text [content "en" "Out"]] [] ] ] [].

Definition world_after {A} (m : M A) : World :=
  match m blank with
  | Ok (_, w) => w
  | Throw _ => blank
  end.

(** The worlds of the walk from the start of [jumping], one activation of
    [nextNode] after the other, and the world the call leaves. *)
Definition jumping_loaded : World :=
  Eval vm_compute in world_after (new_HomerParser (host 0) jumping None).
Definition on_jump : World :=
  Eval vm_compute in
    world_after (new_HomerParser (host 0) jumping None ;; nextNode_step (host 0) None).
Definition pending : World :=
  Eval vm_compute in
    world_after (new_HomerParser (host 0) jumping None ;; nextNode_step (host 0) None ;;
                 nextNode_step (host 0) None).
Definition skipped : World :=
  Eval vm_compute in
    world_after (new_HomerParser (host 0) jumping None ;; nextNode_step (host 0) None ;;
                 nextNode_step (host 0) None ;; nextNode_step (host 0) None).
Definition jumped_out : World :=
  Eval vm_compute in
    world_after (new_HomerParser (host 0) jumping None ;; nextNode (host 0) None).

Definition pending_flow : Flow := Eval vm_compute in flow_of pending.
Definition pending_s : Node := Eval vm_compute in node_of pending 3.

(** A text node that loops over three elements and leads back to itself;
    the runtime after the element [e2] has been chosen on it. *)
Definition circling : Project :=
  project "en"
    [ flow "f1" "Main"
        [ node "start" NodeType.start None [] [connection "t" None None];
          node "t" NodeType.text (Some CycleType.loop)
            [ element "e1" "t" NodeType.text [content "en" "A"];
              element "e2" "t" NodeType.text [content "en" "B"];
              element "e3" "t" NodeType.text [content "en" "C"] ]
            [connection "t" None None] ] ] [].

Definition after_choice : World :=
  Eval vm_compute in
    world_after (new_HomerParser (host 0) circling None ;; nextNode (host 0) None ;;
                 nextNode (host 0) (Some "e2")).

Definition after_choice_flow : Flow := Eval vm_compute in flow_of after_choice.
Definition after_choice_node : Node := Eval vm_compute in node_of after_choice 1.


(** A text node whose text is [Hi] between two no-break spaces, the runtime
    on it, and that world after the text has been rendered. *)
Definition nbsp : string := Eval vm_compute in JS.utf8 [194; 160].

Definition padded : Project :=
  project "en"
    [ flow "f1" "Main"
        [ node "start" NodeType.start None [] [connection "t" None None];
          node "t" NodeType.text (Some CycleType.list)
            [element "e1" "t" NodeType.text [content "en" (nbsp ++ "Hi" ++ nbsp)]] [] ] ] [].

Definition at_padded : World :=
  Eval vm_compute in
    world_after (new_HomerParser (host 0) padded None ;; nextNode (host 0) None).

Definition padded_rendered : World :=
  Eval vm_compute in
    match getParsedText (host 0) (Some (0, 1, 0)) false at_padded with
    | Ok (_, w) => w
    | Throw _ => blank
    end.

Definition at_padded_first : NodeElement :=
  Eval vm_compute in
    default (element "e1" "t" NodeType.text []) (elem_at (_project at_padded) (0, 1, 0)).

End Ex.

(** ** Vocabulary of the statements *)

(** The cursor stands on node [n], which is [ni]-th in flow [f], itself
    [fi]-th in the project. *)
Definition cursor_at (w : World) (fi ni : nat) (f : Flow) (n : Node) : Prop :=
  getSelectedFlow w = Some (fi, f)
  /\ find_last (fun m => same (Some (node_id m)) (_selectedNodeId w)) (flow_nodes f)
     = Some (ni, n).

(** What holds of the value and the world a computation leaves, when it
    does not throw. *)
Definition post {A} (Q : A -> World -> Prop) (r : result (A * World)) : Prop :=
  match r with
  | Ok (a, w) => Q a w
  | Throw _ => True
  end.

(** Two computations do the same, and [Q] holds of what they leave. *)
Definition agree {A} (Q : A -> World -> Prop) (r1 r2 : result (A * World)) : Prop :=
  r1 = r2 /\ post Q r1.

(** The traversal once the cursor has left [currentNode]: the rest of this
    activation of [nextNode] and the activations that follow it. *)
Definition resume (H : Host) (depth : nat) (currentNode : Node) : M Outcome :=
  let* s := arrive H currentNode in
  match s with
  | Return o => ret o
  | Again => nextNode_rec H depth None
  end.

(** ** Vocabulary of the lookups

    The last, and the first, position of the list whose element satisfies
    [P]. *)
Definition last_such {A} (P : A -> Prop) (l : list A) (k : nat) (x : A) : Prop :=
  l !! k = Some x /\ P x /\ forall j y, l !! j = Some y -> k < j -> ~ P y.

Definition first_such {A} (P : A -> Prop) (l : list A) (k : nat) (x : A) : Prop :=
  l !! k = Some x /\ P x /\ forall j y, l !! j = Some y -> j < k -> ~ P y.

(** What the runtime never changes in a node: all but its elements and
    the id of the node the story came from.  And where the story stands:
    the cursor, the stack of sub-flows, the jump flag and the locale. *)
Definition node_frame (n : Node)
    : string * NodeType.t * option CycleType.t * bool * option JumpTo * list Connection :=
  (node_id n, node_type n, node_cycleType n, node_translatable n, node_jumpTo n,
   node_connections n).

Definition same_graph (w w' : World) : Prop :=
  forall r, node_frame <$> node_at (_project w') r = node_frame <$> node_at (_project w) r.

Definition story_position (w : World)
    : option string * option string * list SubFlowEntry * bool * string :=
  (_selectedFlowId w, _selectedNodeId w, activeSubFlows w, _isJumping w, _locale w).

(** The node at [r] has the frame [fr].  And what [nextNode] may hand
    back: a node of a type it does not pass through, or a jump node whose
    target does not exist. *)
Definition framed (r : NodeRef)
    (fr : string * NodeType.t * option CycleType.t * bool * option JumpTo * list Connection)
    (w : World) : Prop :=
  node_frame <$> node_at (_project w) r = Some fr.

Definition emitted (r : NodeRef) (w : World) : Prop :=
  exists n,
    node_at (_project w) r = Some n
    /\ (passes_through (node_type n) = false
        \/ (node_type n = NodeType.jumpToNode
            /\ exists j, node_jumpTo n = Some j
                 /\ nodeExists (jt_nodeId j) (jt_flowId j) w = false)).

(** A text without markup: none of the characters that open a variation,
    a conditional, a marker, a variable block, a tag or an entity. *)
Fixpoint has_char (c : ascii) (s : string) : bool :=
  match s with
  | EmptyString => false
  | String a s' => Ascii.eqb a c || has_char c s'
  end.

Definition plain_text (t : string) : bool :=
  negb (has_char "[" t) && negb (has_char "{" t)
  && negb (has_char "<" t) && negb (has_char "&" t).

(** * Properties *)

(** ** Reasoning about monadic code *)

Lemma bind_ok {A B} (m : M A) (k : A -> M B) w a w1 :
  m w = Ok (a, w1) -> bind m k w = k a w1.
Proof. unfold bind. by intros ->. Qed.


Lemma bind_ret {A B} (a : A) (k : A -> M B) w : bind (ret a) k w = k a w.
Proof. reflexivity. Qed.

Lemma bind_get {B} (k : World -> M B) w : bind get k w = k w w.
Proof. reflexivity. Qed.

Lemma bind_gets {A B} (f : World -> A) (k : A -> M B) w : bind (gets f) k w = k (f w) w.
Proof. reflexivity. Qed.

Lemma bind_modify {B} (f : World -> World) (k : unit -> M B) w :
  bind (modify f) k w = k tt (f w).
Proof. reflexivity. Qed.

Lemma bind_deref {A B} (a : A) (k : A -> M B) w : bind (deref (Some a)) k w = k a w.
Proof. reflexivity. Qed.

Lemma bind_bind {A B C} (m : M A) (f : A -> M B) (g : B -> M C) w :
  bind (bind m f) g w = bind m (fun a => bind (f a) g) w.
Proof. unfold bind. destruct (m w) as [[a w1]|e]; reflexivity. Qed.


Lemma bind_inv {A B} (m : M A) (k : A -> M B) w b w2 :
  bind m k w = Ok (b, w2) -> exists a w1, m w = Ok (a, w1) /\ k a w1 = Ok (b, w2).
Proof. unfold bind. destruct (m w) as [[a w1]|e]; [eauto|discriminate]. Qed.

Ltac msimpl :=
  repeat (first [ rewrite bind_ret | rewrite bind_gets | rewrite bind_get
                | rewrite bind_modify | rewrite bind_deref | rewrite bind_bind ];
          cbv beta iota).

Lemma find_last_from_Some {A} (p : A -> bool) l i j x :
  find_last_from p i l = Some (j, x) -> p x = true /\ i <= j /\ l !! (j - i) = Some x.
Proof.
  revert i. induction l as [|y l IH]; intros i; cbn; [discriminate|].
  destruct (find_last_from p (S i) l) as [[j' x']|] eqn:E.
  - intros [= -> ->]. apply IH in E as (Hp & Hle & Hl). repeat split; [done|lia|].
    replace (j - i) with (S (j - S i)) by lia. done.
  - destruct (p y) eqn:Hp; [|discriminate]. intros [= -> ->].
    rewrite Nat.sub_diag. auto.
Qed.

Lemma find_last_Some {A} (p : A -> bool) l j x :
  find_last p l = Some (j, x) -> p x = true /\ l !! j = Some x.
Proof.
  intros Hf. apply find_last_from_Some in Hf as (Hp & _ & Hl).
  rewrite Nat.sub_0_r in Hl. auto.
Qed.

Lemma same_true {A} `{EqDecision A} (a b : A) : same a b = true -> a = b.
Proof. unfold same. intros Hs. by apply bool_decide_eq_true in Hs. Qed.

Lemma same_false {A} `{EqDecision A} (a b : A) : a <> b -> same a b = false.
Proof. unfold same. intros Hs. by apply bool_decide_eq_false. Qed.

(** *** The current node *)

Lemma cursor_node_id w fi ni f n :
  cursor_at w fi ni f n -> _selectedNodeId w = Some (node_id n).
Proof.
  intros [_ Hn]. apply find_last_Some in Hn as [Hid _]. by apply same_true in Hid.
Qed.

Lemma js_or_cursor (a : string) : js_or (Some a) (Some a) = Some a.
Proof. unfold js_or. by destruct (String.eqb a EmptyString). Qed.

Lemma getNode_selected w fi ni f n :
  cursor_at w fi ni f n -> getNode None None w = Ok (Some ((fi, ni), n), w).
Proof.
  intros [Hf Hn]. unfold getNode. msimpl. cbn [js_or falsy_id]. rewrite Hf. msimpl.
  by rewrite Hn.
Qed.

Lemma getNode_by_id w fi ni f n :
  cursor_at w fi ni f n -> getNode (Some (node_id n)) None w = Ok (Some ((fi, ni), n), w).
Proof.
  intros Hc. pose proof (cursor_node_id _ _ _ _ _ Hc) as Hsel. destruct Hc as [Hf Hn].
  unfold getNode. msimpl. cbn [falsy_id]. rewrite Hf. msimpl.
  rewrite Hsel, js_or_cursor. rewrite Hsel in Hn. by rewrite Hn.
Qed.

Lemma getNode_cursor w fi ni f n :
  cursor_at w fi ni f n ->
  getNode (_selectedNodeId w) (_selectedFlowId w) w = Ok (Some ((fi, ni), n), w).
Proof.
  intros Hc. pose proof (cursor_node_id _ _ _ _ _ Hc) as Hsel. destruct Hc as [Hf Hn].
  unfold getNode. msimpl. rewrite Hsel, js_or_cursor.
  assert ((if falsy_id (_selectedFlowId w) then getSelectedFlow w
           else getFlow (_selectedFlowId w) w) = Some (fi, f)) as ->.
  { destruct (falsy_id (_selectedFlowId w)); [done|].
    unfold getFlow. unfold getSelectedFlow in Hf. by rewrite Hf. }
  msimpl. rewrite Hsel in Hn. by rewrite Hn.
Qed.

Lemma getNodeElement_current w fi ni f n elementId :
  cursor_at w fi ni f n ->
  getNodeElement (node_id n) elementId w
  = Ok (match find_first (fun el => same (Some (el_id el)) elementId) (node_elements n) with
        | Some (ei, _) => Some ((fi, ni), ei)
        | None => None
        end, w).
Proof.
  intros Hc. unfold getNodeElement.
  rewrite (bind_ok _ _ _ _ _ (getNode_by_id _ _ _ _ _ Hc)). msimpl. reflexivity.
Qed.

Lemma nextNode_unfold H elementId w :
  nextNode H elementId w =
  (let* s := nextNode_step H elementId in
   match s with
   | Return o => ret o
   | Again => nextNode_rec H (Nat.pred call_depth) None
   end) w.
Proof. reflexivity. Qed.

Ltac same_compute :=
  repeat match goal with
         | |- context [@same ?A ?E ?a ?b] =>
             let v := eval vm_compute in (@same A E a b) in
             match v with
             | true => change (@same A E a b) with true
             | false => change (@same A E a b) with false
             end
         end;
  cbn [andb orb negb].

(** ** The localization fallback *)

(** The comparison that guards the fallback to the main locale is false
    whatever the two locale codes are. *)
Lemma negated_main_is_false main localeCode : negated_main_is main localeCode = false.
Proof. reflexivity. Qed.

(** C1. With the runtime locale [it], an element translated into English
    only has no content to render: [getLocalizedContent] gives [null] and
    [getParsedText] throws.  When the Italian content exists and is empty,
    the empty text is rendered, and the content is marked as translated;
    the English text is not used. *)
Theorem C1_no_fallback_to_main_locale (H : Host) :
  answers ((new_HomerParser H (Ex.english_only "it") None ;;
            getLocalizedContent (Some (OfElement Ex.e1)) None) Ex.blank) = Ok None
  /\ answers ((new_HomerParser H (Ex.english_only "it") None ;;
               getParsedText H (Some Ex.e1) false) Ex.blank) = Throw TypeError
  /\ answers ((new_HomerParser H Ex.italian_empty None ;;
               let* s := getParsedText H (Some Ex.e1) false in
               let* c := read_content (OfElement Ex.e1, 0) in
               ret (s, lc_notTranslated c)) Ex.blank) = Ok (EmptyString, Some false).
Proof. repeat split; vm_compute; reflexivity. Qed.

(** With the runtime locale [en] the same element renders its English text:
    this is the rendering the fallback would have had to produce. *)
Example english_rendering (H : Host) :
  answers ((new_HomerParser H (Ex.english_only "en") None ;;
            getParsedText H (Some Ex.e1) false) Ex.blank) = Ok "Hello".
Proof. vm_compute. reflexivity. Qed.

(** ** The LIST variation *)








(** ** Exceptions *)

(** C9.  Content that is missing for the runtime locale makes the public
    calls throw: [getParsedText], [getOriginalText] and [getLabel]
    dereference the [null] that the resolver returns.  A condition whose
    expression does not parse makes [nextNode] throw: the [eval] of the
    condition case is not guarded. *)
Theorem C9_public_calls_throw (H : Host) :
  answers ((new_HomerParser H (Ex.english_only "it") None ;;
            getParsedText H (Some Ex.e1) false) Ex.blank) = Throw TypeError
  /\ answers ((new_HomerParser H (Ex.english_only "it") None ;;
               getOriginalText H (Some Ex.e1) false false None) Ex.blank) = Throw TypeError
  /\ answers ((new_HomerParser H (Ex.labelled "it") None ;;
               getLabel "greeting" None) Ex.blank) = Throw TypeError
  /\ answers ((new_HomerParser (Ex.host 0) Ex.malformed_condition None ;;
               nextNode (Ex.host 0) None) Ex.blank) = Throw "eval".
Proof. repeat split; vm_compute; reflexivity. Qed.

(** ** A jump to a missing node *)





(** ** Loading *)

(** C3, as the claim states it, fails: on a page where [score] is already 5
    and a local variable exists, [load] keeps the 5 although the project
    declares 0, and the local variable stays. *)
Lemma C3_load_keeps_earlier_values :
  exists w',
    load (Ex.host 0) Ex.scored None Ex.played = Ok (tt, w')
    /\ read_var (globalVariables w') "score" = JS.VNum 5
    /\ var_value <$> proj_variables Ex.scored = [JS.VNum 0]
    /\ read_var (_localVars w') "tmp" = JS.VNum 1.
Proof.
  exists Ex.reloaded. repeat split; vm_compute; reflexivity.
Qed.

(** ** Determinism *)

(** C4, as the claim states it, fails.  [Ex.random_cycle] has no variation
    block and no node of type Random, yet two runs that draw differently
    from [Math.random] render different texts: the cycle type of the text
    node is Random.  And a second runtime constructed on the page that a
    first run of [Ex.counter] left renders the variable the first run set. *)
Lemma C4_runs_differ :
  run (Ex.host 0) Ex.random_cycle [CallNextNode None; CallGetParsedText None false] Ex.blank
  = Ok [ANode (RNode (0, 1)); AText "A"]
  /\ run (Ex.host 1) Ex.random_cycle [CallNextNode None; CallGetParsedText None false] Ex.blank
     = Ok [ANode (RNode (0, 1)); AText "B"]
  /\ run (Ex.host 0) Ex.counter Ex.two_texts Ex.blank
     = Ok [ANode (RNode (0, 1)); AText "n=false"; ANode (RNode (0, 3)); AText "end"]
  /\ run (Ex.host 0) Ex.counter Ex.two_texts Ex.after_counter
     = Ok [ANode (RNode (0, 1)); AText "n=true"; ANode (RNode (0, 3)); AText "end"].
Proof. repeat split; vm_compute; reflexivity. Qed.

(** ** Choices *)


(** ** Sub-flows *)

Lemma getNodeElement_null w fi ni f n :
  cursor_at w fi ni f n -> getNodeElement (node_id n) None w = Ok (None, w).
Proof.
  intros Hc. rewrite (getNodeElement_current _ _ _ _ _ None Hc).
  assert (forall l i, find_first_from (fun el : NodeElement => same (Some (el_id el)) None) i l
                      = None) as Hnone.
  { induction l as [|e l IH]; intros i; [reflexivity|]. cbn.
    rewrite same_false by discriminate. apply IH. }
  unfold find_first. by rewrite Hnone.
Qed.

Lemma with_selectedFlowId_same w : with_selectedFlowId (_selectedFlowId w) w = w.
Proof. by destruct w. Qed.

(** The call: the position is pushed and the cursor follows the edge of type
    SubFlow. *)
Lemma depart_into_subflow (H : Host) w fi ni f n c cs t :
  cursor_at w fi ni f n ->
  node_id n <> THE_END ->
  node_type n = NodeType.subFlow ->
  _isJumping w = false ->
  List.filter (fun sf => String.eqb (sf_nodeId sf) (node_id n)) (activeSubFlows w) = [] ->
  List.filter (fun conn => same (conn_type conn) (Some NodeType.subFlow)) (node_connections n)
  = c :: cs ->
  conn_to c = Some t ->
  t <> EmptyString ->
  depart H None w
  = Ok (Moved n,
        with_selectedNodeId (Some t)
          (with_activeSubFlows
             ({| sf_flowId := _selectedFlowId w; sf_nodeId := node_id n |} :: activeSubFlows w)
             w)).
Proof.
  intros Hc Hend Htype Hjump Hstack Hconn Hto Ht.
  pose proof (cursor_node_id _ _ _ _ _ Hc) as Hsel.
  unfold depart. msimpl. rewrite Hsel, same_false by congruence. msimpl.
  rewrite (bind_ok _ _ _ _ _ (getNode_cursor _ _ _ _ _ Hc)). msimpl.
  rewrite (bind_ok _ _ _ _ _ (getNodeElement_null _ _ _ _ _ Hc)).
  unfold getAvailableConnections. msimpl.
  rewrite (bind_ok _ _ _ _ _ (getNode_selected _ _ _ _ _ Hc)). msimpl.
  rewrite Htype.
  destruct (node_connections n) as [|c0 cs0] eqn:Hcs; [discriminate|].
  msimpl. rewrite Hstack, Hconn. msimpl. cbn [_isJumping with_activeSubFlows].
  rewrite Hjump. same_compute. msimpl.
  unfold no_target, falsy_id. rewrite Hto.
  destruct (String.eqb t EmptyString) eqn:Et; [by apply String.eqb_eq in Et|].
  cbn [andb]. msimpl. cbn [_isJumping with_activeSubFlows]. rewrite Hjump. cbn [negb].
  msimpl. unfold target_of. rewrite Hto. reflexivity.
Qed.

(** A connection that the node holds and that has no target leaves
    [nextNode] without a target, whichever way it was found. *)
Lemma dead_end_no_target m (o : option Connection) :
  Forall (fun c => falsy_id (conn_to c) = true) (node_connections m) ->
  (forall c, o = Some c -> c ∈ node_connections m) ->
  no_target (match available o with
             | NoConnection => available (getFailedConnection m)
             | _ => available o
             end) = true.
Proof.
  intros Hall Ho. rewrite Forall_forall in Hall. destruct o as [c|]; cbn.
  - apply Hall, Ho. reflexivity.
  - unfold getFailedConnection.
    destruct (find_last _ (node_connections m)) as [[i c]|] eqn:Hf; [|reflexivity].
    cbn. apply Hall. apply find_last_Some in Hf as [_ Hi].
    by apply list_elem_of_lookup_2 in Hi.
Qed.

Lemma getAvailableNodeElement_of_choices (H : Host) w fi ni f n :
  cursor_at w fi ni f n ->
  node_type n = NodeType.choices ->
  getAvailableNodeElement H None w = Ok (None, w).
Proof.
  intros Hc Htype. unfold getAvailableNodeElement.
  rewrite (bind_ok _ _ _ _ _ (getNode_selected _ _ _ _ _ Hc)). msimpl.
  by rewrite Htype.
Qed.

(** The return, first activation: a node that [nextNode] hands back and none
    of whose connections has a target hands the cursor back to the position
    on top of the stack. *)
Lemma depart_dead_end (H : Host) w fi ni f m e rest fid fj nj g s :
  cursor_at w fi ni f m ->
  node_id m <> THE_END ->
  passes_through (node_type m) = false ->
  Forall (fun c => falsy_id (conn_to c) = true) (node_connections m) ->
  _isJumping w = false ->
  activeSubFlows w = e :: rest ->
  sf_flowId e = Some fid ->
  fid <> EmptyString ->
  let w1 := with_selectedNodeId (Some (sf_nodeId e)) (with_selectedFlowId (sf_flowId e) w) in
  cursor_at w1 fj nj g s ->
  depart H None w = Ok (Stop Again, w1).
Proof.
  intros Hc Hend Htype Hdead Hjump Hstack Hfid Hne w1 Hc1.
  pose proof (cursor_node_id _ _ _ _ _ Hc) as Hsel.
  assert (forall w0 : World,
            w0 = w ->
            (match activeSubFlows w0 with
             | subFlow :: _ =>
                 (if negb (same (sf_flowId subFlow) (_selectedFlowId w0))
                  then start (Some (sf_nodeId subFlow)) (sf_flowId subFlow) ;; ret tt
                  else ret tt) ;;
                 modify (with_selectedNodeId (Some (sf_nodeId subFlow))) ;;
                 ret (Stop Again)
             | [] =>
                 modify (with_selectedNodeId (Some THE_END)) ;;
                 ret (Stop (Return RFalse))
             end) w0 = Ok (Stop Again, w1)) as Hback.
  { intros w0 ->. rewrite Hstack. msimpl.
    destruct (same (sf_flowId e) (_selectedFlowId w)) eqn:Hsame.
    - apply same_true in Hsame. cbn [negb]. msimpl.
      unfold w1. rewrite Hsame, with_selectedFlowId_same. reflexivity.
    - cbn [negb]. msimpl.
      destruct Hc1 as [Hg Hs]. unfold getSelectedFlow in Hg. cbn in Hg.
      pose proof (find_last_Some _ _ _ _ Hg) as [Hgid _]. apply same_true in Hgid.
      assert (getFlow (sf_flowId e) w = Some (fj, g)) as HgetFlow.
      { unfold getFlow. by rewrite Hg. }
      unfold start. msimpl. rewrite Hfid. unfold falsy_id.
      destruct (String.eqb fid EmptyString) eqn:Ef; [by apply String.eqb_eq in Ef|].
      msimpl. rewrite <- Hfid, HgetFlow. msimpl.
      unfold getNodesByType. msimpl.
      unfold getSelectedFlow at 1. cbn [_selectedFlowId with_selectedFlowId _project].
      rewrite Hgid, Hg. msimpl. unfold w1. rewrite <- Hgid. reflexivity. }
  unfold depart. msimpl. rewrite Hsel, same_false by congruence. msimpl.
  rewrite (bind_ok _ _ _ _ _ (getNode_cursor _ _ _ _ _ Hc)). msimpl.
  rewrite (bind_ok _ _ _ _ _ (getNodeElement_null _ _ _ _ _ Hc)).
  unfold getAvailableConnections. msimpl.
  rewrite (bind_ok _ _ _ _ _ (getNode_selected _ _ _ _ _ Hc)). msimpl.
  destruct (node_type m) eqn:Hm; try discriminate; msimpl; rewrite Hjump.
  - (* text *)
    same_compute. msimpl.
    rewrite (dead_end_no_target m (head (node_connections m)) Hdead)
      by (intros c Hh; by apply head_Some_elem_of).
    cbn [andb]. by apply Hback.
  - (* choices *)
    same_compute. cbn [negb andb]. msimpl. unfold getParsedText. msimpl.
    rewrite (bind_ok _ _ _ _ _ (getAvailableNodeElement_of_choices H _ _ _ _ _ Hc Hm)).
    cbn [parsedText]. msimpl.
    rewrite (dead_end_no_target m (getConnectionsByElementId m None) Hdead).
    + cbn [andb]. by apply Hback.
    + unfold getConnectionsByElementId. intros c Hf.
      destruct (find_last _ (node_connections m)) as [[i c0]|] eqn:Hfl; [|discriminate].
      injection Hf as <-. apply find_last_Some in Hfl as [_ Hi].
      by apply list_elem_of_lookup_2 in Hi.
  - (* failCondition *)
    same_compute. msimpl.
    pose proof (dead_end_no_target m None Hdead ltac:(discriminate)) as Hnone.
    cbn [available] in Hnone. rewrite Hnone. cbn [andb]. by apply Hback.
  - (* label *)
    same_compute. msimpl.
    pose proof (dead_end_no_target m None Hdead ltac:(discriminate)) as Hnone.
    cbn [available] in Hnone. rewrite Hnone. cbn [andb]. by apply Hback.
Qed.

(** The return, second activation: the sub-flow node is on the stack, so the
    entry is popped and the cursor follows the first edge that is not of
    type SubFlow. *)
Lemma depart_out_of_subflow (H : Host) w fi ni f s e rest c cs t :
  cursor_at w fi ni f s ->
  node_id s <> THE_END ->
  node_type s = NodeType.subFlow ->
  _isJumping w = false ->
  activeSubFlows w = e :: rest ->
  sf_nodeId e = node_id s ->
  List.filter (fun conn => negb (same (conn_type conn) (Some NodeType.subFlow)))
    (node_connections s) = c :: cs ->
  conn_to c = Some t ->
  t <> EmptyString ->
  depart H None w
  = Ok (Moved s, with_selectedNodeId (Some t) (with_activeSubFlows rest w)).
Proof.
  intros Hc Hend Htype Hjump Hstack Hentry Hconn Hto Ht.
  pose proof (cursor_node_id _ _ _ _ _ Hc) as Hsel.
  unfold depart. msimpl. rewrite Hsel, same_false by congruence. msimpl.
  rewrite (bind_ok _ _ _ _ _ (getNode_cursor _ _ _ _ _ Hc)). msimpl.
  rewrite (bind_ok _ _ _ _ _ (getNodeElement_null _ _ _ _ _ Hc)).
  unfold getAvailableConnections. msimpl.
  rewrite (bind_ok _ _ _ _ _ (getNode_selected _ _ _ _ _ Hc)). msimpl.
  rewrite Htype.
  destruct (node_connections s) as [|c0 cs0] eqn:Hcs; [discriminate|].
  msimpl. rewrite <- Hcs in *. rewrite Hstack.
  assert (List.filter (fun sf => String.eqb (sf_nodeId sf) (node_id s)) (e :: rest)
          = e :: List.filter (fun sf => String.eqb (sf_nodeId sf) (node_id s)) rest) as ->.
  { cbn [List.filter]. by rewrite Hentry, String.eqb_refl. }
  msimpl. rewrite Hconn. cbn [head available tail].
  cbn [_isJumping with_activeSubFlows]. rewrite Hjump. same_compute. msimpl.
  unfold no_target, falsy_id. rewrite Hto.
  destruct (String.eqb t EmptyString) eqn:Et; [by apply String.eqb_eq in Et|].
  cbn [andb]. msimpl. cbn [_isJumping with_activeSubFlows]. rewrite Hjump. cbn [negb].
  msimpl. unfold target_of. rewrite Hto. reflexivity.
Qed.

(** C5, as the code has it.  When an activation of [nextNode] finds the
    cursor on a sub-flow node that is not on the stack, and no jump is
    pending, it pushes the selected flow and the node and goes on from the
    target of the edge of type SubFlow.  When [nextNode] is called, again
    with no jump pending, on a node that it hands back (a text, a choice, a
    fail condition or a label) none of whose connections has a target,
    while an entry is on the stack, it goes back to the sub-flow node of
    that entry, pops the entry, and goes on from the target of the first
    edge that is not of type SubFlow. *)
Theorem C5_subflow_call_and_return (H : Host) (d : nat)
    (w : World) (fi ni : nat) (f : Flow) (n : Node) (c : Connection)
    (cs : list Connection) (t : string)
    (v : World) (fi' ni' : nat) (f' : Flow) (m : Node) (e : SubFlowEntry)
    (rest : list SubFlowEntry) (fid : string) (fj nj : nat) (g : Flow) (s : Node)
    (c' : Connection) (cs' : list Connection) (t' : string) :
  cursor_at w fi ni f n ->
  node_id n <> THE_END ->
  node_type n = NodeType.subFlow ->
  _isJumping w = false ->
  List.filter (fun sf => String.eqb (sf_nodeId sf) (node_id n)) (activeSubFlows w) = [] ->
  List.filter (fun conn => same (conn_type conn) (Some NodeType.subFlow)) (node_connections n)
  = c :: cs ->
  conn_to c = Some t ->
  t <> EmptyString ->
  cursor_at v fi' ni' f' m ->
  node_id m <> THE_END ->
  passes_through (node_type m) = false ->
  Forall (fun c => falsy_id (conn_to c) = true) (node_connections m) ->
  _isJumping v = false ->
  activeSubFlows v = e :: rest ->
  sf_flowId e = Some fid ->
  fid <> EmptyString ->
  let v1 := with_selectedNodeId (Some (sf_nodeId e)) (with_selectedFlowId (sf_flowId e) v) in
  cursor_at v1 fj nj g s ->
  node_id s <> THE_END ->
  node_type s = NodeType.subFlow ->
  List.filter (fun conn => negb (same (conn_type conn) (Some NodeType.subFlow)))
    (node_connections s) = c' :: cs' ->
  conn_to c' = Some t' ->
  t' <> EmptyString ->
  nextNode_rec H (S d) None w
  = resume H d n
      (with_selectedNodeId (Some t)
         (with_activeSubFlows
            ({| sf_flowId := _selectedFlowId w; sf_nodeId := node_id n |} :: activeSubFlows w)
            w))
  /\ nextNode_rec H (S (S d)) None v
     = resume H d s (with_selectedNodeId (Some t') (with_activeSubFlows rest v1)).
Proof.
  intros Hc Hend Htype Hjump Hstack Hconn Hto Ht
         Hc' Hend' Htype' Hconn' Hjump' Hstack' Hfid Hne v1 Hc1 Hends Htypes Hconns Htos Hts.
  split.
  - cbn [nextNode_rec]. unfold nextNode_step. msimpl.
    rewrite (bind_ok _ _ _ _ _
               (depart_into_subflow H _ _ _ _ _ _ _ _ Hc Hend Htype Hjump Hstack Hconn Hto Ht)).
    reflexivity.
  - cbn [nextNode_rec]. unfold nextNode_step. msimpl.
    rewrite (bind_ok _ _ _ _ _
               (depart_dead_end H _ _ _ _ _ _ _ _ _ _ _ _
                  Hc' Hend' Htype' Hconn' Hjump' Hstack' Hfid Hne Hc1)).
    msimpl.
    assert (sf_nodeId e = node_id s) as Hentry.
    { pose proof (cursor_node_id _ _ _ _ _ Hc1) as Hsel. cbn in Hsel. congruence. }
    rewrite (bind_ok _ _ _ _ _
               (depart_out_of_subflow H v1 _ _ _ _ e rest _ _ _
                  Hc1 Hends Htypes Hjump' Hstack' Hentry Hconns Htos Hts)).
    reflexivity.
Qed.

Lemma C5_subflow_call_and_return_witness :
  nextNode_rec (Ex.host 0) 1 None Ex.before_call
  = resume (Ex.host 0) 0 Ex.before_call_s
      (with_selectedNodeId (Some "a")
         (with_activeSubFlows
            ({| sf_flowId := _selectedFlowId Ex.before_call;
                sf_nodeId := node_id Ex.before_call_s |}
             :: activeSubFlows Ex.before_call)
            Ex.before_call))
  /\ nextNode_rec (Ex.host 0) 2 None Ex.in_callee
     = resume (Ex.host 0) 0 Ex.in_callee_s
         (with_selectedNodeId (Some "z")
            (with_activeSubFlows []
               (with_selectedNodeId (Some (sf_nodeId {| sf_flowId := Some "f1"; sf_nodeId := "s" |}))
                  (with_selectedFlowId (sf_flowId {| sf_flowId := Some "f1"; sf_nodeId := "s" |})
                     Ex.in_callee)))).
Proof.
  apply (C5_subflow_call_and_return (Ex.host 0) 0
           Ex.before_call 0 1 Ex.before_call_flow Ex.before_call_s
           (Ex.connection "a" (Some NodeType.subFlow) None) [] "a"
           Ex.in_callee 0 2 Ex.in_callee_flow Ex.in_callee_a
           {| sf_flowId := Some "f1"; sf_nodeId := "s" |} [] "f1" 0 1
           Ex.in_callee_flow Ex.in_callee_s
           (Ex.connection "z" None None) [] "z").
  all: try (vm_compute; first [reflexivity | discriminate | split; reflexivity]).
  constructor.
Defined.

(** C5, as the claim states it, fails while a jump is pending.  In the
    project [jumping] the start leads to a jump, the jump to a choice
    without choices, whose fail connection leads to the sub-flow node [s].
    The walk enters [s], which is not on the stack, with the flag of the
    jump still set: the position is pushed, but the cursor stays on [s]
    instead of following the edge of type SubFlow to [a]; the next
    activation pops the entry and leaves by the other edge, so that the
    call returns [z] and the callee is never entered. *)
Lemma C5_pending_jump_skips_the_subflow :
  nextNode_step (Ex.host 0) None Ex.jumping_loaded = Ok (Again, Ex.on_jump)
  /\ nextNode_step (Ex.host 0) None Ex.on_jump = Ok (Again, Ex.pending)
  /\ cursor_at Ex.pending 0 3 Ex.pending_flow Ex.pending_s
  /\ node_type Ex.pending_s = NodeType.subFlow
  /\ List.filter (fun conn => same (conn_type conn) (Some NodeType.subFlow))
       (node_connections Ex.pending_s)
     = [Ex.connection "a" (Some NodeType.subFlow) None]
  /\ activeSubFlows Ex.pending = []
  /\ _isJumping Ex.pending = true
  /\ nextNode_step (Ex.host 0) None Ex.pending = Ok (Again, Ex.skipped)
  /\ activeSubFlows Ex.skipped = [{| sf_flowId := Some "f1"; sf_nodeId := "s" |}]
  /\ _selectedNodeId Ex.skipped = Some "s"
  /\ nextNode (Ex.host 0) None Ex.jumping_loaded = Ok (RNode (0, 5), Ex.jumped_out)
  /\ _selectedNodeId Ex.jumped_out = Some "z"
  /\ activeSubFlows Ex.jumped_out = [].
Proof.
  repeat split; vm_compute; reflexivity.
Qed.

(** ** The condition node *)










(** ** The loop cycle *)

Lemma find_last_from_alter {A} (p : A -> bool) (g : A -> A) l s i x :
  find_last_from p s l = Some (s + i, x) ->
  p (g x) = true ->
  find_last_from p s (alter g i l) = Some (s + i, g x).
Proof.
  revert s i. induction l as [|y l IH]; intros s i; cbn [find_last_from]; [discriminate|].
  destruct (find_last_from p (S s) l) as [[j z]|] eqn:E.
  - intros [= Hj ->] Hg. destruct i as [|i].
    + apply find_last_from_Some in E as (_ & Hle & _). lia.
    + cbn [alter list_alter find_last_from].
      replace (s + S i) with (S s + i) in * by lia. subst j.
      by rewrite (IH _ _ E Hg).
  - destruct (p y) eqn:Hp; [|discriminate]. intros [= Hs ->] Hg.
    assert (i = 0) as -> by lia. cbn [alter list_alter find_last_from].
    by rewrite E, Hg, Nat.add_0_r.
Qed.

Lemma find_last_alter {A} (p : A -> bool) (g : A -> A) l i x :
  find_last p l = Some (i, x) -> p (g x) = true -> find_last p (alter g i l) = Some (i, g x).
Proof. apply (find_last_from_alter p g l 0 i x). Qed.

(** A write into the current node leaves the cursor on it. *)
Lemma cursor_at_alter_node w fi ni f n (g : Node -> Node) :
  cursor_at w fi ni f n ->
  node_id (g n) = node_id n ->
  cursor_at (with_project (alter_node g (fi, ni) (_project w)) w) fi ni
    (set_nodes (alter g ni (flow_nodes f)) f) (g n).
Proof.
  intros [Hf Hn] Hid. split.
  - unfold getSelectedFlow in *. cbn.
    apply (find_last_alter _ (fun f => set_nodes (alter g ni (flow_nodes f)) f) _ _ _ Hf).
    cbn. by apply find_last_Some in Hf as [Hp _].
  - cbn. apply (find_last_alter _ g _ _ _ Hn). rewrite Hid.
    by apply find_last_Some in Hn as [Hp _].
Qed.

Lemma filter_from_prefix k s (es : list NodeElement) :
  visited_prefix k es ->
  k < List.length es ->
  exists e rest, filter_from unvisited s es = (s + k, e) :: rest.
Proof.
  revert k s. induction es as [|e es IH]; intros k s Hpre Hk; cbn in Hk; [lia|].
  cbn [filter_from]. unfold unvisited at 1. rewrite (Hpre 0 e eq_refl).
  destruct k as [|k].
  - rewrite bool_decide_eq_false_2 by lia. cbn. rewrite Nat.add_0_r. eauto.
  - rewrite bool_decide_eq_true_2 by lia. cbn [negb].
    destruct (IH k (S s)) as (e' & rest & ->); [|lia|].
    + intros i x Hx. rewrite (Hpre (S i) x Hx). apply bool_decide_ext. lia.
    + replace (S s + k) with (s + S k) by lia. eauto.
Qed.

Lemma filter_from_all_visited s (es : list NodeElement) :
  visited_prefix (List.length es) es -> filter_from unvisited s es = [].
Proof.
  revert s. induction es as [|e es IH]; intros s Hpre; [reflexivity|].
  cbn [filter_from]. unfold unvisited at 1. rewrite (Hpre 0 e eq_refl). cbn [List.length].
  rewrite bool_decide_eq_true_2 by lia. cbn [negb]. apply IH.
  intros i x Hx. rewrite (Hpre (S i) x Hx). apply bool_decide_ext. cbn. lia.
Qed.

Lemma visited_prefix_next k es :
  visited_prefix k es -> visited_prefix (S k) (alter (set_visited true) k es).
Proof.
  intros Hpre i e He. destruct (decide (i = k)) as [->|Hne].
  - rewrite list_lookup_alter_eq in He. destruct (es !! k); [|discriminate].
    injection He as <-. cbn. symmetry. apply bool_decide_eq_true_2. lia.
  - rewrite list_lookup_alter_ne in He by done. rewrite (Hpre i e He).
    apply bool_decide_ext. lia.
Qed.

Lemma visited_prefix_reset es : visited_prefix 0 (List.map (set_visited false) es).
Proof.
  intros i e He. change (List.map (set_visited false) es) with (set_visited false <$> es) in He.
  rewrite list_lookup_fmap in He. destruct (es !! i); [|discriminate].
  injection He as <-. cbn. symmetry. apply bool_decide_eq_false_2. lia.
Qed.

Lemma first_of_all {A} (l : list A) :
  0 < List.length l -> fst <$> head (imap pair l) = Some 0.
Proof. destruct l; cbn; [lia|done]. Qed.

(** One selection on a loop node whose first [k] elements are visited: the
    element [k mod N] is selected, and afterwards the first [k mod N + 1]
    elements are visited. *)
Lemma select_on_loop (H : Host) w fi ni f n k :
  cursor_at w fi ni f n ->
  node_type n = NodeType.text ->
  node_cycleType n = Some CycleType.loop ->
  0 < List.length (node_elements n) ->
  k <= List.length (node_elements n) ->
  visited_prefix k (node_elements n) ->
  exists w' f' n',
    getAvailableNodeElement H None w
    = Ok (Some (fi, ni, k mod List.length (node_elements n)), w')
    /\ cursor_at w' fi ni f' n'
    /\ node_type n' = NodeType.text
    /\ node_cycleType n' = Some CycleType.loop
    /\ List.length (node_elements n') = List.length (node_elements n)
    /\ visited_prefix (S (k mod List.length (node_elements n))) (node_elements n').
Proof.
  intros Hc Htype Hcycle Hpos Hk Hpre.
  unfold getAvailableNodeElement.
  rewrite (bind_ok _ _ _ _ _ (getNode_selected _ _ _ _ _ Hc)). msimpl.
  rewrite Htype, Hcycle. unfold filter_idx.
  destruct (decide (k < List.length (node_elements n))) as [Hlt|Hge].
  - destruct (filter_from_prefix k 0 _ Hpre Hlt) as (e & rest & ->).
    msimpl. cbn [head fmap option_fmap option_map fst]. unfold visit, write_elem. msimpl.
    rewrite Nat.mod_small by done.
    eexists _, _, _. split; [reflexivity|].
    split; [|split; [|split; [|split]]].
    + unfold alter_elem.
      apply (cursor_at_alter_node _ _ _ _ _
               (fun n0 => set_elements (alter (set_visited true) (fi, ni, k).2 (node_elements n0)) n0)
               Hc).
      reflexivity.
    + exact Htype.
    + exact Hcycle.
    + cbn. by rewrite length_alter.
    + cbn. by apply visited_prefix_next.
  - assert (k = List.length (node_elements n)) as -> by lia.
    rewrite (filter_from_all_visited 0 _ Hpre).
    rewrite Nat.Div0.mod_same, (first_of_all _ Hpos).
    unfold reset_visited, write_node, visit, write_elem. msimpl.
    set (g1 := fun n0 => set_elements (List.map (set_visited false) (node_elements n0)) n0).
    set (g2 := fun n0 => set_elements (alter (set_visited true) 0 (node_elements n0)) n0).
    pose proof (cursor_at_alter_node w fi ni f n g1 Hc eq_refl) as Hc1.
    pose proof (cursor_at_alter_node _ fi ni _ (g1 n) g2 Hc1 eq_refl) as Hc2.
    eexists _, _, _. split; [reflexivity|].
    split; [exact Hc2|].
    split; [exact Htype|]. split; [exact Hcycle|].
    split.
    + change (node_elements (g2 (g1 n)))
        with (alter (set_visited true) 0 (List.map (set_visited false) (node_elements n))).
      by rewrite length_alter, length_map.
    + apply (visited_prefix_next 0 (List.map (set_visited false) (node_elements n))).
      apply visited_prefix_reset.
Qed.

(** The selections from such a state go round the elements. *)
Lemma selections_on_loop (H : Host) m : forall w fi ni f n k,
  cursor_at w fi ni f n ->
  node_type n = NodeType.text ->
  node_cycleType n = Some CycleType.loop ->
  0 < List.length (node_elements n) ->
  k <= List.length (node_elements n) ->
  visited_prefix k (node_elements n) ->
  exists w',
    selections H m w
    = Ok ((fun j => Some (fi, ni, (k + j) mod List.length (node_elements n))) <$> seq 0 m, w').
Proof.
  induction m as [|m IH]; intros w fi ni f n k Hc Htype Hcycle Hpos Hk Hpre.
  - eexists. reflexivity.
  - destruct (select_on_loop H _ _ _ _ _ _ Hc Htype Hcycle Hpos Hk Hpre)
      as (w1 & f1 & n1 & Hsel & Hc1 & Htype1 & Hcycle1 & Hlen & Hpre1).
    destruct (IH w1 fi ni f1 n1 (S (k mod List.length (node_elements n))))
      as (w2 & Hrest); try done.
    { rewrite Hlen. lia. }
    { rewrite Hlen. pose proof (Nat.mod_upper_bound k (List.length (node_elements n))). lia. }
    exists w2. cbn [selections]. rewrite (bind_ok _ _ _ _ _ Hsel).
    rewrite (bind_ok _ _ _ _ _ Hrest). unfold ret. f_equal. f_equal.
    cbn [seq fmap list_fmap]. rewrite Nat.add_0_r. f_equal.
    rewrite <- fmap_S_seq, <- list_fmap_compose. apply list_fmap_ext.
    intros _ j _. cbn. rewrite Hlen. do 2 f_equal.
    change (S (k mod List.length (node_elements n) + j))
      with (S (k mod List.length (node_elements n)) + j).
    replace (S (k mod List.length (node_elements n)) + j)
      with (k mod List.length (node_elements n) + S j) by lia.
    rewrite Nat.Div0.add_mod_idemp_l. reflexivity.
Qed.

(** C8, as the code has it.  On a text node whose cycle type is Loop, with
    [N] elements of which the first [k] are the visited ones (none after
    [load]; the selections themselves leave such a state), [2 * N]
    selections succeed, and the [i]-th and the [(N + i)]-th select the same
    element. *)
Theorem C8_loop_closure (H : Host) (w : World) (fi ni : nat) (f : Flow) (n : Node) (k : nat) :
  cursor_at w fi ni f n ->
  node_type n = NodeType.text ->
  node_cycleType n = Some CycleType.loop ->
  k <= List.length (node_elements n) ->
  visited_prefix k (node_elements n) ->
  exists l w',
    selections H (2 * List.length (node_elements n)) w = Ok (l, w')
    /\ List.length l = 2 * List.length (node_elements n)
    /\ forall i, i < List.length (node_elements n) ->
         l !! (List.length (node_elements n) + i) = l !! i
         /\ l !! i = Some (Some (fi, ni, (k + i) mod List.length (node_elements n))).
Proof.
  intros Hc Htype Hcycle Hk Hpre.
  destruct (decide (List.length (node_elements n) = 0)) as [Hz|Hnz].
  - rewrite Hz. exists [], w. split; [reflexivity|]. split; [reflexivity|]. intros i Hi. lia.
  - destruct (selections_on_loop H (2 * List.length (node_elements n)) _ _ _ _ _ _
                Hc Htype Hcycle ltac:(lia) Hk Hpre) as (w' & Hsel).
    eexists _, w'. split; [exact Hsel|].
    split; [by rewrite length_fmap, length_seq|].
    intros i Hi. rewrite !list_lookup_fmap, !lookup_seq_lt by lia. cbn.
    split; [|reflexivity]. do 3 f_equal.
    replace (k + (List.length (node_elements n) + i))
      with (k + i + 1 * List.length (node_elements n)) by lia.
    apply Nat.Div0.mod_add.
Qed.

Lemma C8_loop_closure_witness :
  exists l w',
    selections (Ex.host 0) (2 * List.length (node_elements Ex.in_loop_node)) Ex.in_loop
    = Ok (l, w')
    /\ List.length l = 2 * List.length (node_elements Ex.in_loop_node)
    /\ forall i, i < List.length (node_elements Ex.in_loop_node) ->
         l !! (List.length (node_elements Ex.in_loop_node) + i) = l !! i
         /\ l !! i
            = Some (Some (0, 1, (1 + i) mod List.length (node_elements Ex.in_loop_node))).
Proof.
  apply (C8_loop_closure (Ex.host 0) Ex.in_loop 0 1 Ex.in_loop_flow Ex.in_loop_node 1).
  - split; vm_compute; reflexivity.
  - reflexivity.
  - reflexivity.
  - cbn. lia.
  - intros [|[|i]] e; cbn; intros [= <-]; reflexivity.
Defined.

(** C8, as the claim states it, fails where the visited elements are not
    the first ones.  In the project [circling] the loop node leads back to
    itself; once [nextNode] has been called on it with the element [e2],
    that element alone is visited, and six selections give the first, the
    third, the first, the second, the third and the first element: the
    first and the fourth differ. *)
Lemma C8_loop_after_a_chosen_element :
  (new_HomerParser (Ex.host 0) Ex.circling None ;; nextNode (Ex.host 0) None ;;
   nextNode (Ex.host 0) (Some "e2")) Ex.blank
  = Ok (RNode (0, 1), Ex.after_choice)
  /\ cursor_at Ex.after_choice 0 1 Ex.after_choice_flow Ex.after_choice_node
  /\ node_type Ex.after_choice_node = NodeType.text
  /\ node_cycleType Ex.after_choice_node = Some CycleType.loop
  /\ el_visited <$> node_elements Ex.after_choice_node = [false; true; false]
  /\ answers (selections (Ex.host 0) 6 Ex.after_choice)
     = Ok [Some (0, 1, 0); Some (0, 1, 2); Some (0, 1, 0);
           Some (0, 1, 1); Some (0, 1, 2); Some (0, 1, 0)].
Proof.
  repeat split; vm_compute; reflexivity.
Qed.

(** The scenario of the specification: four renderings of the loop node
    give [A], [B], [A], [B]. *)
Example loop_renderings (H : Host) :
  answers (renderings H 4 None Ex.at_loop) = Ok ["A"; "B"; "A"; "B"].
Proof. vm_compute. reflexivity. Qed.

(** ** Postconditions *)

Lemma post_bind {A B} (Q1 : A -> World -> Prop) (Q : B -> World -> Prop)
    (m : M A) (k : A -> M B) w :
  post Q1 (m w) -> (forall a w1, Q1 a w1 -> post Q (k a w1)) -> post Q (bind m k w).
Proof.
  unfold post, bind. destruct (m w) as [[a w1]|e]; [|done]. intros HQ1 Hk. by apply Hk.
Qed.

Lemma post_mono {A} (Q Q' : A -> World -> Prop) r :
  post Q r -> (forall a w, Q a w -> Q' a w) -> post Q' r.
Proof. unfold post. destruct r as [[a w]|e]; [|done]. intros HQ HQ'. by apply HQ'. Qed.

Lemma post_ok {A} (Q : A -> World -> Prop) r a w : post Q r -> r = Ok (a, w) -> Q a w.
Proof. by intros HQ ->. Qed.

Lemma post_deref {A B} (Q : B -> World -> Prop) (o : option A) (k : A -> M B) w :
  (forall a, o = Some a -> post Q (k a w)) -> post Q (bind (deref o) k w).
Proof. destruct o as [a|]; [|done]. intros Hk. by apply Hk. Qed.

Lemma post_foldM {A B} (I : A -> World -> Prop) (f : A -> B -> M A) l a w :
  I a w -> (forall a x w, I a w -> post I (f a x w)) -> post I (foldM f a l w).
Proof.
  intros Ha Hf. revert a w Ha. induction l as [|x l IH]; intros a w Ha; cbn [foldM].
  - exact Ha.
  - eapply post_bind; [by apply Hf|]. intros a1 w1 H1. by apply IH.
Qed.

Lemma post_forEach {A} (P : World -> Prop) (f : A -> M unit) l w :
  P w -> (forall x w, P w -> post (fun _ => P) (f x w)) ->
  post (fun _ => P) (forEach f l w).
Proof.
  intros Hw Hf. revert w Hw. induction l as [|x l IH]; intros w Hw; cbn [forEach].
  - exact Hw.
  - eapply post_bind; [by apply Hf|]. intros [] w1 H1. by apply IH.
Qed.

(** *** Lookups under a write *)

Lemma node_at_alter_node g r p r' :
  node_at (alter_node g r p) r' = (if decide (r = r') then g else id) <$> node_at p r'.
Proof.
  destruct r as [fi ni], r' as [fi' ni']. unfold node_at, alter_node. cbn.
  rewrite list_lookup_alter. destruct (decide (fi = fi')) as [->|Hf].
  - destruct (proj_flows p !! fi') as [f|]; cbn; [|try case_decide; done].
    rewrite list_lookup_alter. destruct (decide (ni = ni')) as [->|Hn].
    + rewrite decide_True by done. reflexivity.
    + rewrite decide_False by congruence. by destruct (flow_nodes f !! ni').
  - rewrite decide_False by congruence.
    destruct (proj_flows p !! fi') as [f|]; cbn; [|done]. by destruct (flow_nodes f !! ni').
Qed.

Lemma elem_at_alter_elem g r p r' :
  elem_at (alter_elem g r p) r' = (if decide (r = r') then g else id) <$> elem_at p r'.
Proof.
  destruct r as [nr ei], r' as [nr' ei']. unfold elem_at, alter_elem. cbn.
  rewrite node_at_alter_node. destruct (decide (nr = nr')) as [->|Hn].
  - rewrite decide_True by done.
    destruct (node_at p nr') as [n|]; [|try case_decide; done].
    change (alter g ei (node_elements n) !! ei'
            = (if decide ((nr', ei) = (nr', ei')) then g else id) <$> node_elements n !! ei').
    rewrite list_lookup_alter. destruct (decide (ei = ei')) as [->|He].
    + rewrite decide_True by done. reflexivity.
    + rewrite decide_False by congruence. by destruct (node_elements n !! ei').
  - rewrite !decide_False by congruence.
    destruct (node_at p nr') as [n|]; cbn; [|done]. by destruct (node_elements n !! ei').
Qed.

Lemma elem_at_alter_content g c p r' :
  elem_at (alter_content g c p) r'
  = (fun e => match c.1 with
              | OfElement r =>
                  if decide (r = r')
                  then set_contents (alter g c.2 (el_localizedContents e)) e else e
              | OfLabel _ => e
              end) <$> elem_at p r'.
Proof.
  unfold alter_content. destruct c as [[r|i] k]; cbn.
  - rewrite elem_at_alter_elem. destruct (decide (r = r')); [done|].
    by destruct (elem_at p r').
  - unfold elem_at, node_at. cbn. by destruct (_ ≫= _) as [e|].
Qed.

(** ** What [load] leaves *)

Lemma with_globalVariables_same w : with_globalVariables (globalVariables w) w = w.
Proof. by destruct w. Qed.

Lemma with_stores_same w :
  with_localVars (_localVars w) (with_globalVariables (globalVariables w) w) = w.
Proof. by destruct w. Qed.

Lemma eval_value_evaluable (H : Host) h w :
  knows_booleans H -> evaluable h -> eval_value H h w = Ok (as_boolean h, w).
Proof.
  intros Hhost Hh. destruct h as [[| |b|z|s]|]; try reflexivity.
  destruct (Hhost (globalVariables w) (_localVars w)) as [Ht Hf].
  cbn in Hh. unfold eval_value, eval, try_eval, bind.
  destruct Hh as [-> | ->]; [rewrite Ht|rewrite Hf]; cbn; by rewrite with_stores_same.
Qed.

(** *** Reads and writes of a store *)

Lemma to_accessor_read g k : to_accessor g k = true -> read_var g k = Inherited.
Proof.
  unfold to_accessor, read_var. intros [Hk Hg]%andb_true_iff.
  apply String.eqb_eq in Hk as ->.
  destruct (own g !! "__proto__"); [done|]. by destruct (prototype g).
Qed.

Lemma write_var_back g k : to_accessor g k = true -> write_var k Inherited g = g.
Proof. unfold write_var. by intros ->. Qed.

Lemma write_var_data g k h :
  to_accessor g k = false ->
  write_var k h g = {| own := <[k := h]> (own g); prototype := prototype g |}.
Proof. unfold write_var. by intros ->. Qed.

Lemma to_accessor_own g k h : own g !! k = Some h -> to_accessor g k = false.
Proof. unfold to_accessor. intros ->. apply andb_false_r. Qed.

Lemma read_var_own g k h : own g !! k = Some h -> read_var g k = h.
Proof. unfold read_var. by intros ->. Qed.

Lemma read_var_same g g' k :
  own g' !! k = own g !! k -> prototype g' = prototype g -> read_var g' k = read_var g k.
Proof. unfold read_var. by intros -> ->. Qed.

(** The turn of the loop for [v], by cases: a key that goes to the accessor
    leaves the store as it is, any other is set in the store itself. *)
Lemma seed_cases v g :
  (to_accessor g (var_key v) = true /\ seed v g = g)
  \/ (to_accessor g (var_key v) = false
      /\ prototype (seed v g) = prototype g
      /\ (forall k, k <> var_key v -> own (seed v g) !! k = own g !! k)
      /\ (var_type v <> VariableType.separator ->
          read_var (seed v g) (var_key v) = kept_or_declared g v)).
Proof.
  unfold seed, kept_or_declared. destruct (to_accessor g (var_key v)) eqn:Hacc.
  - left. split; [done|]. rewrite (to_accessor_read _ _ Hacc). cbn [held_truthy negb].
    rewrite andb_false_r. destruct (same (var_type v) VariableType.bool); [|done].
    rewrite (to_accessor_read _ _ Hacc). by apply write_var_back.
  - right. split; [done|].
    set (g1 := if negb (same (var_type v) VariableType.separator)
                  && negb (held_truthy (read_var g (var_key v)))
               then write_var (var_key v) (var_value v) g else g).
    assert (to_accessor g1 (var_key v) = false) as Hacc1.
    { unfold g1. destruct (_ && _); [|done]. rewrite (write_var_data _ _ _ Hacc).
      apply (to_accessor_own _ _ (Value (var_value v))). cbn. apply lookup_insert_eq. }
    assert (prototype g1 = prototype g) as Hp1.
    { unfold g1. destruct (_ && _); [|done]. by rewrite (write_var_data _ _ _ Hacc). }
    assert (forall k, k <> var_key v -> own g1 !! k = own g !! k) as Ho1.
    { intros k Hk. unfold g1. destruct (_ && _); [|done].
      rewrite (write_var_data _ _ _ Hacc). cbn. by apply lookup_insert_ne. }
    assert (var_type v <> VariableType.separator ->
            read_var g1 (var_key v)
            = if held_truthy (read_var g (var_key v)) then read_var g (var_key v)
              else Value (var_value v)) as Hr1.
    { intros Hsep. unfold g1. rewrite (same_false _ _ Hsep). cbn [negb andb].
      destruct (held_truthy (read_var g (var_key v))); cbn [negb]; [done|].
      rewrite (write_var_data _ _ _ Hacc). apply read_var_own. cbn. apply lookup_insert_eq. }
    destruct (same (var_type v) VariableType.bool).
    + rewrite (write_var_data _ _ _ Hacc1). cbn [prototype own]. split; [done|]. split.
      * intros k Hk. rewrite lookup_insert_ne by done. by apply Ho1.
      * intros Hsep. rewrite <- (Hr1 Hsep). apply read_var_own. cbn. apply lookup_insert_eq.
    + done.
Qed.

Lemma seed_other v g k : k <> var_key v -> read_var (seed v g) k = read_var g k.
Proof.
  intros Hne. destruct (seed_cases v g) as [[_ ->]|(_ & Hp & Ho & _)]; [done|].
  apply read_var_same; [by apply Ho|done].
Qed.

Lemma seed_self v g :
  var_type v <> VariableType.separator ->
  read_var (seed v g) (var_key v) = kept_or_declared g v.
Proof.
  intros Hsep. destruct (seed_cases v g) as [[Hacc Hg]|(_ & _ & _ & Hr)]; [|by apply Hr].
  rewrite Hg. unfold kept_or_declared. rewrite (to_accessor_read _ _ Hacc).
  cbn [held_truthy]. by destruct (same (var_type v) VariableType.bool).
Qed.

Lemma load_variable_seed (H : Host) v w :
  knows_booleans H ->
  (var_type v = VariableType.bool ->
   evaluable (var_value v) /\ evaluable (read_var (globalVariables w) (var_key v))) ->
  load_variable H v w = Ok (tt, with_globalVariables (seed v (globalVariables w)) w).
Proof.
  intros Hhost Hbool. unfold load_variable, seed, set_global. msimpl.
  set (g := globalVariables w).
  set (c := negb (same (var_type v) VariableType.separator)
            && negb (held_truthy (read_var g (var_key v)))).
  set (g1 := if c then write_var (var_key v) (var_value v) g else g).
  assert (var_type v = VariableType.bool -> evaluable (read_var g1 (var_key v))) as Hev.
  { intros Hb. destruct (Hbool Hb) as [Hdecl Hearlier]. unfold g1.
    destruct c eqn:Hc; [|done].
    destruct (to_accessor g (var_key v)) eqn:Hacc.
    - unfold c in Hc. rewrite (to_accessor_read _ _ Hacc) in Hc.
      by rewrite andb_false_r in Hc.
    - rewrite (write_var_data _ _ _ Hacc).
      by rewrite (read_var_own _ _ (Value (var_value v)))
        by (cbn; apply lookup_insert_eq). }
  destruct (same (var_type v) VariableType.bool) eqn:Hb.
  - apply same_true in Hb. specialize (Hev Hb). subst g1.
    destruct c; msimpl; cbn [globalVariables with_globalVariables].
    + rewrite (bind_ok _ _ _ _ _ (eval_value_evaluable H _ _ Hhost Hev)). reflexivity.
    + rewrite (bind_ok _ _ _ _ _ (eval_value_evaluable H _ _ Hhost Hev)). reflexivity.
  - destruct c; msimpl; [reflexivity|]. unfold ret, g1, g.
    by rewrite with_globalVariables_same.
Qed.

(** The loop of [load] over the declared variables, as a fold of [seed]. *)
Lemma load_variables_seed (H : Host) vs : forall w,
  knows_booleans H ->
  NoDup (var_key <$> vs) ->
  (forall v, v ∈ vs -> var_type v = VariableType.bool ->
     evaluable (var_value v) /\ evaluable (read_var (globalVariables w) (var_key v))) ->
  forEach (load_variable H) vs w
  = Ok (tt, with_globalVariables (fold_left (fun g v => seed v g) vs (globalVariables w)) w).
Proof.
  induction vs as [|v vs IH]; intros w Hhost Hdup Hbool.
  - cbn. unfold ret. by rewrite with_globalVariables_same.
  - cbn [forEach fold_left]. apply NoDup_cons in Hdup as [Hnotin Hdup].
    rewrite (bind_ok _ _ _ _ _ (load_variable_seed H v w Hhost
                                  (Hbool v ltac:(by left)))).
    rewrite IH; [reflexivity|done|done|].
    intros v' Hin Hb. destruct (Hbool v' ltac:(by right) Hb) as [Hd He].
    split; [done|]. cbn [globalVariables with_globalVariables].
    rewrite seed_other; [done|]. intros Hk. apply Hnotin. rewrite <- Hk.
    by apply list_elem_of_fmap_2.
Qed.

Lemma seeded_other vs : forall g k,
  k ∉ (var_key <$> vs) -> read_var (fold_left (fun g v => seed v g) vs g) k = read_var g k.
Proof.
  induction vs as [|v vs IH]; intros g k Hk; [reflexivity|]. cbn [fold_left].
  rewrite fmap_cons in Hk. apply not_elem_of_cons in Hk as [Hne Hk].
  rewrite IH by done. by apply seed_other.
Qed.

Lemma seeded_declared vs : forall g v,
  NoDup (var_key <$> vs) ->
  v ∈ vs ->
  var_type v <> VariableType.separator ->
  read_var (fold_left (fun g v => seed v g) vs g) (var_key v) = kept_or_declared g v.
Proof.
  induction vs as [|v0 vs IH]; intros g v Hdup Hin Hsep; [by apply elem_of_nil in Hin|].
  cbn [fold_left]. rewrite fmap_cons in Hdup. apply NoDup_cons in Hdup as [Hnotin Hdup].
  apply elem_of_cons in Hin as [->|Hin].
  - rewrite seeded_other by done. by apply seed_self.
  - rewrite IH by done. unfold kept_or_declared. rewrite seed_other; [done|].
    intros Hk. apply Hnotin. rewrite <- Hk. by apply list_elem_of_fmap_2.
Qed.

(** *** What the rest of [load] leaves alone *)

Lemma getNode_pure a b w : post (fun _ w' => w' = w) (getNode a b w).
Proof.
  unfold getNode. msimpl. apply post_deref. intros [fi f] _. msimpl. reflexivity.
Qed.

Lemma getNodesByType_pure t w : post (fun _ w' => w' = w) (getNodesByType t w).
Proof.
  unfold getNodesByType. msimpl. apply post_deref. intros [fi f] _. msimpl. reflexivity.
Qed.

Lemma getLocalizedContent_rec_inv (P : World -> Prop) depth : forall o l w,
  content_stable P -> P w -> post (fun _ => P) (getLocalizedContent_rec depth o l w).
Proof.
  induction depth as [|d IH]; intros o l w HP Hw; destruct o as [o|]; try done.
  cbn [getLocalizedContent_rec].
  eapply post_bind with (Q1 := fun _ w' => w' = w).
  { destruct o as [r|i]; cbn [owner_nodeId]; [|reflexivity].
    unfold read_elem. msimpl. apply post_deref. intros e _. msimpl. reflexivity. }
  intros nid w1 ->.
  eapply post_bind; [apply getNode_pure|]. intros node w1 ->. msimpl.
  destruct (_ && _); [by apply IH|].
  apply post_deref. intros cs _.
  apply post_foldM; [done|]. intros content [i lc] w1 Hw1.
  destruct (String.eqb _ _); [|done].
  destruct (_ && _).
  - eapply post_bind; [by apply IH|]. intros c w2 Hw2.
    apply post_deref. intros c' _. unfold write_content. msimpl. by apply HP.
  - unfold write_content. msimpl. by apply HP.
Qed.
Lemma post_deref_here {A} (Q : A -> World -> Prop) (o : option A) w :
  (forall a, o = Some a -> Q a w) -> post Q (deref o w).
Proof. destruct o as [a|]; [|done]. intros Hk. by apply Hk. Qed.

Lemma read_elem_pure r w : post (fun _ w' => w' = w) (read_elem r w).
Proof. unfold read_elem. msimpl. by apply post_deref_here. Qed.

Lemma read_content_pure c w : post (fun _ w' => w' = w) (read_content c w).
Proof. unfold read_content. msimpl. by apply post_deref_here. Qed.

Lemma read_node_pure r w : post (fun _ w' => w' = w) (read_node r w).
Proof. unfold read_node. msimpl. by apply post_deref_here. Qed.

Lemma getLocalizedContent_inv (P : World -> Prop) o l w :
  content_stable P -> P w -> post (fun _ => P) (getLocalizedContent o l w).
Proof.
  intros HP Hw. unfold getLocalizedContent. msimpl. by apply getLocalizedContent_rec_inv.
Qed.

Lemma InitializeVariations_inv (P : World -> Prop) w :
  content_stable P -> registry_stable P -> P w ->
  post (fun _ => P) (InitializeVariations w).
Proof.
  intros Hc Hr Hw. unfold InitializeVariations. msimpl.
  apply post_forEach; [by apply Hr|]. intros r w1 Hw1.
  eapply post_bind; [apply read_elem_pure|]. intros e w2 ->.
  destruct (el_localizedContents e); [done|].
  eapply post_bind; [by apply getLocalizedContent_inv|]. intros c w2 Hw2.
  eapply post_bind with (Q1 := fun _ => P).
  { destruct c as [c|]; [|done].
    eapply post_bind; [apply read_content_pure|]. by intros lc w3 ->. }
  intros text w3 Hw3. apply post_forEach; [done|]. intros block w4 Hw4.
  unfold modify. by apply Hr.
Qed.

Lemma start_inv (P : World -> Prop) a b w :
  cursor_stable P -> P w -> post (fun _ => P) (start a b w).
Proof.
  intros Hc Hw. unfold start.
  eapply post_bind with (Q1 := fun _ w' => w' = w).
  { destruct (falsy_id b); [|reflexivity]. msimpl.
    apply post_deref. intros g _. apply post_deref. by intros [i f] _. }
  intros name w1 ->. msimpl. apply post_deref. intros [i fl] _. msimpl.
  eapply post_bind; [apply getNodesByType_pure|]. intros ns w1 ->.
  eapply post_bind with (Q1 := fun _ w' => w' = with_selectedFlowId (Some (flow_id fl)) w).
  { destruct a; [reflexivity|]. apply post_deref. by intros [r n] _. }
  intros sel w1 ->. msimpl. cbn.
  destruct (Hc w Hw) as [_ Hflow]. by apply Hc.
Qed.

Lemma clear_visited_all p : all_unvisited (clear_visited p).
Proof.
  intros [[fi ni] ei] e. unfold elem_at, node_at, clear_visited. cbn.
  change (List.map ?f ?l) with (f <$> l).
  rewrite list_lookup_fmap. destruct (proj_flows p !! fi) as [f|]; [|done]. cbn.
  change (List.map ?f ?l) with (f <$> l).
  rewrite list_lookup_fmap. destruct (flow_nodes f !! ni) as [n|]; [|done]. cbn.
  change (List.map ?f ?l) with (f <$> l).
  rewrite list_lookup_fmap. destruct (node_elements n !! ei) as [e0|]; [|done]. cbn.
  by intros [= <-].
Qed.

Lemma all_unvisited_content p b c :
  all_unvisited p -> all_unvisited (alter_content (set_notTranslated b) c p).
Proof.
  intros Hall r e. rewrite elem_at_alter_content.
  destruct (elem_at p r) as [e0|] eqn:He; [|done]. cbn. intros [= <-].
  specialize (Hall r e0 He). destruct c.1 as [r0|]; [|done]. by case_decide.
Qed.

(** C3, as the code has it.  When [load] completes, no element is visited
    and the stack of sub-flows is empty.  The local variables are the
    earlier ones: [load] does not clear them.  A declared variable that is
    not a separator holds its earlier value when that value is truthy, and
    the declared value otherwise; for a variable of type bool that value
    has gone through [eval].  The last two hold when the keys are distinct
    and the values given to [eval] are booleans or the strings that spell
    them, which the host evaluates to the booleans. *)
Theorem C3_load (H : Host) (project : Project) (flowName : option string) (w w' : World) :
  load H project flowName w = Ok (tt, w') ->
  all_unvisited (_project w')
  /\ activeSubFlows w' = []
  /\ (knows_booleans H ->
      NoDup (var_key <$> proj_variables project) ->
      (forall v, v ∈ proj_variables project -> var_type v = VariableType.bool ->
         evaluable (var_value v) /\ evaluable (read_var (globalVariables w) (var_key v))) ->
      _localVars w' = _localVars w
      /\ forall v, v ∈ proj_variables project ->
           var_type v <> VariableType.separator ->
           read_var (globalVariables w') (var_key v) = kept_or_declared (globalVariables w) v).
Proof.
  unfold load. msimpl. intros Hload.
  apply bind_inv in Hload as (flow & w1 & Hflow & Hload).
  assert (w1 = with_project project w) as ->.
  { destruct (falsy_id flowName).
    - destruct (head (proj_flows project)); [|discriminate]. by injection Hflow as _ <-.
    - revert Hflow. msimpl. destruct (getFlow flowName _) as [[i fl]|]; [|discriminate].
      by intros [= _ <-]. }
  clear Hflow. revert Hload. msimpl. intros Hload.
  apply bind_inv in Hload as ([] & w2 & Hvars & Hload). revert Hload. msimpl. intros Hload.
  apply bind_inv in Hload as ([] & w3 & Hinit & Hload).
  apply bind_inv in Hload as (sel & w4 & Hstart & Hload).
  unfold modify in Hload. injection Hload as <-.
  set (w2' := with_project (clear_visited (_project w2)) w2) in *.
  set (P := fun x : World =>
              all_unvisited (_project x) /\ globalVariables x = globalVariables w2
              /\ _localVars x = _localVars w2).
  assert (content_stable P) as Hcs.
  { intros x b c (Hx & Hg & Hl). split; [|done]. by apply all_unvisited_content. }
  assert (registry_stable P) as Hrs by (by intros x vs (Hx & Hg & Hl)).
  assert (cursor_stable P) as Hus by (by intros x (Hx & Hg & Hl)).
  assert (P w2') as H2 by (split; [apply clear_visited_all|done]).
  assert (P w3) as H3.
  { destruct (_variations w2').
    - exact (post_ok _ _ _ _ (InitializeVariations_inv P w2' Hcs Hrs H2) Hinit).
    - by injection Hinit as <-. }
  pose proof (post_ok _ _ _ _ (start_inv P _ _ w3 Hus H3) Hstart) as (H4 & Hg4 & Hl4).
  split; [exact H4|]. split; [reflexivity|].
  intros Hhost Hdup Hbool. cbn [_localVars globalVariables with_activeSubFlows].
  rewrite Hg4, Hl4.
  rewrite (load_variables_seed H (proj_variables project) _ Hhost Hdup) in Hvars.
  2:{ exact Hbool. }
  injection Hvars as <-. cbn [_localVars globalVariables with_globalVariables
                              with_locale with_selectedFlowId with_project].
  split; [reflexivity|]. intros v Hin Hsep. by apply seeded_declared.
Qed.

Lemma C3_load_witness :
  all_unvisited (_project Ex.redeclared)
  /\ activeSubFlows Ex.redeclared = []
  /\ _localVars Ex.redeclared = _localVars Ex.played
  /\ forall v, v ∈ proj_variables Ex.declared ->
       var_type v <> VariableType.separator ->
       read_var (globalVariables Ex.redeclared) (var_key v)
       = kept_or_declared (globalVariables Ex.played) v.
Proof.
  assert (load (Ex.host 0) Ex.declared None Ex.played = Ok (tt, Ex.redeclared)) as Hload
    by (vm_compute; reflexivity).
  destruct (C3_load (Ex.host 0) Ex.declared None Ex.played Ex.redeclared Hload)
    as (Hvisited & Hstack & Hvars).
  split; [exact Hvisited|]. split; [exact Hstack|].
  apply Hvars.
  - (intros g l; split; reflexivity).
  - (apply (bool_decide_unpack (NoDup (var_key <$> proj_variables Ex.declared))); vm_compute; exact I).
  - intros v Hv Hb. cbn in Hv.
    repeat (apply elem_of_cons in Hv as [->|Hv]); try discriminate;
      [|by apply elem_of_nil in Hv].
    split; [by left|exact I].
Defined.

(** At this input: the number keeps the 5 of the earlier story, the boolean
    is seeded from its declaration. *)
Example redeclared_values :
  read_var (globalVariables Ex.redeclared) "score" = JS.VNum 5
  /\ read_var (globalVariables Ex.redeclared) "flag" = JS.VBool true
  /\ read_var (_localVars Ex.redeclared) "tmp" = JS.VNum 1.
Proof. repeat split; vm_compute; reflexivity. Qed.

(** A name that [Object.prototype] defines reads as truthy on the empty
    store of the blank page, so [load] seeds nothing under it: the store
    has no such property afterwards and still answers the inherited
    object. *)
Example load_seeds_no_inherited_name :
  let project :=
    Ex.project "en" [Ex.flow "f1" "Main" [Ex.node "start" NodeType.start None [] []]]
      [ {| var_key := "constructor"; var_value := JS.VNum 0;
           var_type := VariableType.int |} ] in
  exists w',
    load (Ex.host 0) project None Ex.blank = Ok (tt, w')
    /\ own (globalVariables w') !! "constructor" = None
    /\ read_var (globalVariables w') "constructor" = Inherited
    /\ kept_or_declared (globalVariables Ex.blank)
         {| var_key := "constructor"; var_value := JS.VNum 0;
            var_type := VariableType.int |} = Inherited.
Proof. eexists. split; [vm_compute; reflexivity|]. repeat split. Qed.


(** ** Choices, once the plain ones are exhausted *)

(** ** The resolver and the templater leave the choices alone *)

Lemma localized_static l e1 e2 :
  static_content <$> el_localizedContents e2 = static_content <$> el_localizedContents e1 ->
  localized l e2 = localized l e1.
Proof.
  unfold localized. generalize (el_localizedContents e1), (el_localizedContents e2).
  intros cs1 cs2 Hs. unfold find_last. generalize 0.
  revert cs2 Hs. induction cs1 as [|c1 cs1 IH]; intros [|c2 cs2] Hs k; try done.
  cbn in Hs. injection Hs as Hl Ht Hs. cbn [find_last_from].
  specialize (IH cs2 Hs (S k)).
  destruct (find_last_from _ (S k) cs2) as [[i2 x2]|], (find_last_from _ (S k) cs1) as [[i1 x1]|];
    try done.
  rewrite Hl.
  destruct (String.eqb (lc_localeCode c1) l); [|done]. cbn. by rewrite Ht.
Qed.

Lemma marked_static l e1 e2 :
  static_content <$> el_localizedContents e2 = static_content <$> el_localizedContents e1 ->
  marked l e2 = marked l e1.
Proof. intros Hs. unfold marked. by rewrite (localized_static l e1 e2 Hs). Qed.

Lemma elem_kept_refl l e : elem_kept l e e.
Proof. unfold elem_kept. naive_solver. Qed.

Lemma elem_kept_trans l e1 e2 e3 : elem_kept l e1 e2 -> elem_kept l e2 e3 -> elem_kept l e1 e3.
Proof.
  intros (Hi & Hn & Ht & Hs & Hv & Hh & Hup & Hdown) (Hi' & Hn' & Ht' & Hs' & Hv' & Hh' & Hup' & Hdown').
  unfold elem_kept. repeat split; try congruence; [naive_solver|].
  intros H3. destruct (Hdown' H3) as [H2|H2]; [naive_solver|].
  right. by rewrite <- (marked_static l e1 e2 Hs).
Qed.

Lemma kept_refl w : kept w w.
Proof.
  split; [done|]. intros r. destruct (elem_at (_project w) r); [apply elem_kept_refl|done].
Qed.

Lemma kept_trans w1 w2 w3 : kept w1 w2 -> kept w2 w3 -> kept w1 w3.
Proof.
  intros [Hl H12] [Hl' H23]. split; [congruence|]. intros r.
  specialize (H12 r). specialize (H23 r). rewrite Hl in H23.
  destruct (elem_at (_project w1) r), (elem_at (_project w2) r), (elem_at (_project w3) r);
    try done. by eapply elem_kept_trans.
Qed.


Lemma static_alter_notTranslated b (k : nat) (cs : list LocalizedContent) :
  static_content <$> alter (set_notTranslated b) k cs = static_content <$> cs.
Proof.
  revert k. induction cs as [|c cs IH]; intros [|k]; cbn; try done. by rewrite IH.
Qed.

Lemma kept_write_content w b c :
  kept w (with_project (alter_content (set_notTranslated b) c (_project w)) w).
Proof.
  split; [done|]. intros r. cbn. rewrite elem_at_alter_content.
  destruct (elem_at (_project w) r) as [e|]; [|done]. cbn.
  destruct c.1 as [r0|i]; [|apply elem_kept_refl].
  case_decide; [|apply elem_kept_refl].
  unfold elem_kept. cbn. rewrite static_alter_notTranslated. naive_solver.
Qed.

(** *** The resolver *)

Lemma offset_imap {A} (k : nat) (x : A) l :
  imap (fun i y => (k + i, y)) (x :: l) = (k, x) :: imap (fun i y => (S k + i, y)) l.
Proof.
  cbn [imap]. rewrite Nat.add_0_r. f_equal. apply imap_ext. intros i y _. cbn. f_equal. lia.
Qed.

(** The loop of the resolver returns the last content of the requested
    locale. *)
Lemma resolver_loop depth o l main cs : forall k acc w,
  post (fun c w' =>
          kept w w'
          /\ c = match find_last_from (fun c => String.eqb (lc_localeCode c) l) k cs with
                 | Some (i, _) => Some (o, i)
                 | None => acc
                 end)
    (foldM (fun content '(i, localizedContent) =>
              if String.eqb (lc_localeCode localizedContent) l then
                if String.eqb (lc_text localizedContent) EmptyString
                   && negated_main_is main l
                then
                  let* c := getLocalizedContent_rec depth (Some o) main in
                  let* c := deref c in
                  write_content (set_notTranslated true) c ;;
                  ret (Some c)
                else
                  write_content (set_notTranslated false) (o, i) ;;
                  ret (Some (o, i))
              else ret content)
       acc (imap (fun i y => (k + i, y)) cs) w).
Proof.
  induction cs as [|c cs IH]; intros k acc w.
  - cbn. split; [apply kept_refl|done].
  - rewrite offset_imap. cbn [foldM find_last_from].
    rewrite negated_main_is_false, andb_false_r.
    destruct (String.eqb (lc_localeCode c) l).
    + unfold write_content. msimpl.
      eapply post_mono; [apply IH|]. intros c' w' [Hk ->]. split.
      * eapply kept_trans; [apply kept_write_content|exact Hk].
      * by destruct (find_last_from _ (S k) cs) as [[i x]|].
    + msimpl. eapply post_mono; [apply IH|]. intros c' w' [Hk ->]. split; [done|].
      by destruct (find_last_from _ (S k) cs) as [[i x]|].
Qed.

Lemma getLocalizedContent_element depth r l w :
  post (fun c w' =>
          kept w w'
          /\ exists e, elem_at (_project w) r = Some e
             /\ c = (fun ic : nat * LocalizedContent => (OfElement r, ic.1))
                      <$> find_last (fun c => String.eqb (lc_localeCode c) l)
                            (el_localizedContents e))
    (getLocalizedContent_rec depth (Some (OfElement r)) l w).
Proof.
  destruct depth as [|d]; [done|]. cbn [getLocalizedContent_rec owner_nodeId].
  eapply post_bind with (Q1 := fun _ w' => w' = w).
  { eapply post_bind; [apply read_elem_pure|]. by intros e w1 ->. }
  intros nid w1 ->. eapply post_bind; [apply getNode_pure|]. intros node w1 ->. msimpl.
  rewrite negated_main_is_false, andb_false_r.
  apply post_deref. intros cs Hcs. cbn [contents_of] in Hcs.
  destruct (elem_at (_project w) r) as [e|] eqn:He; [|done]. injection Hcs as <-.
  eapply post_mono; [apply (resolver_loop d (OfElement r) l _ (el_localizedContents e) 0 None w)|].
  intros c w' [Hk ->]. split; [done|]. exists e. split; [done|].
  unfold find_last. by destruct (find_last_from _ 0 _) as [[i x]|].
Qed.

Lemma read_content_spec c w :
  post (fun lc w' => w' = w /\ content_at (_project w) c = Some lc) (read_content c w).
Proof. unfold read_content. msimpl. by apply post_deref_here. Qed.

Lemma read_elem_spec r w :
  post (fun e w' => w' = w /\ elem_at (_project w) r = Some e) (read_elem r w).
Proof. unfold read_elem. msimpl. by apply post_deref_here. Qed.


(** [content_text] gives the localized text of the element. *)
Lemma content_text_element r loc w :
  post (fun t w' =>
          kept w w'
          /\ exists e, elem_at (_project w) r = Some e
             /\ localized (default (_locale w) loc) e = Some t)
    (content_text (Some (OfElement r)) loc w).
Proof.
  unfold content_text, getLocalizedContent. msimpl.
  eapply post_bind; [apply getLocalizedContent_element|].
  intros c w1 (Hk & e & He & ->).
  apply post_deref. intros [o i] Hc.
  destruct (find_last _ (el_localizedContents e)) as [[j lc]|] eqn:Hlast; [|done].
  injection Hc as <- <-. cbn [fst].
  eapply post_bind; [apply read_content_spec|]. intros lc' w2 [-> Hlc'].
  unfold ret. cbn. split; [done|]. exists e. split; [done|].
  unfold localized. rewrite Hlast. cbn. f_equal.
  destruct Hk as [_ Hk]. specialize (Hk r). rewrite He in Hk.
  unfold content_at in Hlc'. cbn in Hlc'.
  destruct (elem_at (_project w1) r) as [e1|]; [|done]. cbn in Hlc'.
  destruct Hk as (_ & _ & _ & Hs & _).
  apply find_last_Some in Hlast as [_ Hj].
  apply (f_equal (fun cs => cs !! j)) in Hs. rewrite !list_lookup_fmap, Hlc', Hj in Hs.
  cbn in Hs. by injection Hs as _ ->.
Qed.

(** *** The templater *)













(** *** The filter of the choices *)


















Lemma getFlow_lookup o w fi f :
  getFlow o w = Some (fi, f) -> proj_flows (_project w) !! fi = Some f.
Proof.
  unfold getFlow. intros Hf.
  repeat match type of Hf with
         | match ?x with _ => _ end = _ => destruct x as [[]|] eqn:?
         end; simplify_eq; by eapply find_last_Some.
Qed.

Lemma getNode_node_at a b w w' r node :
  getNode a b w = Ok (Some (r, node), w') -> w' = w /\ node_at (_project w) r = Some node.
Proof.
  unfold getNode. msimpl.
  destruct (if falsy_id b then getSelectedFlow w else getFlow b w) as [[fi f]|] eqn:Hfl;
    msimpl; [|discriminate].
  destruct (find_last _ (flow_nodes f)) as [[ni x]|] eqn:Hn; [|discriminate].
  intros [= <- <- <-]. split; [done|].
  apply find_last_Some in Hn as [_ Hn].
  assert (proj_flows (_project w) !! fi = Some f) as Hf.
  { destruct (falsy_id b); [by eapply find_last_Some|by eapply getFlow_lookup]. }
  unfold node_at. cbn. by rewrite Hf.
Qed.






(** ** Determinism of the projects that never draw *)

Lemma agree_refl {A} (Q : A -> World -> Prop) r : post Q r -> agree Q r r.
Proof. by split. Qed.

Lemma agree_bind {A B} (Q1 : A -> World -> Prop) (Q : B -> World -> Prop)
    (m1 m2 : M A) (k1 k2 : A -> M B) w :
  agree Q1 (m1 w) (m2 w) ->
  (forall a w1, Q1 a w1 -> agree Q (k1 a w1) (k2 a w1)) ->
  agree Q (bind m1 k1 w) (bind m2 k2 w).
Proof.
  unfold agree, bind. intros [<- Hm] Hk. destruct (m1 w) as [[a w1]|e]; [|done].
  by apply Hk.
Qed.

(** A step that both runs share, and that leaves the world as it is. *)
Lemma agree_bind_pure {A B} (Q : B -> World -> Prop) (m : M A) (k1 k2 : A -> M B) w :
  post (fun _ w' => w' = w) (m w) ->
  (forall a, m w = Ok (a, w) -> agree Q (k1 a w) (k2 a w)) ->
  agree Q (bind m k1 w) (bind m k2 w).
Proof.
  unfold agree, bind, post. destruct (m w) as [[a w1]|e]; [|done]. intros -> Hk.
  by apply Hk.
Qed.

Lemma agree_deref {A B} (Q : B -> World -> Prop) (o : option A) (k1 k2 : A -> M B) w :
  (forall a, o = Some a -> agree Q (k1 a w) (k2 a w)) ->
  agree Q (bind (deref o) k1 w) (bind (deref o) k2 w).
Proof. destruct o as [a|]; [|done]. intros Hk. by apply Hk. Qed.

Lemma agree_foldM {A B} (I : World -> Prop) (f1 f2 : A -> B -> M A) l : forall a w,
  I w ->
  (forall a x w, I w -> agree (fun _ => I) (f1 a x w) (f2 a x w)) ->
  agree (fun _ => I) (foldM f1 a l w) (foldM f2 a l w).
Proof.
  induction l as [|x l IH]; intros a w Hw Hf; cbn [foldM]; [by apply agree_refl|].
  eapply agree_bind; [by apply Hf|]. intros a1 w1 H1. by apply IH.
Qed.

Lemma agree_forEach {A} (I : World -> Prop) (f1 f2 : A -> M unit) l : forall w,
  I w ->
  (forall x w, I w -> agree (fun _ => I) (f1 x w) (f2 x w)) ->
  agree (fun _ => I) (forEach f1 l w) (forEach f2 l w).
Proof.
  induction l as [|x l IH]; intros w Hw Hf; cbn [forEach]; [by apply agree_refl|].
  eapply agree_bind; [by apply Hf|]. intros a1 w1 H1. by apply IH.
Qed.

Lemma agree_filterM {A} (I : World -> Prop) (f1 f2 : A -> M bool) l : forall w,
  I w ->
  (forall x w, I w -> agree (fun _ => I) (f1 x w) (f2 x w)) ->
  agree (fun _ => I) (filterM f1 l w) (filterM f2 l w).
Proof.
  induction l as [|x l IH]; intros w Hw Hf; cbn [filterM]; [by apply agree_refl|].
  eapply agree_bind; [by apply Hf|]. intros keep w1 H1.
  eapply agree_bind; [by apply IH|]. intros rest w2 H2. by apply agree_refl.
Qed.

(** *** What the writes leave of a quiet project *)

Lemma forallb_alter {A} (p : A -> bool) (g : A -> A) i (l : list A) :
  (forall x, p x = true -> p (g x) = true) ->
  forallb p l = true -> forallb p (alter g i l) = true.
Proof.
  intros Hg. revert i. induction l as [|x l IH]; intros i; [done|].
  cbn [forallb]. intros [Hx Hl]%andb_true_iff.
  destruct i as [|i]; cbn; apply andb_true_iff; auto.
Qed.

Lemma forallb_lookup {A} (p : A -> bool) (l : list A) i x :
  forallb p l = true -> l !! i = Some x -> p x = true.
Proof.
  intros Hl Hx. rewrite forallb_forall in Hl. apply Hl.
  apply list_elem_of_In. by eapply list_elem_of_lookup_2.
Qed.

Lemma quiet_project_alter_node g r p :
  (forall n, quiet_node n = true -> quiet_node (g n) = true) ->
  quiet_project p = true -> quiet_project (alter_node g r p) = true.
Proof.
  intros Hg. unfold quiet_project, alter_node. cbn. apply forallb_alter.
  intros f. cbn. by apply forallb_alter.
Qed.

Lemma quiet_project_alter_elem g r p :
  (forall e, quiet_element e = true -> quiet_element (g e) = true) ->
  quiet_project p = true -> quiet_project (alter_elem g r p) = true.
Proof.
  intros Hg. apply quiet_project_alter_node. intros n. unfold quiet_node.
  intros [Hk Hes]%andb_true_iff. apply andb_true_iff. split; [exact Hk|].
  cbn. by apply forallb_alter.
Qed.

Lemma quiet_project_alter_content b c p :
  quiet_project p = true ->
  quiet_project (alter_content (set_notTranslated b) c p) = true.
Proof.
  unfold alter_content. destruct c.1 as [r|i]; [|done].
  apply quiet_project_alter_elem. intros e. unfold quiet_element. cbn.
  by apply forallb_alter.
Qed.

Lemma quiet_node_at p r n :
  quiet_project p = true -> node_at p r = Some n -> quiet_node n = true.
Proof.
  unfold node_at. intros Hp Hn.
  destruct (proj_flows p !! r.1) as [f|] eqn:Hf; [|done]. cbn in Hn.
  eapply forallb_lookup; [|exact Hn].
  by apply (forallb_lookup _ _ _ _ Hp Hf).
Qed.

Lemma quiet_elem_at p r e :
  quiet_project p = true -> elem_at p r = Some e -> quiet_element e = true.
Proof.
  unfold elem_at. intros Hp He.
  destruct (node_at p r.1) as [n|] eqn:Hn; [|done]. cbn in He.
  apply (quiet_node_at _ _ _ Hp) in Hn. apply andb_true_iff in Hn as [_ Hes].
  by eapply forallb_lookup.
Qed.

Lemma quiet_write_elem g r w :
  (forall e, el_localizedContents (g e) = el_localizedContents e) ->
  quiet w -> quiet (with_project (alter_elem g r (_project w)) w).
Proof.
  intros Hg [Hp Hv]. split; [|done]. cbn. apply quiet_project_alter_elem; [|done].
  intros e. unfold quiet_element. by rewrite Hg.
Qed.

Lemma quiet_write_node g r w :
  (forall n, quiet_node n = true -> quiet_node (g n) = true) ->
  quiet w -> quiet (with_project (alter_node g r (_project w)) w).
Proof. intros Hg [Hp Hv]. split; [|done]. cbn. by apply quiet_project_alter_node. Qed.

Lemma quiet_content_stable : content_stable quiet.
Proof. intros w b c [Hp Hv]. split; [|done]. cbn. by apply quiet_project_alter_content. Qed.

Lemma quiet_cursor_stable : cursor_stable quiet.
Proof. intros w Hw. split; intros i; exact Hw. Qed.

Lemma quiet_reset_visited r w : quiet w -> post (fun _ => quiet) (reset_visited r w).
Proof.
  intros Hw. unfold reset_visited, write_node, modify. cbn.
  apply quiet_write_node; [|done]. intros n. unfold quiet_node.
  intros [Hk Hes]%andb_true_iff. apply andb_true_iff. split; [exact Hk|]. cbn.
  rewrite forallb_forall in Hes. apply forallb_forall. intros e He.
  apply in_map_iff in He as (e0 & <- & He0). exact (Hes e0 He0).
Qed.

Lemma quiet_visit r i w : quiet w -> post (fun _ => quiet) (visit r i w).
Proof.
  intros Hw. unfold visit. apply post_deref. intros k _. unfold write_elem. msimpl.
  unfold ret. cbn. by apply quiet_write_elem.
Qed.

Lemma getNode_quiet a b w o :
  quiet w -> getNode a b w = Ok (o, w) ->
  match o with Some (_, n) => quiet_node n = true | None => True end.
Proof.
  intros [Hp _] Hn. destruct o as [[r n]|]; [|done].
  apply getNode_node_at in Hn as [_ Hat]. by eapply quiet_node_at.
Qed.

Lemma content_text_quiet o l w : quiet w -> post (fun _ => quiet) (content_text o l w).
Proof.
  intros Hw. unfold content_text.
  eapply post_bind; [apply getLocalizedContent_inv;
                     [apply quiet_content_stable|exact Hw]|].
  intros c w1 Hw1. apply post_deref. intros c1 _.
  eapply post_bind; [apply read_content_pure|]. by intros lc w2 ->.
Qed.

Lemma post_conj {A} (Q1 Q2 : A -> World -> Prop) r :
  post Q1 r -> post Q2 r -> post (fun a w => Q1 a w /\ Q2 a w) r.
Proof. unfold post. by destruct r as [[a w]|e]. Qed.

Lemma post_forEach_in {A} (P : World -> Prop) (f : A -> M unit) l w :
  P w -> (forall x w, x ∈ l -> P w -> post (fun _ => P) (f x w)) ->
  post (fun _ => P) (forEach f l w).
Proof.
  intros Hw Hf. revert w Hw. induction l as [|x l IH]; intros w Hw; cbn [forEach].
  - exact Hw.
  - eapply post_bind; [apply Hf; [by left|done]|]. intros [] w1 Hw1.
    apply IH; [|done]. intros y w2 Hy. apply Hf. by right.
Qed.

Lemma quiet_project_clear_visited p :
  quiet_project p = true -> quiet_project (clear_visited p) = true.
Proof.
  unfold quiet_project, clear_visited. cbn. rewrite !forallb_forall.
  intros Hp f [f0 [<- Hf0]]%in_map_iff. cbn. specialize (Hp f0 Hf0).
  rewrite forallb_forall in Hp. apply forallb_forall.
  intros n [n0 [<- Hn0]]%in_map_iff. specialize (Hp n0 Hn0). unfold quiet_node in *.
  apply andb_true_iff in Hp as [Hk Hes]. apply andb_true_iff. split; [exact Hk|]. cbn.
  rewrite forallb_forall in Hes. apply forallb_forall.
  intros e [e0 [<- He0]]%in_map_iff. exact (Hes e0 He0).
Qed.

Lemma quiet_content_at p r i lc :
  quiet_project p = true -> content_at p (OfElement r, i) = Some lc ->
  quiet_text (lc_text lc) = true.
Proof.
  unfold content_at. cbn. intros Hp Hlc.
  destruct (elem_at p r) as [e|] eqn:He; [|done]. cbn in Hlc.
  apply (quiet_elem_at _ _ _ Hp) in He.
  by apply (forallb_lookup _ _ _ _ He Hlc).
Qed.

(** The registry built at load holds the types of the blocks of the
    contents: none that draws. *)
Lemma InitializeVariations_quiet w :
  quiet_project (_project w) = true -> post (fun _ => quiet) (InitializeVariations w).
Proof.
  intros Hp. unfold InitializeVariations. msimpl.
  apply post_forEach; [by split|]. intros r w1 Hw1.
  eapply post_bind; [apply read_elem_pure|]. intros e w2 ->.
  destruct (el_localizedContents e); [done|].
  unfold getLocalizedContent. msimpl.
  eapply post_bind.
  { apply post_conj; [apply (getLocalizedContent_rec_inv quiet);
                      [apply quiet_content_stable|exact Hw1]
                     |apply getLocalizedContent_element]. }
  intros c w2 (Hw2 & _ & e' & _ & ->).
  eapply post_bind with (Q1 := fun content w' => quiet w' /\ quiet_text content = true).
  { destruct (find_last _ _) as [[i lc0]|]; cbn [fmap option_fmap option_map].
    - eapply post_bind; [apply read_content_spec|]. intros lc w3 [-> Hlc].
      split; [done|]. destruct Hw2 as [Hp2 _]. by eapply quiet_content_at.
    - by split. }
  intros content w3 [Hw3 Hq].
  apply post_forEach_in; [done|]. intros variation w4 Hin [Hp4 Hv4].
  split; [done|]. cbn. rewrite forallb_app, Hv4. cbn. rewrite andb_true_r.
  unfold quiet_text in Hq. rewrite forallb_forall in Hq. apply Hq.
  by apply list_elem_of_In.
Qed.

Lemma filter_from_lookup {A} (p : A -> bool) (l : list A) : forall s i k x,
  filter_from p s l !! i = Some (k, x) -> s <= k /\ l !! (k - s) = Some x.
Proof.
  induction l as [|y l IH]; intros s i k x; cbn [filter_from]; [done|].
  assert (forall j, filter_from p (S s) l !! j = Some (k, x) ->
                    s <= k /\ (y :: l) !! (k - s) = Some x) as Hrec.
  { intros j Hj. apply IH in Hj as [Hle Hl]. split; [lia|].
    by replace (k - s) with (S (k - S s)) by lia. }
  destruct (p y); [|apply Hrec].
  destruct i as [|i]; [|apply Hrec]. cbn. intros [= -> ->]. split; [lia|].
  by rewrite Nat.sub_diag.
Qed.

Lemma quiet_registry_lookup w i k v elementId :
  quiet w -> getElementVariations elementId w !! i = Some (k, v) ->
  random_type (vn_type v) = false.
Proof.
  intros [_ Hv] Hl. apply filter_from_lookup in Hl as [_ Hl].
  apply (forallb_lookup _ _ _ _ Hv) in Hl. by apply negb_true_iff in Hl.
Qed.

Lemma quiet_write_values k vs w : quiet w -> post (fun _ => quiet) (write_values k vs w).
Proof.
  intros [Hp Hv]. unfold write_values, modify. split; [done|]. cbn.
  by apply forallb_alter.
Qed.

Section Determinism.

Context (H1 H2 : Host).
Hypothesis same_eval : js_eval H1 = js_eval H2.
Hypothesis same_dom : dom_text H1 = dom_text H2.

Lemma try_eval_agree code w :
  quiet w -> agree (fun _ => quiet) (try_eval H1 code w) (try_eval H2 code w).
Proof.
  intros Hw. unfold try_eval. rewrite same_eval. apply agree_refl. exact Hw.
Qed.

Lemma eval_agree code w :
  quiet w -> agree (fun _ => quiet) (eval H1 code w) (eval H2 code w).
Proof.
  intros Hw. unfold eval. eapply agree_bind; [by apply try_eval_agree|].
  intros [v|] w1 Hw1; by apply agree_refl.
Qed.

Lemma getOriginalText_agree element cleaned resolveVariables localeCode w :
  quiet w ->
  agree (fun _ => quiet)
    (getOriginalText H1 element cleaned resolveVariables localeCode w)
    (getOriginalText H2 element cleaned resolveVariables localeCode w).
Proof.
  intros Hw. unfold getOriginalText.
  eapply agree_bind; [by apply agree_refl, content_text_quiet|].
  intros t w1 Hw1. rewrite same_dom. by apply agree_refl.
Qed.

Lemma variationContent_agree k v variations w :
  quiet w -> random_type (vn_type v) = false ->
  agree (fun _ => quiet) (variationContent H1 k v variations w)
    (variationContent H2 k v variations w).
Proof.
  intros Hw Hv. unfold variationContent, random_type in *.
  apply orb_false_iff in Hv as [-> ->].
  destruct (String.eqb (vn_type v) "LIST").
  { eapply agree_bind; [by apply agree_refl, quiet_write_values|].
    intros [] w1 Hw1. by apply agree_refl. }
  destruct (String.eqb (vn_type v) "LOOP").
  { eapply agree_bind; [by apply agree_refl, quiet_write_values|].
    intros [] w1 Hw1. by apply agree_refl. }
  by apply agree_refl.
Qed.

Lemma variation_step_agree elementId acc variation w :
  quiet w ->
  agree (fun _ => quiet) (variation_step H1 elementId acc variation w)
    (variation_step H2 elementId acc variation w).
Proof.
  intros Hw. unfold variation_step. destruct acc as [output idx]. msimpl.
  apply agree_deref. intros [k v] Hkv.
  eapply agree_bind.
  { apply variationContent_agree; [done|]. by eapply quiet_registry_lookup. }
  intros c w1 Hw1. by apply agree_refl.
Qed.

Lemma conditional_step_agree output inside w :
  quiet w ->
  agree (fun _ => quiet) (conditional_step H1 output inside w)
    (conditional_step H2 output inside w).
Proof.
  intros Hw. unfold conditional_step. cbv zeta.
  apply agree_deref. intros second _.
  eapply agree_bind; [by apply try_eval_agree|]. intros result w1 Hw1.
  eapply agree_bind with (Q1 := fun _ => quiet); [|intros p w2 Hw2; by apply agree_refl].
  apply agree_refl. destruct result as [v|]; [|done].
  destruct (JS.not_nullish v); [|done].
  by destruct (JS.match_quoted _).
Qed.

Lemma variable_step_agree type force_eval output block w :
  quiet w ->
  agree (fun _ => quiet) (variable_step H1 type force_eval output block w)
    (variable_step H2 type force_eval output block w).
Proof.
  intros Hw. unfold variable_step. rewrite same_dom. cbv zeta.
  set (gs := JS.findGlobalVariables _). set (ls := JS.findLocalVariables _).
  assert (forall (k1 k2 : M string),
            (agree (fun _ => quiet) (k1 w) (k2 w)) ->
            agree (fun _ => quiet)
              (match gs, ls with [], [] => ret output | _, _ => k1 end w)
              (match gs, ls with [], [] => ret output | _, _ => k2 end w)) as Hcase.
  { intros k1 k2 Hk. destruct gs, ls; try exact Hk. by apply agree_refl. }
  apply Hcase.
  eapply agree_bind with (Q1 := fun _ => quiet).
  { destruct (_ || _); [|by apply agree_refl].
    eapply agree_bind; [by apply try_eval_agree|]. intros r w1 Hw1. by apply agree_refl. }
  intros evaluated w1 Hw1. apply agree_refl. by destruct (_ || _).
Qed.

Lemma parsedText_agree element force_eval w :
  quiet w ->
  agree (fun _ => quiet) (parsedText H1 element force_eval w)
    (parsedText H2 element force_eval w).
Proof.
  intros Hw. unfold parsedText. destruct element as [r|]; [|by apply agree_refl].
  eapply agree_bind; [by apply agree_refl, content_text_quiet|]. intros content w1 Hw1.
  apply agree_bind_pure; [apply read_elem_pure|]. intros el _.
  eapply agree_bind with (Q1 := fun _ => quiet).
  { apply agree_foldM; [done|]. intros a x w2 Hw2. by apply variation_step_agree. }
  intros [output idx] w2 Hw2.
  eapply agree_bind with (Q1 := fun _ => quiet).
  { apply agree_foldM; [done|]. intros a x w3 Hw3. by apply conditional_step_agree. }
  intros output1 w3 Hw3. cbv zeta.
  eapply agree_bind with (Q1 := fun _ => quiet).
  { apply agree_refl. apply post_forEach; [done|]. intros x w4 Hw4.
    unfold write_elem, modify. by apply quiet_write_elem. }
  intros [] w4 Hw4.
  eapply agree_bind with (Q1 := fun _ => quiet).
  { apply agree_refl. apply post_forEach; [done|]. intros x w5 Hw5.
    unfold write_elem, modify. by apply quiet_write_elem. }
  intros [] w5 Hw5.
  eapply agree_bind with (Q1 := fun _ => quiet).
  { apply agree_foldM; [done|]. intros a x w6 Hw6. by apply variable_step_agree. }
  intros output2 w6 Hw6. by apply agree_refl.
Qed.

Lemma getAvailableNodeElement_agree nodeId w :
  quiet w ->
  agree (fun _ => quiet) (getAvailableNodeElement H1 nodeId w)
    (getAvailableNodeElement H2 nodeId w).
Proof.
  intros Hw. unfold getAvailableNodeElement.
  apply agree_bind_pure; [apply getNode_pure|]. intros n Hn.
  apply agree_deref. intros [r node] ->. cbv zeta.
  pose proof (getNode_quiet _ _ _ _ Hw Hn) as Hq. cbn in Hq.
  apply andb_true_iff in Hq as [Hq _]. unfold quiet_kind in Hq.
  destruct (node_type node); try (by apply agree_refl).
  destruct (node_cycleType node) as [[]|]; try discriminate.
  - by apply agree_refl, quiet_visit.
  - apply agree_refl.
    eapply post_bind with (Q1 := fun _ => quiet).
    { destruct (filter_idx _ _); [by apply quiet_reset_visited|done]. }
    intros [] w1 Hw1. by apply quiet_visit.
  - by apply agree_refl.
Qed.

Lemma getParsedText_agree element force_eval w :
  quiet w ->
  agree (fun _ => quiet) (getParsedText H1 element force_eval w)
    (getParsedText H2 element force_eval w).
Proof.
  intros Hw. unfold getParsedText.
  eapply agree_bind with (Q1 := fun _ => quiet).
  { destruct element; [by apply agree_refl|by apply getAvailableNodeElement_agree]. }
  intros e w1 Hw1. eapply agree_bind; [by apply parsedText_agree|].
  intros t w2 Hw2. by apply agree_refl.
Qed.

Lemma choice_filter_agree r w :
  quiet w -> agree (fun _ => quiet) (choice_filter H1 r w) (choice_filter H2 r w).
Proof.
  intros Hw. unfold choice_filter.
  eapply agree_bind; [by apply getOriginalText_agree|]. intros content w1 Hw1. cbv zeta.
  apply agree_bind_pure; [apply read_elem_pure|]. intros e _.
  eapply agree_bind with (Q1 := fun _ => quiet).
  { destruct (_ || _); [|by apply agree_refl].
    eapply agree_bind; [by apply parsedText_agree|]. intros text w2 Hw2.
    apply agree_bind_pure; [apply read_elem_pure|]. intros e2 _.
    apply agree_refl. destruct (_ && _).
    - unfold write_elem, modify. by apply quiet_write_elem.
    - destruct (_ && _); [|done]. unfold write_elem, modify. by apply quiet_write_elem. }
  intros [] w2 Hw2.
  eapply agree_bind with (Q1 := fun _ => quiet).
  { apply agree_refl. destruct (JS.match_ifNoMore content); [done|].
    unfold write_elem, modify. by apply quiet_write_elem. }
  intros [] w3 Hw3. apply agree_refl.
  eapply post_bind; [apply read_elem_pure|]. by intros e3 w4 ->.
Qed.

Lemma getAvailableChoices_agree nodeId w :
  quiet w ->
  agree (fun _ => quiet) (getAvailableChoices H1 nodeId w) (getAvailableChoices H2 nodeId w).
Proof.
  intros Hw. unfold getAvailableChoices.
  apply agree_bind_pure; [apply getNode_pure|]. intros n Hn.
  apply agree_deref. intros [r node] ->.
  eapply agree_bind with (Q1 := fun _ => quiet).
  { apply agree_filterM; [done|]. intros x w1 Hw1. by apply choice_filter_agree. }
  intros avail w1 Hw1. apply agree_refl. destruct avail; [|done].
  eapply post_bind; [apply read_node_pure|]. by intros n1 w2 ->.
Qed.

Lemma condition_step_agree r node held ie w :
  quiet w ->
  agree (fun _ => quiet) (condition_step H1 r node held ie w)
    (condition_step H2 r node held ie w).
Proof.
  intros Hw. unfold condition_step.
  eapply agree_bind; [by apply getOriginalText_agree|]. intros condition w1 Hw1.
  eapply agree_bind; [by apply eval_agree|]. intros result w2 Hw2. by apply agree_refl.
Qed.

Lemma getAvailableConnections_agree elementId w :
  quiet w ->
  agree (fun _ => quiet) (getAvailableConnections H1 elementId w)
    (getAvailableConnections H2 elementId w).
Proof.
  intros Hw. unfold getAvailableConnections.
  apply agree_bind_pure; [apply getNode_pure|]. intros n Hn.
  apply agree_deref. intros [r node] ->. cbv zeta.
  pose proof (getNode_quiet _ _ _ _ Hw Hn) as Hq. cbn in Hq.
  apply andb_true_iff in Hq as [Hq _]. unfold quiet_kind in Hq.
  destruct (node_type node); try discriminate; try (by apply agree_refl).
  - (* variables *)
    eapply agree_bind with (Q1 := fun _ => quiet); [|intros [] w1 Hw1; by apply agree_refl].
    apply agree_forEach; [done|]. intros i w1 Hw1.
    eapply agree_bind; [by apply parsedText_agree|]. intros t w2 Hw2. by apply agree_refl.
  - (* condition *)
    eapply agree_bind with (Q1 := fun _ => quiet); [|intros c w1 Hw1; by apply agree_refl].
    apply agree_foldM; [done|]. intros a x w1 Hw1. by apply condition_step_agree.
  - (* sequence *)
    destruct (node_cycleType node) as [[]|]; try discriminate; apply agree_refl; [| |done].
    + destruct (filter_idx _ _) as [|[i e] rest].
      * destruct (getFailedConnection node); [done|]. apply post_deref. by intros e _.
      * unfold write_elem. msimpl. unfold ret. cbn. by apply quiet_write_elem.
    + destruct (filter_idx _ _) as [|[i e] rest].
      * eapply post_bind; [by apply quiet_reset_visited|]. by intros [] w1 Hw1.
      * unfold write_elem. msimpl. unfold ret. cbn. by apply quiet_write_elem.
  - (* jump *)
    apply agree_refl. apply post_deref. intros j _. msimpl. exact Hw.
  - (* sub-flow *)
    apply agree_refl. destruct (node_connections node); [done|]. msimpl.
    destruct (List.filter _ (activeSubFlows w)).
    + destruct (List.filter _ _); [done|]. msimpl. exact Hw.
    + msimpl. exact Hw.
Qed.

Lemma getNodeElement_pure nodeId elementId w :
  post (fun _ w' => w' = w) (getNodeElement nodeId elementId w).
Proof.
  unfold getNodeElement. eapply post_bind; [apply getNode_pure|]. intros n w1 ->.
  apply post_deref. by intros [r node] _.
Qed.

Lemma startNodeId_pure w : post (fun _ w' => w' = w) (startNodeId w).
Proof.
  unfold startNodeId. eapply post_bind; [apply getNodesByType_pure|]. intros ns w1 ->.
  apply post_deref. by intros [r n] _.
Qed.

Lemma enter_target_quiet currentNode w :
  quiet w -> post (fun _ => quiet) (enter_target currentNode w).
Proof.
  intros Hw. unfold enter_target. msimpl.
  eapply post_bind; [apply getNode_pure|]. intros t w1 ->.
  apply post_deref. intros [tr targetNode] _. unfold write_node. msimpl. unfold ret. cbn.
  by apply quiet_write_node.
Qed.

Lemma arrive_agree currentNode w :
  quiet w -> agree (fun _ => quiet) (arrive H1 currentNode w) (arrive H2 currentNode w).
Proof.
  intros Hw. unfold arrive.
  eapply agree_bind; [by apply agree_refl, enter_target_quiet|].
  intros [tr targetNode] w1 Hw1.
  eapply agree_bind with (Q1 := fun _ => quiet).
  { destruct (same _ _); [|by apply agree_refl].
    eapply agree_bind; [by apply getAvailableChoices_agree|]. intros avail w2 Hw2.
    apply agree_refl. destruct avail; [|done].
    destruct (getFailedConnection targetNode); [|done]. msimpl.
    eapply post_bind; [by apply enter_target_quiet|]. by intros x w3 Hw3. }
  intros exhausted w2 Hw2. apply agree_refl. destruct exhausted; [done|]. msimpl.
  by destruct (passes_through _).
Qed.

Lemma depart_agree elementId w :
  quiet w -> agree (fun _ => quiet) (depart H1 elementId w) (depart H2 elementId w).
Proof.
  intros Hw. unfold depart. msimpl.
  destruct (same (_selectedNodeId w) _); [by apply agree_refl|].
  eapply agree_bind with (Q1 := fun _ => quiet).
  { apply agree_refl. destruct (_selectedNodeId w); [done|].
    eapply post_bind; [apply startNodeId_pure|]. by intros i w1 ->. }
  intros [] w1 Hw1. msimpl.
  apply agree_bind_pure; [apply getNode_pure|]. intros c Hc.
  apply agree_deref. intros [cr currentNode] ->.
  apply agree_bind_pure; [apply getNodeElement_pure|]. intros nodeElement _.
  eapply agree_bind; [by apply getAvailableConnections_agree|]. intros connection w2 Hw2.
  cbv zeta. msimpl.
  eapply agree_bind with (Q1 := fun _ => quiet).
  { destruct (_ && _).
    - eapply agree_bind with (Q1 := fun _ => quiet).
      { apply agree_refl. destruct nodeElement as [er|]; [|done].
        eapply post_bind; [apply read_elem_pure|]. intros e w3 ->.
        destruct (el_justOnce e); [|done]. unfold write_elem, modify.
        by apply quiet_write_elem. }
      intros [] w3 Hw3. eapply agree_bind; [by apply getParsedText_agree|].
      intros t w4 Hw4. by apply agree_refl.
    - apply agree_refl. destruct (same _ _).
      + apply post_deref. intros j _. msimpl. by destruct (negb _).
      + destruct nodeElement as [er|]; [|done]. unfold write_elem. msimpl.
        unfold ret. cbn. by apply quiet_write_elem. }
  intros unset w3 Hw3. apply agree_refl. destruct unset; [done|]. msimpl.
  destruct (_ && _).
  - destruct (activeSubFlows w3) as [|subFlow rest]; [by msimpl|].
    eapply post_bind with (Q1 := fun _ => quiet).
    { destruct (negb _); [|done].
      eapply post_bind; [apply start_inv; [apply quiet_cursor_stable|done]|].
      by intros x w4 Hw4. }
    intros [] w4 Hw4. by msimpl.
  - by destruct (negb _).
Qed.

Lemma nextNode_step_agree elementId w :
  quiet w ->
  agree (fun _ => quiet) (nextNode_step H1 elementId w) (nextNode_step H2 elementId w).
Proof.
  intros Hw. unfold nextNode_step.
  eapply agree_bind; [by apply depart_agree|]. intros [s|currentNode] w1 Hw1.
  - by apply agree_refl.
  - by apply arrive_agree.
Qed.

Lemma nextNode_rec_agree depth : forall elementId w,
  quiet w ->
  agree (fun _ => quiet) (nextNode_rec H1 depth elementId w)
    (nextNode_rec H2 depth elementId w).
Proof.
  induction depth as [|d IH]; intros elementId w Hw; cbn [nextNode_rec].
  - by apply agree_refl.
  - eapply agree_bind; [by apply nextNode_step_agree|]. intros [o|] w1 Hw1.
    + by apply agree_refl.
    + by apply IH.
Qed.

Lemma perform_agree c w :
  quiet w -> agree (fun _ => quiet) (perform H1 c w) (perform H2 c w).
Proof.
  intros Hw. destruct c as [elementId|element force_eval|nodeId]; cbn [perform].
  - eapply agree_bind; [by apply nextNode_rec_agree|]. intros o w1 Hw1. by apply agree_refl.
  - eapply agree_bind; [by apply getParsedText_agree|]. intros o w1 Hw1. by apply agree_refl.
  - eapply agree_bind; [by apply getAvailableChoices_agree|]. intros o w1 Hw1.
    by apply agree_refl.
Qed.

Lemma perform_all_agree cs : forall w,
  quiet w -> agree (fun _ => quiet) (perform_all H1 cs w) (perform_all H2 cs w).
Proof.
  induction cs as [|c cs IH]; intros w Hw; cbn [perform_all]; [by apply agree_refl|].
  eapply agree_bind; [by apply perform_agree|]. intros a w1 Hw1.
  eapply agree_bind; [by apply IH|]. intros rest w2 Hw2. by apply agree_refl.
Qed.

Lemma eval_value_agree v w :
  quiet w -> agree (fun _ => quiet) (eval_value H1 v w) (eval_value H2 v w).
Proof.
  intros Hw. destruct v as [[| | | |code]|]; cbn [eval_value]; try (by apply agree_refl).
  eapply agree_bind; [by apply eval_agree|]. intros x w1 Hw1. by apply agree_refl.
Qed.

Lemma load_variable_agree variable w :
  quiet w ->
  agree (fun _ => quiet) (load_variable H1 variable w) (load_variable H2 variable w).
Proof.
  intros Hw. unfold load_variable. msimpl.
  eapply agree_bind with (Q1 := fun _ => quiet).
  { apply agree_refl. by destruct (_ && _). }
  intros [] w1 Hw1. destruct (same _ _); [|by apply agree_refl]. msimpl.
  eapply agree_bind; [by apply eval_value_agree|]. intros v w2 Hw2. by apply agree_refl.
Qed.

Lemma load_agree project flowName w :
  quiet_project project = true -> quiet w ->
  agree (fun _ => quiet) (load H1 project flowName w) (load H2 project flowName w).
Proof.
  intros Hp [_ Hv]. unfold load. msimpl.
  assert (quiet (with_project project w)) as Hw by (by split).
  eapply agree_bind with (Q1 := fun _ w' => w' = with_project project w).
  { apply agree_refl. destruct (falsy_id flowName).
    - by apply post_deref_here.
    - apply post_deref. by intros [i f] _. }
  intros flow w1 ->. msimpl.
  eapply agree_bind with (Q1 := fun _ => quiet).
  { apply agree_forEach; [exact Hw|]. intros x w1 Hw1. by apply load_variable_agree. }
  intros [] w1 Hw1. msimpl. apply agree_refl.
  assert (quiet (with_project (clear_visited (_project w1)) w1)) as Hw2.
  { destruct Hw1 as [Hp1 Hv1]. split; [|done]. by apply quiet_project_clear_visited. }
  eapply post_bind with (Q1 := fun _ => quiet).
  { destruct (_variations (with_project _ w1)); [|done].
    apply InitializeVariations_quiet. by destruct Hw2. }
  intros [] w2 Hw3.
  eapply post_bind; [apply start_inv; [apply quiet_cursor_stable|done]|].
  by intros x w3 Hw4.
Qed.

Lemma new_HomerParser_agree project flowName w :
  quiet_project project = true ->
  agree (fun _ => quiet) (new_HomerParser H1 project flowName w)
    (new_HomerParser H2 project flowName w).
Proof.
  intros Hp. unfold new_HomerParser. msimpl. apply load_agree; [done|]. by split.
Qed.

Lemma run_agree project cs w :
  quiet_project project = true -> run H1 project cs w = run H2 project cs w.
Proof.
  intros Hp. unfold run. f_equal.
  eapply agree_bind; [by apply new_HomerParser_agree|].
  intros [] w1 Hw1. by apply perform_all_agree.
Qed.

End Determinism.

(** C4, as the code has it.  On a project that never draws -- no variation block
    of type RND or SRND, no node of type random, no text or sequence node
    whose cycle type is random or smart random -- two runs, each a newly
    constructed runtime that loads the project and is given the same calls,
    hand back the same nodes, texts and choices, whatever [Math.random]
    gives to each, provided that they start from the same page (the same
    static stores) and that [eval] and the DOM behave alike in both. *)
Theorem C4_quiet_runs_agree (H1 H2 : Host) project calls w :
  js_eval H1 = js_eval H2 ->
  dom_text H1 = dom_text H2 ->
  quiet_project project = true ->
  run H1 project calls w = run H2 project calls w.
Proof. intros Heval Hdom Hp. by apply run_agree. Qed.

Lemma C4_quiet_runs_agree_witness :
  run (Ex.host 0) Ex.counter Ex.two_texts Ex.blank
  = run (Ex.host 1) Ex.counter Ex.two_texts Ex.blank.
Proof.
  apply C4_quiet_runs_agree; [reflexivity|reflexivity|vm_compute; reflexivity].
Defined.


(** * Further properties of the code *)

(** ** Lookups *)

Lemma find_last_from_None {A} (p : A -> bool) (l : list A) s :
  find_last_from p s l = None <-> forall x, x ∈ l -> p x = false.
Proof.
  revert s. induction l as [|y l IH]; intros s; cbn [find_last_from].
  - split; [|done]. intros _ x Hx. by apply elem_of_nil in Hx.
  - destruct (find_last_from p (S s) l) as [r|] eqn:E.
    + split; [done|]. intros Hall.
      assert (find_last_from p (S s) l = None) as E' by (apply (proj2 (IH _)); intros x Hx; apply Hall; by right).
      congruence.
    + pose proof (proj1 (IH _) E) as Hl. destruct (p y) eqn:Hp.
      * split; [done|]. intros Hall. specialize (Hall y ltac:(by left)). congruence.
      * split; [|done]. intros _ x [->|Hx]%elem_of_cons; auto.
Qed.

Lemma find_last_from_after {A} (p : A -> bool) (l : list A) s j x :
  find_last_from p s l = Some (j, x) ->
  forall i y, l !! i = Some y -> j - s < i -> p y = false.
Proof.
  revert s. induction l as [|z l IH]; intros s; cbn [find_last_from]; [done|].
  destruct (find_last_from p (S s) l) as [[j' x']|] eqn:E.
  - intros [= -> ->] i y Hy Hi. pose proof (find_last_from_Some _ _ _ _ _ E) as (_ & Hle & _).
    destruct i as [|i]; [lia|]. cbn in Hy. apply (IH _ E i y Hy). lia.
  - destruct (p z); [|done]. intros [= <- <-] i y Hy Hi.
    destruct i as [|i]; [lia|]. cbn in Hy.
    apply (proj1 (find_last_from_None p l (S s)) E). by eapply list_elem_of_lookup_2.
Qed.

(** [find_last] is the specification [last_such], and answers nothing only
    when no element satisfies the test. *)
Lemma find_last_last_such {A} (p : A -> bool) (l : list A) k x :
  find_last p l = Some (k, x) -> last_such (fun y => p y = true) l k x.
Proof.
  intros Hf. pose proof (find_last_Some _ _ _ _ Hf) as [Hp Hl].
  split; [done|]. split; [done|]. intros j y Hy Hj.
  rewrite (find_last_from_after _ _ _ _ _ Hf j y Hy); [done|lia].
Qed.

Lemma find_last_None {A} (p : A -> bool) (l : list A) :
  find_last p l = None <-> forall x, x ∈ l -> p x = false.
Proof. apply find_last_from_None. Qed.

Lemma find_first_from_spec {A} (p : A -> bool) (l : list A) s :
  match find_first_from p s l with
  | Some (j, x) => s <= j /\ first_such (fun y => p y = true) l (j - s) x
  | None => forall x, x ∈ l -> p x = false
  end.
Proof.
  revert s. induction l as [|z l IH]; intros s; cbn [find_first_from].
  - intros x Hx. by apply elem_of_nil in Hx.
  - destruct (p z) eqn:Hp.
    + split; [lia|]. rewrite Nat.sub_diag. split; [done|]. split; [done|]. intros j y _ Hj. lia.
    + specialize (IH (S s)). destruct (find_first_from p (S s) l) as [[j x]|].
      * destruct IH as (Hle & Hl & Hx & Hbefore). split; [lia|].
        replace (j - s) with (S (j - S s)) by lia. split; [done|]. split; [done|].
        intros i y Hy Hi. destruct i as [|i]; cbn in Hy.
        -- injection Hy as <-. congruence.
        -- apply (Hbefore i y Hy). lia.
      * intros x [->|Hx]%elem_of_cons; auto.
Qed.

Lemma same_Some_iff (a : string) (b : option string) : same (Some a) b = true <-> Some a = b.
Proof. unfold same. apply bool_decide_eq_true. Qed.

Lemma same_Some_not (a : string) (b : option string) : same (Some a) b = false <-> Some a <> b.
Proof. unfold same. apply bool_decide_eq_false. Qed.

(** [getFlow] looks for the identifier among the ids first, then among
    the names, then among the slugs; in each pass the last flow that
    matches is the one returned, and [null] means that no flow bears the
    identifier in any of the three ways. *)
Theorem getFlow_by_id_name_slug (i : option string) (w : World) :
  let flows := proj_flows (_project w) in
  match getFlow i w with
  | Some (k, f) =>
      last_such (fun g => Some (flow_id g) = i) flows k f
      \/ ((forall g, g ∈ flows -> Some (flow_id g) <> i)
          /\ last_such (fun g => Some (flow_name g) = i) flows k f)
      \/ ((forall g, g ∈ flows -> Some (flow_id g) <> i /\ Some (flow_name g) <> i)
          /\ last_such (fun g => Some (flow_slug g) = i) flows k f)
  | None =>
      forall g, g ∈ flows ->
        Some (flow_id g) <> i /\ Some (flow_name g) <> i /\ Some (flow_slug g) <> i
  end.
Proof.
  cbv zeta. unfold getFlow.
  assert (forall (key : Flow -> string) k f,
            find_last (fun g => same (Some (key g)) i) (proj_flows (_project w)) = Some (k, f) ->
            last_such (fun g => Some (key g) = i) (proj_flows (_project w)) k f) as Hfound.
  { intros key k f Hf. apply find_last_last_such in Hf as (Hl & Hp & Hafter).
    split; [done|]. split; [by apply same_Some_iff|].
    intros j y Hy Hj Heq. apply (Hafter j y Hy Hj). by apply same_Some_iff. }
  assert (forall (key : Flow -> string),
            find_last (fun g => same (Some (key g)) i) (proj_flows (_project w)) = None ->
            forall g, g ∈ proj_flows (_project w) -> Some (key g) <> i) as Hnone.
  { intros key Hf g Hg. apply same_Some_not. by apply (proj1 (find_last_None _ _) Hf). }
  destruct (find_last _ _) as [[k f]|] eqn:Hid; [left; by apply Hfound|].
  destruct (find_last (fun f => same (Some (flow_name f)) i) _) as [[k f]|] eqn:Hname.
  { right. left. split; [by apply (Hnone flow_id)|by apply Hfound]. }
  destruct (find_last (fun f => same (Some (flow_slug f)) i) _) as [[k f]|] eqn:Hslug.
  { right. right. split; [|by apply Hfound].
    intros g Hg. split; [by apply (Hnone flow_id)|by apply (Hnone flow_name)]. }
  intros g Hg. repeat split; [by apply (Hnone flow_id)|by apply (Hnone flow_name)
                             |by apply (Hnone flow_slug)].
Qed.

(** [getNode] reads the node id from the cursor when none is given (the
    empty string counts as none), and the flow from the cursor when none is
    given.  It throws when the flow is not found; in a flow that is found,
    it answers the last node with the id, or [null] when there is none.  It
    writes nothing. *)
Theorem getNode_last_with_id (nodeId flowId : option string) (w : World) :
  let wanted := js_or nodeId (_selectedNodeId w) in
  match (if falsy_id flowId then getSelectedFlow w else getFlow flowId w) with
  | None => getNode nodeId flowId w = Throw TypeError
  | Some (fi, f) =>
      exists o, getNode nodeId flowId w = Ok (o, w)
        /\ match o with
           | Some (r, n) =>
               r.1 = fi /\ last_such (fun m => Some (node_id m) = wanted) (flow_nodes f) r.2 n
           | None => forall m, m ∈ flow_nodes f -> Some (node_id m) <> wanted
           end
  end.
Proof.
  cbv zeta. unfold getNode. msimpl.
  destruct (if falsy_id flowId then getSelectedFlow w else getFlow flowId w) as [[fi f]|];
    [|reflexivity].
  msimpl. unfold ret. eexists. split; [reflexivity|].
  destruct (find_last _ (flow_nodes f)) as [[ni n]|] eqn:Hn.
  - split; [reflexivity|]. apply find_last_last_such in Hn as (Hl & Hp & Hafter).
    split; [done|]. split; [by apply same_Some_iff|].
    intros j y Hy Hj Heq. apply (Hafter j y Hy Hj). by apply same_Some_iff.
  - intros m Hm. apply same_Some_not. by apply (proj1 (find_last_None _ _) Hn).
Qed.

Lemma filter_nonempty {A} (p : A -> bool) (l : list A) :
  List.length (List.filter p l) = 0 <-> forall x, x ∈ l -> p x = false.
Proof.
  induction l as [|y l IH]; cbn.
  - split; [|done]. intros _ x Hx. by apply elem_of_nil in Hx.
  - destruct (p y) eqn:Hp; cbn.
    + split; [done|]. intros Hall. specialize (Hall y ltac:(by left)). congruence.
    + rewrite IH. split.
      * intros Hall x [->|Hx]%elem_of_cons; auto.
      * intros Hall x Hx. apply Hall. by right.
Qed.

(** [nodeExists] and [getNode] agree on a node id that is not empty:
    [nodeExists] answers true exactly when [getNode], asked for the same
    node in the same flow, answers a node, and that node bears the id.  (On
    a flow that is not found [nodeExists] answers false, where [getNode]
    throws.) *)
Theorem nodeExists_iff_getNode (nodeId flowId : string) (w : World) :
  nodeId <> EmptyString ->
  nodeExists nodeId flowId w = true
  <-> exists r n, getNode (Some nodeId) (Some flowId) w = Ok (Some (r, n), w)
                  /\ node_id n = nodeId.
Proof.
  intros Hne. unfold nodeExists, getNode. msimpl.
  assert (js_or (Some nodeId) (_selectedNodeId w) = Some nodeId) as ->.
  { cbn. by rewrite (proj2 (String.eqb_neq _ _) Hne). }
  change (falsy_id (Some flowId)) with (String.eqb flowId EmptyString).
  destruct (if String.eqb flowId EmptyString then getSelectedFlow w
            else getFlow (Some flowId) w) as [[fi f]|].
  - msimpl. unfold ret.
    destruct (find_last _ (flow_nodes f)) as [[ni n]|] eqn:Hn.
    + split.
      * intros _. exists (fi, ni), n. split; [reflexivity|].
        apply find_last_Some in Hn as [Hp _]. apply same_Some_iff in Hp. by injection Hp.
      * intros _. apply negb_true_iff, Nat.eqb_neq. intros Hz.
        apply find_last_Some in Hn as [Hp Hl]. apply same_Some_iff in Hp. injection Hp as Hp.
        pose proof (proj1 (filter_nonempty _ _) Hz n ltac:(by eapply list_elem_of_lookup_2)) as Hf.
        cbn in Hf. unfold same in Hf. by apply bool_decide_eq_false in Hf.
    + split; [|by intros (r & n & [=] & _)].
      intros He. apply negb_true_iff, Nat.eqb_neq in He. exfalso. apply He.
      apply filter_nonempty. intros m Hm.
      pose proof (proj1 (find_last_None _ _) Hn m Hm) as Hp. cbn in Hp.
      apply same_Some_not in Hp. unfold same. apply bool_decide_eq_false. congruence.
  - split; [done|]. by intros (r & n & [=] & _).
Qed.

Lemma nodeExists_iff_getNode_witness :
  nodeExists "t" "f1" Ex.at_loop = true
  <-> exists r n, getNode (Some "t") (Some "f1") Ex.at_loop = Ok (Some (r, n), Ex.at_loop)
                  /\ node_id n = "t".
Proof. apply nodeExists_iff_getNode. discriminate. Defined.

(** [getNodeElement] answers the first element of the node that bears the
    element id, where the other lookups answer the last; [null] when no
    element bears it, which is always so when no element id is given.  It
    throws when the node is not found. *)
Theorem getNodeElement_first_with_id (nodeId : string) (elementId : option string)
    (w : World) (o : option ElemRef) (w' : World) :
  getNodeElement nodeId elementId w = Ok (o, w') ->
  w' = w
  /\ exists r node,
       getNode (Some nodeId) None w = Ok (Some (r, node), w)
       /\ match o with
          | Some er =>
              er.1 = r
              /\ exists e, first_such (fun x => Some (el_id x) = elementId)
                             (node_elements node) er.2 e
          | None => forall e, e ∈ node_elements node -> Some (el_id e) <> elementId
          end.
Proof.
  unfold getNodeElement. intros Hrun.
  apply bind_inv in Hrun as (n & w1 & Hn & Hrun).
  pose proof (getNode_pure (Some nodeId) None w) as Hpure. rewrite Hn in Hpure. cbn in Hpure.
  subst w1. destruct n as [[r node]|]; [|discriminate]. revert Hrun. msimpl. unfold ret.
  intros [= <- <-]. split; [reflexivity|]. exists r, node. split; [exact Hn|].
  unfold find_first. pose proof (find_first_from_spec
    (fun el => same (Some (el_id el)) elementId) (node_elements node) 0) as Hspec.
  destruct (find_first_from _ 0 (node_elements node)) as [[ei e]|].
  - split; [reflexivity|]. exists e. destruct Hspec as (_ & Hl & Hp & Hbefore).
    rewrite Nat.sub_0_r in *. split; [done|]. split; [by apply same_Some_iff|].
    intros j y Hy Hj Heq. apply (Hbefore j y Hy Hj). by apply same_Some_iff.
  - intros e He. apply same_Some_not. by apply Hspec.
Qed.

(** ** The cursor *)

Lemma find_last_is_Some {A} (p : A -> bool) (l : list A) k x :
  l !! k = Some x -> p x = true -> is_Some (find_last p l).
Proof.
  intros Hl Hp. destruct (find_last p l) eqn:Hf; [done|]. exfalso.
  pose proof (proj1 (find_last_None _ _) Hf x ltac:(by eapply list_elem_of_lookup_2)).
  congruence.
Qed.

Lemma getFlow_lookup_id o w k f :
  getFlow o w = Some (k, f) ->
  is_Some (getSelectedFlow (with_selectedFlowId (Some (flow_id f)) w)).
Proof.
  intros Hf. apply getFlow_lookup in Hf. unfold getSelectedFlow. cbn.
  eapply find_last_is_Some; [exact Hf|]. by apply same_Some_iff.
Qed.

(** [start] with a node id puts the cursor on that id in the flow found
    for the name, without looking the node up: the node need not exist,
    and the flow need not have a start node. *)
Theorem start_takes_the_node_id_unchecked (nodeId name : string) (w : World) k f :
  name <> EmptyString ->
  getFlow (Some name) w = Some (k, f) ->
  start (Some nodeId) (Some name) w
  = Ok (Some nodeId,
        with_selectedNodeId (Some nodeId) (with_selectedFlowId (Some (flow_id f)) w)).
Proof.
  intros Hname Hf. unfold start.
  assert (falsy_id (Some name) = false) as -> by (by apply String.eqb_neq).
  msimpl. rewrite Hf. msimpl.
  unfold getNodesByType. msimpl.
  destruct (getFlow_lookup_id _ _ _ _ Hf) as [[fi g] Hg]. rewrite Hg. msimpl. reflexivity.
Qed.

Lemma start_takes_the_node_id_unchecked_witness :
  start (Some "nowhere") (Some "Main") Ex.at_loop
  = Ok (Some "nowhere",
        with_selectedNodeId (Some "nowhere")
          (with_selectedFlowId (Some (flow_id Ex.at_loop_flow)) Ex.at_loop))
  /\ nodeExists "nowhere" "Main" Ex.at_loop = false.
Proof.
  split; [|vm_compute; reflexivity].
  apply (start_takes_the_node_id_unchecked "nowhere" "Main" Ex.at_loop 0 Ex.at_loop_flow).
  - discriminate.
  - vm_compute. reflexivity.
Defined.

Lemma head_filter_from {A} (p : A -> bool) (l : list A) s :
  head (filter_from p s l) = find_first_from p s l.
Proof.
  revert s. induction l as [|x l IH]; intros s; cbn; [done|]. by destruct (p x).
Qed.

(** [restart] puts the cursor on the first start node of the selected
    flow and changes nothing else; it throws when no flow is selected or
    when the selected flow has no start node. *)
Theorem restart_first_start_node (w : World) :
  match getSelectedFlow w with
  | Some (fi, f) =>
      match find_first (fun n => same (node_type n) NodeType.start) (flow_nodes f) with
      | Some (ni, n) =>
          first_such (fun m => node_type m = NodeType.start) (flow_nodes f) ni n
          /\ restart w = Ok (Some (node_id n), with_selectedNodeId (Some (node_id n)) w)
      | None =>
          (forall m, m ∈ flow_nodes f -> node_type m <> NodeType.start)
          /\ restart w = Throw TypeError
      end
  | None => restart w = Throw TypeError
  end.
Proof.
  unfold restart, startNodeId, getNodesByType. msimpl.
  destruct (getSelectedFlow w) as [[fi f]|]; [|reflexivity]. msimpl.
  unfold filter_idx, find_first.
  pose proof (find_first_from_spec (fun n => same (node_type n) NodeType.start)
                (flow_nodes f) 0) as Hspec.
  pose proof (head_filter_from (fun n => same (node_type n) NodeType.start)
                (flow_nodes f) 0) as Hhead.
  destruct (find_first_from _ 0 (flow_nodes f)) as [[ni n]|].
  - destruct Hspec as (_ & Hl & Hp & Hbefore). rewrite Nat.sub_0_r in *. split.
    + split; [done|]. split; [by apply same_true in Hp|].
      intros j y Hy Hj Heq. apply (Hbefore j y Hy Hj). unfold same.
      by apply bool_decide_eq_true.
    + destruct (filter_from _ 0 (flow_nodes f)) as [|[i x] rest]; [discriminate|].
      injection Hhead as -> ->. reflexivity.
  - split.
    + intros m Hm Heq. specialize (Hspec m Hm). unfold same in Hspec.
      by apply bool_decide_eq_false in Hspec.
    + by destruct (filter_from _ 0 (flow_nodes f)).
Qed.

(** ** The variables *)











(** At a project that declares [__proto__] as the number 1: the store of
    the blank page has no such property afterwards, and still answers its
    prototype under that name. *)
Example reset_of_proto_goes_to_the_accessor :
  let project :=
    Ex.project "en" []
      [ {| var_key := "__proto__"; var_value := JS.VNum 1; var_type := VariableType.int |} ] in
  exists g',
    resetGlobalVariables (with_project project Ex.blank)
    = Ok (tt, with_globalVariables g' (with_project project Ex.blank))
    /\ own g' !! "__proto__" = None
    /\ read_var g' "__proto__" = Inherited
    /\ g' = empty_object.
Proof. eexists. split; [vm_compute; reflexivity|]. repeat split. Qed.


(** ** The list cycle *)

Lemma visited_prefix_again k es i :
  i < k -> visited_prefix k es -> visited_prefix k (alter (set_visited true) i es).
Proof.
  intros Hi Hpre j e He. destruct (decide (j = i)) as [->|Hne].
  - rewrite list_lookup_alter_eq in He. destruct (es !! i); [|discriminate].
    injection He as <-. cbn. symmetry. by apply bool_decide_eq_true_2.
  - rewrite list_lookup_alter_ne in He by done. by apply Hpre.
Qed.

(** One selection on a list node whose first [k] elements are visited: the
    element [k] is selected, or the last one when all are visited. *)
Lemma select_on_list (H : Host) w fi ni f n k :
  cursor_at w fi ni f n ->
  node_type n = NodeType.text ->
  node_cycleType n = Some CycleType.list ->
  0 < List.length (node_elements n) ->
  k <= List.length (node_elements n) ->
  visited_prefix k (node_elements n) ->
  exists w' f' n',
    getAvailableNodeElement H None w
    = Ok (Some (fi, ni, Nat.min k (List.length (node_elements n) - 1)), w')
    /\ cursor_at w' fi ni f' n'
    /\ node_type n' = NodeType.text
    /\ node_cycleType n' = Some CycleType.list
    /\ List.length (node_elements n') = List.length (node_elements n)
    /\ visited_prefix (Nat.min (S k) (List.length (node_elements n))) (node_elements n').
Proof.
  intros Hc Htype Hcycle Hpos Hk Hpre.
  unfold getAvailableNodeElement.
  rewrite (bind_ok _ _ _ _ _ (getNode_selected _ _ _ _ _ Hc)). msimpl.
  rewrite Htype, Hcycle. unfold filter_idx.
  destruct (decide (k < List.length (node_elements n))) as [Hlt|Hge].
  - destruct (filter_from_prefix k 0 _ Hpre Hlt) as (e & rest & ->).
    unfold visit, write_elem. msimpl.
    rewrite Nat.min_l by lia. rewrite (Nat.min_l (S k)) by lia.
    eexists _, _, _. split; [reflexivity|].
    split; [|split; [|split; [|split]]].
    + unfold alter_elem.
      apply (cursor_at_alter_node _ _ _ _ _
               (fun n0 => set_elements (alter (set_visited true) (fi, ni, k).2 (node_elements n0)) n0)
               Hc).
      reflexivity.
    + exact Htype.
    + exact Hcycle.
    + cbn. by rewrite length_alter.
    + cbn. by apply visited_prefix_next.
  - assert (k = List.length (node_elements n)) as -> by lia.
    rewrite (filter_from_all_visited 0 _ Hpre).
    assert (last_index (node_elements n) = Some (List.length (node_elements n) - 1)) as ->.
    { destruct (node_elements n); cbn in *; [lia|]. by rewrite Nat.sub_0_r. }
    unfold visit, write_elem. msimpl.
    rewrite Nat.min_r by lia. rewrite (Nat.min_r (S _)) by lia.
    eexists _, _, _. split; [reflexivity|].
    split; [|split; [|split; [|split]]].
    + unfold alter_elem.
      apply (cursor_at_alter_node _ _ _ _ _
               (fun n0 => set_elements
                            (alter (set_visited true)
                               (fi, ni, List.length (node_elements n) - 1).2
                               (node_elements n0)) n0)
               Hc).
      reflexivity.
    + exact Htype.
    + exact Hcycle.
    + cbn. by rewrite length_alter.
    + cbn. apply visited_prefix_again; [lia|done].
Qed.

(** On a text node whose cycle type is List, with [N] elements of which the
    first [k] are visited, the selections that follow take the elements
    [k], [k + 1], ... up to the last one, and then the last one again each
    time: the [j]-th selection takes the element [min (k + j) (N - 1)]. *)
Theorem list_cycle_sticks_to_last (H : Host) (m : nat) :
  forall (w : World) (fi ni : nat) (f : Flow) (n : Node) (k : nat),
  cursor_at w fi ni f n ->
  node_type n = NodeType.text ->
  node_cycleType n = Some CycleType.list ->
  0 < List.length (node_elements n) ->
  k <= List.length (node_elements n) ->
  visited_prefix k (node_elements n) ->
  exists w',
    selections H m w
    = Ok ((fun j => Some (fi, ni, Nat.min (k + j) (List.length (node_elements n) - 1)))
            <$> seq 0 m, w').
Proof.
  induction m as [|m IH]; intros w fi ni f n k Hc Htype Hcycle Hpos Hk Hpre.
  - eexists. reflexivity.
  - destruct (select_on_list H _ _ _ _ _ _ Hc Htype Hcycle Hpos Hk Hpre)
      as (w1 & f1 & n1 & Hsel & Hc1 & Htype1 & Hcycle1 & Hlen & Hpre1).
    destruct (IH w1 fi ni f1 n1 (Nat.min (S k) (List.length (node_elements n))))
      as (w2 & Hrest); try done.
    { rewrite Hlen. lia. }
    { rewrite Hlen. lia. }
    exists w2. cbn [selections]. rewrite (bind_ok _ _ _ _ _ Hsel).
    rewrite (bind_ok _ _ _ _ _ Hrest). unfold ret. f_equal. f_equal.
    cbn [seq fmap list_fmap]. rewrite Nat.add_0_r. f_equal.
    rewrite <- fmap_S_seq, <- list_fmap_compose. apply list_fmap_ext.
    intros _ j _. unfold compose. rewrite Hlen. do 2 f_equal. lia.
Qed.

Lemma list_cycle_sticks_to_last_witness :
  exists w',
    selections (Ex.host 0) 4 Ex.at_list
    = Ok ([Some (0, 1, 0); Some (0, 1, 1); Some (0, 1, 1); Some (0, 1, 1)], w').
Proof.
  destruct (list_cycle_sticks_to_last (Ex.host 0) 4 Ex.at_list 0 1
              Ex.at_list_flow Ex.at_list_node 0) as [w' Hsel].
  - split; vm_compute; reflexivity.
  - reflexivity.
  - reflexivity.
  - cbn. lia.
  - cbn. lia.
  - intros i e He. destruct i as [|[|i]]; cbn in He; [| |discriminate];
      injection He as <-; reflexivity.
  - exists w'. exact Hsel.
Defined.

(** On a node that is not a text node, or that has no cycle type,
    [getParsedText] without an element finds no element to render:
    it answers the empty string and writes nothing. *)
Theorem getParsedText_without_element (H : Host) (force_eval : bool) (w : World) r node :
  getNode None None w = Ok (Some (r, node), w) ->
  node_type node <> NodeType.text \/ node_cycleType node = None ->
  getParsedText H None force_eval w = Ok (EmptyString, w).
Proof.
  intros Hn Hkind. unfold getParsedText, getAvailableNodeElement.
  rewrite bind_bind. rewrite (bind_ok _ _ _ _ _ Hn). msimpl.
  assert (match node_type node with
          | NodeType.text =>
              match node_cycleType node with
              | Some _ => false
              | None => true
              end
          | _ => true
          end = true) as Hnone.
  { destruct Hkind as [Ht| ->]; destruct (node_type node); done. }
  destruct (node_type node); try reflexivity.
  destruct (node_cycleType node) as [c|]; [discriminate|]. reflexivity.
Qed.

Lemma getParsedText_without_element_witness :
  getParsedText (Ex.host 0) None false Ex.exhausted = Ok (EmptyString, Ex.exhausted).
Proof.
  apply (getParsedText_without_element (Ex.host 0) false Ex.exhausted (0, 1) Ex.exhausted_node).
  - vm_compute. reflexivity.
  - left. discriminate.
Defined.

(** ** What the operations leave alone

    A property of the world that survives every write into a node that
    keeps the frame of the node, every write into the labels, into the
    variable stores and into the variation registry, and every draw,
    survives the resolver, the templater, the element selector and
    [getAvailableChoices]; one that survives the moves of the cursor as
    well survives [nextNode]. *)
Section Frame.

Context (H : Host) (P : World -> Prop).
Hypothesis P_node : forall w g r,
  (forall n, node_frame (g n) = node_frame n) ->
  P w -> P (with_project (alter_node g r (_project w)) w).
Hypothesis P_labels : forall w ls, P w -> P (with_project (set_labels ls (_project w)) w).
Hypothesis P_vars : forall w g l, P w -> P (with_localVars l (with_globalVariables g w)).
Hypothesis P_registry : registry_stable P.
Hypothesis P_draw : forall w t, P w -> P (with_rnd_tick t w).

Lemma frame_write_elem g r w : P w -> P (with_project (alter_elem g r (_project w)) w).
Proof. intros Hw. unfold alter_elem. by apply P_node. Qed.

Lemma frame_content_stable : content_stable P.
Proof.
  intros w b c Hw. unfold alter_content. destruct c.1 as [r|i].
  - by apply frame_write_elem.
  - by apply P_labels.
Qed.

Lemma frame_content_text o l w : P w -> post (fun _ => P) (content_text o l w).
Proof.
  intros Hw. unfold content_text.
  eapply post_bind; [apply getLocalizedContent_inv; [apply frame_content_stable|exact Hw]|].
  intros c w1 Hw1. apply post_deref. intros c1 _.
  eapply post_bind; [apply read_content_pure|]. by intros lc w2 ->.
Qed.

Lemma frame_getOriginalText e c r l w :
  P w -> post (fun _ => P) (getOriginalText H e c r l w).
Proof.
  intros Hw. unfold getOriginalText.
  eapply post_bind; [by apply frame_content_text|]. by intros t w1 Hw1.
Qed.

Lemma frame_try_eval code w : P w -> post (fun _ => P) (try_eval H code w).
Proof. intros Hw. unfold try_eval. cbn. by apply P_vars. Qed.

Lemma frame_eval code w : P w -> post (fun _ => P) (eval H code w).
Proof.
  intros Hw. unfold eval. eapply post_bind; [by apply frame_try_eval|].
  by intros [v|] w1 Hw1.
Qed.

Lemma frame_write_values k vs w : P w -> post (fun _ => P) (write_values k vs w).
Proof. intros Hw. unfold write_values, modify. cbn. by apply P_registry. Qed.

Lemma frame_random_below n w : P w -> post (fun _ => P) (random_below H n w).
Proof. intros Hw. unfold random_below. cbn. by apply P_draw. Qed.

Lemma frame_variationContent k v variations w :
  P w -> post (fun _ => P) (variationContent H k v variations w).
Proof.
  intros Hw. unfold variationContent.
  destruct (String.eqb (vn_type v) "LIST").
  { eapply post_bind; [by apply frame_write_values|]. by intros [] w1 Hw1. }
  destruct (String.eqb (vn_type v) "LOOP").
  { eapply post_bind; [by apply frame_write_values|]. by intros [] w1 Hw1. }
  destruct (String.eqb (vn_type v) "RND").
  { eapply post_bind; [by apply frame_random_below|]. by intros i w1 Hw1. }
  destruct (String.eqb (vn_type v) "SRND"); [|done].
  eapply post_bind; [by apply frame_random_below|]. intros i w1 Hw1.
  eapply post_bind; [by apply frame_write_values|]. by intros [] w2 Hw2.
Qed.

Lemma frame_variation_step elementId acc variation w :
  P w -> post (fun _ => P) (variation_step H elementId acc variation w).
Proof.
  intros Hw. unfold variation_step. destruct acc as [output idx]. msimpl.
  apply post_deref. intros [k v] _.
  eapply post_bind; [by apply frame_variationContent|]. by intros c w1 Hw1.
Qed.

Lemma frame_conditional_step output inside w :
  P w -> post (fun _ => P) (conditional_step H output inside w).
Proof.
  intros Hw. unfold conditional_step. cbv zeta.
  apply post_deref. intros second _.
  eapply post_bind; [by apply frame_try_eval|]. intros result w1 Hw1.
  eapply post_bind with (Q1 := fun _ => P); [|by intros p w2 Hw2].
  destruct result as [v|]; [|done].
  destruct (JS.not_nullish v); [|done].
  by destruct (JS.match_quoted _).
Qed.

Lemma frame_variable_step type force_eval output block w :
  P w -> post (fun _ => P) (variable_step H type force_eval output block w).
Proof.
  intros Hw. unfold variable_step. cbv zeta.
  set (gs := JS.findGlobalVariables _). set (ls := JS.findLocalVariables _).
  assert (forall (k : M string),
            post (fun _ => P) (k w) ->
            post (fun _ => P) (match gs, ls with [], [] => ret output | _, _ => k end w))
    as Hcase.
  { intros k Hk. destruct gs, ls; try exact Hk. exact Hw. }
  apply Hcase.
  eapply post_bind with (Q1 := fun _ => P).
  { destruct (_ || _); [|done].
    eapply post_bind; [by apply frame_try_eval|]. by intros r w1 Hw1. }
  intros evaluated w1 Hw1. by destruct (_ || _).
Qed.

Lemma frame_parsedText element force_eval w :
  P w -> post (fun _ => P) (parsedText H element force_eval w).
Proof.
  intros Hw. unfold parsedText. destruct element as [r|]; [|done].
  eapply post_bind; [by apply frame_content_text|]. intros content w1 Hw1.
  eapply post_bind; [apply read_elem_pure|]. intros el w2 ->.
  eapply post_bind with (Q1 := fun _ => P).
  { apply post_foldM; [done|]. intros a x w2 Hw2. by apply frame_variation_step. }
  intros [output idx] w2 Hw2.
  eapply post_bind with (Q1 := fun _ => P).
  { apply post_foldM; [done|]. intros a x w3 Hw3. by apply frame_conditional_step. }
  intros output1 w3 Hw3. cbv zeta.
  eapply post_bind with (Q1 := fun _ => P).
  { apply post_forEach; [done|]. intros x w4 Hw4.
    unfold write_elem, modify. by apply frame_write_elem. }
  intros [] w4 Hw4.
  eapply post_bind with (Q1 := fun _ => P).
  { apply post_forEach; [done|]. intros x w5 Hw5.
    unfold write_elem, modify. by apply frame_write_elem. }
  intros [] w5 Hw5.
  eapply post_bind with (Q1 := fun _ => P).
  { apply post_foldM; [done|]. intros a x w6 Hw6. by apply frame_variable_step. }
  by intros output2 w6 Hw6.
Qed.

Lemma frame_reset_visited r w : P w -> post (fun _ => P) (reset_visited r w).
Proof. intros Hw. unfold reset_visited, write_node, modify. cbn. by apply P_node. Qed.

Lemma frame_visit r i w : P w -> post (fun _ => P) (visit r i w).
Proof.
  intros Hw. unfold visit. apply post_deref. intros k _. unfold write_elem. msimpl.
  unfold ret. cbn. by apply frame_write_elem.
Qed.

Lemma frame_getAvailableNodeElement nodeId w :
  P w -> post (fun _ => P) (getAvailableNodeElement H nodeId w).
Proof.
  intros Hw. unfold getAvailableNodeElement.
  eapply post_bind; [apply getNode_pure|]. intros n w1 ->.
  apply post_deref. intros [r node] _. cbv zeta.
  destruct (node_type node); try done.
  destruct (node_cycleType node) as [[]|]; [| | | |done].
  - by apply frame_visit.
  - eapply post_bind with (Q1 := fun _ => P).
    { destruct (filter_idx _ _); [by apply frame_reset_visited|done]. }
    intros [] w1 Hw1. by apply frame_visit.
  - eapply post_bind with (Q1 := fun _ => P).
    { destruct (Nat.ltb _ _); [by apply frame_random_below|done]. }
    intros i w1 Hw1. by apply frame_visit.
  - eapply post_bind with (Q1 := fun _ => P).
    { destruct (filter_idx _ _); [by apply frame_reset_visited|done]. }
    intros [] w1 Hw1.
    eapply post_bind with (Q1 := fun _ => P).
    { destruct (Nat.ltb _ _); [by apply frame_random_below|done]. }
    intros i w2 Hw2. by apply frame_visit.
Qed.

Lemma frame_getParsedText element force_eval w :
  P w -> post (fun _ => P) (getParsedText H element force_eval w).
Proof.
  intros Hw. unfold getParsedText.
  eapply post_bind with (Q1 := fun _ => P).
  { destruct element; [done|by apply frame_getAvailableNodeElement]. }
  intros e w1 Hw1. eapply post_bind; [by apply frame_parsedText|]. by intros t w2 Hw2.
Qed.

Lemma frame_choice_filter r w : P w -> post (fun _ => P) (choice_filter H r w).
Proof.
  intros Hw. unfold choice_filter.
  eapply post_bind; [by apply frame_getOriginalText|]. intros content w1 Hw1. cbv zeta.
  eapply post_bind; [apply read_elem_pure|]. intros e w2 ->.
  eapply post_bind with (Q1 := fun _ => P).
  { destruct (_ || _); [|done].
    eapply post_bind; [by apply frame_parsedText|]. intros text w2 Hw2.
    eapply post_bind; [apply read_elem_pure|]. intros e2 w3 ->.
    destruct (_ && _).
    - unfold write_elem, modify. by apply frame_write_elem.
    - destruct (_ && _); [|done]. unfold write_elem, modify. by apply frame_write_elem. }
  intros [] w2 Hw2.
  eapply post_bind with (Q1 := fun _ => P).
  { destruct (JS.match_ifNoMore content); [done|].
    unfold write_elem, modify. by apply frame_write_elem. }
  intros [] w3 Hw3.
  eapply post_bind; [apply read_elem_pure|]. by intros e3 w4 ->.
Qed.

Lemma post_filterM {A} (f : A -> M bool) l : forall w,
  P w -> (forall x w, P w -> post (fun _ => P) (f x w)) ->
  post (fun _ => P) (filterM f l w).
Proof.
  induction l as [|x l IH]; intros w Hw Hf; cbn [filterM]; [done|].
  eapply post_bind; [by apply Hf|]. intros keep w1 Hw1.
  eapply post_bind; [by apply IH|]. by intros rest w2 Hw2.
Qed.

Lemma frame_getAvailableChoices nodeId w :
  P w -> post (fun _ => P) (getAvailableChoices H nodeId w).
Proof.
  intros Hw. unfold getAvailableChoices.
  eapply post_bind; [apply getNode_pure|]. intros n w1 ->.
  apply post_deref. intros [r node] _.
  eapply post_bind with (Q1 := fun _ => P).
  { apply post_filterM; [done|]. intros x w1 Hw1. by apply frame_choice_filter. }
  intros avail w1 Hw1. destruct avail; [|done].
  eapply post_bind; [apply read_node_pure|]. by intros n1 w2 ->.
Qed.

Hypothesis P_position : forall w, P w ->
  (forall i, P (with_selectedNodeId i w)) /\ (forall i, P (with_selectedFlowId i w))
  /\ (forall s, P (with_activeSubFlows s w)) /\ (forall b, P (with_isJumping b w)).

Lemma frame_cursor_stable : cursor_stable P.
Proof. intros w Hw. destruct (P_position w Hw) as (? & ? & _). by split. Qed.

Lemma frame_condition_step r node held ie w :
  P w -> post (fun _ => P) (condition_step H r node held ie w).
Proof.
  intros Hw. unfold condition_step.
  eapply post_bind; [by apply frame_getOriginalText|]. intros condition w1 Hw1.
  eapply post_bind; [by apply frame_eval|]. by intros result w2 Hw2.
Qed.

Lemma frame_getAvailableConnections elementId w :
  P w -> post (fun _ => P) (getAvailableConnections H elementId w).
Proof.
  intros Hw. unfold getAvailableConnections.
  eapply post_bind; [apply getNode_pure|]. intros n w1 ->.
  apply post_deref. intros [r node] _. cbv zeta.
  destruct (node_type node); try done.
  - (* variables *)
    eapply post_bind with (Q1 := fun _ => P); [|by intros [] w1 Hw1].
    apply post_forEach; [done|]. intros i w1 Hw1.
    eapply post_bind; [by apply frame_parsedText|]. by intros t w2 Hw2.
  - (* condition *)
    eapply post_bind with (Q1 := fun _ => P); [|by intros c w1 Hw1].
    apply post_foldM; [done|]. intros a x w1 Hw1. by apply frame_condition_step.
  - (* random *)
    eapply post_bind; [by apply frame_random_below|]. by intros i w1 Hw1.
  - (* sequence *)
    destruct (node_cycleType node) as [[]|]; [| | | |done].
    + destruct (filter_idx _ _) as [|[i e] rest].
      * destruct (getFailedConnection node); [done|]. apply post_deref. by intros e _.
      * unfold write_elem. msimpl. unfold ret. cbn. by apply frame_write_elem.
    + destruct (filter_idx _ _) as [|[i e] rest].
      * eapply post_bind; [by apply frame_reset_visited|]. by intros [] w1 Hw1.
      * unfold write_elem. msimpl. unfold ret. cbn. by apply frame_write_elem.
    + eapply post_bind; [by apply frame_random_below|]. intros i w1 Hw1.
      apply post_deref. by intros e _.
    + assert (post (fun _ => P)
                (((match filter_idx unvisited (node_elements node) with
                   | [] => reset_visited r
                   | _ => ret tt
                   end) ;;
                  let availableElements :=
                    match filter_idx unvisited (node_elements node) with
                    | [] => imap pair (List.map (set_visited false) (node_elements node))
                    | _ => filter_idx unvisited (node_elements node)
                    end in
                  let* sRnd :=
                    if Nat.ltb 1 (List.length availableElements)
                    then random_below H (List.length availableElements)
                    else ret 0 in
                  let* possibleElement := deref (snd <$> availableElements !! sRnd) in
                  ret (available (getConnectionsByElementId node
                                    (Some (el_id possibleElement))))) w)) as Hrest.
      { eapply post_bind with (Q1 := fun _ => P).
        { destruct (filter_idx _ _); [by apply frame_reset_visited|done]. }
        intros [] w1 Hw1. cbv zeta.
        eapply post_bind with (Q1 := fun _ => P).
        { destruct (Nat.ltb _ _); [by apply frame_random_below|done]. }
        intros i w2 Hw2. apply post_deref. by intros e _. }
      destruct (filter_idx unvisited (node_elements node)) as [|x rest] eqn:Hav;
        [destruct (getFailedConnection node); [done|]|]; exact Hrest.
  - (* jump *)
    apply post_deref. intros j _. msimpl. unfold ret. cbn.
    destruct (P_position w Hw) as (_ & Hflow & _).
    destruct (P_position _ (Hflow (Some (jt_flowId j)))) as (Hnode & _). apply Hnode.
  - (* sub-flow *)
    destruct (node_connections node); [done|]. msimpl.
    destruct (P_position w Hw) as (_ & _ & Hsub & _).
    destruct (List.filter _ (activeSubFlows w)).
    + destruct (List.filter _ _); [done|]. msimpl. apply Hsub.
    + msimpl. apply Hsub.
Qed.

Lemma frame_enter_target currentNode w :
  P w -> post (fun _ => P) (enter_target currentNode w).
Proof.
  intros Hw. unfold enter_target. msimpl.
  eapply post_bind; [apply getNode_pure|]. intros t w1 ->.
  apply post_deref. intros [tr targetNode] _. unfold write_node. msimpl. unfold ret. cbn.
  by apply P_node.
Qed.

Lemma frame_arrive currentNode w : P w -> post (fun _ => P) (arrive H currentNode w).
Proof.
  intros Hw. unfold arrive.
  eapply post_bind; [by apply frame_enter_target|]. intros [tr targetNode] w1 Hw1.
  eapply post_bind with (Q1 := fun _ => P).
  { destruct (same _ _); [|done].
    eapply post_bind; [by apply frame_getAvailableChoices|]. intros avail w2 Hw2.
    destruct avail; [|done]. destruct (getFailedConnection targetNode); [|done]. msimpl.
    eapply post_bind; [apply frame_enter_target; by apply (P_position w2 Hw2)|].
    by intros x w3 Hw3. }
  intros exhausted w2 Hw2. destruct exhausted; [done|]. msimpl.
  destruct (passes_through _); by apply (P_position w2 Hw2).
Qed.

Lemma frame_depart elementId w : P w -> post (fun _ => P) (depart H elementId w).
Proof.
  intros Hw. unfold depart. msimpl.
  destruct (same (_selectedNodeId w) _); [done|].
  eapply post_bind with (Q1 := fun _ => P).
  { destruct (_selectedNodeId w); [done|].
    eapply post_bind; [apply startNodeId_pure|]. intros i w1 ->.
    by apply (P_position w Hw). }
  intros [] w1 Hw1. msimpl.
  eapply post_bind; [apply getNode_pure|]. intros c w2 ->.
  apply post_deref. intros [cr currentNode] _.
  eapply post_bind; [apply getNodeElement_pure|]. intros nodeElement w2 ->.
  eapply post_bind; [by apply frame_getAvailableConnections|]. intros connection w2 Hw2.
  cbv zeta. msimpl.
  eapply post_bind with (Q1 := fun _ => P).
  { destruct (_ && _).
    - eapply post_bind with (Q1 := fun _ => P).
      { destruct nodeElement as [er|]; [|done].
        eapply post_bind; [apply read_elem_pure|]. intros e w3 ->.
        destruct (el_justOnce e); [|done]. unfold write_elem, modify.
        by apply frame_write_elem. }
      intros [] w3 Hw3. eapply post_bind; [by apply frame_getParsedText|].
      by intros t w4 Hw4.
    - destruct (same _ _).
      + apply post_deref. intros j _. msimpl. destruct (negb _); [done|].
        by apply (P_position w2 Hw2).
      + destruct nodeElement as [er|]; [|done]. unfold write_elem. msimpl.
        unfold ret. cbn. by apply frame_write_elem. }
  intros unset w3 Hw3. destruct unset; [done|]. msimpl.
  destruct (_ && _).
  - destruct (activeSubFlows w3) as [|subFlow rest]; [msimpl; by apply (P_position w3 Hw3)|].
    eapply post_bind with (Q1 := fun _ => P).
    { destruct (negb _); [|done].
      eapply post_bind; [apply start_inv; [apply frame_cursor_stable|done]|].
      by intros x w4 Hw4. }
    intros [] w4 Hw4. msimpl. by apply (P_position w4 Hw4).
  - destruct (negb _); [|done]. msimpl. by apply (P_position w3 Hw3).
Qed.

Lemma frame_nextNode_rec depth : forall elementId w,
  P w -> post (fun _ => P) (nextNode_rec H depth elementId w).
Proof.
  induction depth as [|d IH]; intros elementId w Hw; cbn [nextNode_rec]; [done|].
  unfold nextNode_step. rewrite bind_bind.
  eapply post_bind; [by apply frame_depart|]. intros [s|currentNode] w1 Hw1; msimpl.
  - destruct s; [done|by apply IH].
  - eapply post_bind; [by apply frame_arrive|]. intros [o|] w2 Hw2; [done|by apply IH].
Qed.

Lemma frame_perform c w : P w -> post (fun _ => P) (perform H c w).
Proof.
  intros Hw. destruct c as [elementId|element force_eval|nodeId]; cbn [perform].
  - eapply post_bind; [by apply frame_nextNode_rec|]. by intros o w1 Hw1.
  - eapply post_bind; [by apply frame_getParsedText|]. by intros o w1 Hw1.
  - eapply post_bind; [by apply frame_getAvailableChoices|]. by intros o w1 Hw1.
Qed.

End Frame.

Lemma same_graph_node w0 w g r :
  (forall n, node_frame (g n) = node_frame n) ->
  same_graph w0 w -> same_graph w0 (with_project (alter_node g r (_project w)) w).
Proof.
  intros Hg Hw r'. cbn. rewrite node_at_alter_node, <- Hw.
  destruct (node_at (_project w) r') as [n|]; [|done]. cbn. f_equal.
  case_decide; [apply Hg|done].
Qed.

(** No call of the host changes the frame of a node -- its id, its type,
    its cycle type, its connections, its jump target -- nor the locale:
    [nextNode], [getParsedText] and [getAvailableChoices] write into the
    elements of the nodes and into [_previousNodeId] only. *)
Theorem calls_keep_the_graph (H : Host) (c : Call) (w : World) (a : Answer) (w' : World) :
  perform H c w = Ok (a, w') ->
  same_graph w w' /\ _locale w' = _locale w.
Proof.
  intros Hrun.
  assert (post (fun _ w1 => same_graph w w1 /\ _locale w1 = _locale w) (perform H c w))
    as Hpost.
  { apply (frame_perform H (fun w1 => same_graph w w1 /\ _locale w1 = _locale w)).
    - intros w1 g r Hg [Hs Hl]. split; [by apply same_graph_node|done].
    - by intros w1 ls [Hs Hl].
    - by intros w1 g l [Hs Hl].
    - by intros w1 vs [Hs Hl].
    - by intros w1 t [Hs Hl].
    - by intros w1 [Hs Hl].
    - by split. }
  exact (post_ok _ _ _ _ Hpost Hrun).
Qed.

(** Rendering does not advance the story: [getParsedText] leaves the
    cursor, the stack of sub-flows, the jump flag and the locale as they
    are, whatever the element and the markup of its text. *)
Theorem getParsedText_keeps_the_position (H : Host) (element : option ElemRef)
    (force_eval : bool) (w : World) (t : string) (w' : World) :
  getParsedText H element force_eval w = Ok (t, w') ->
  story_position w' = story_position w.
Proof.
  intros Hrun.
  assert (post (fun _ w1 => story_position w1 = story_position w)
            (getParsedText H element force_eval w)) as Hpost.
  { apply (frame_getParsedText H (fun w1 => story_position w1 = story_position w));
      unfold registry_stable; intros; first [assumption|reflexivity]. }
  exact (post_ok _ _ _ _ Hpost Hrun).
Qed.

(** Nor does listing the choices: [getAvailableChoices] leaves the cursor,
    the stack of sub-flows, the jump flag and the locale as they are. *)
Theorem getAvailableChoices_keeps_the_position (H : Host) (nodeId : option string)
    (w : World) (l : list ElemRef) (w' : World) :
  getAvailableChoices H nodeId w = Ok (l, w') ->
  story_position w' = story_position w.
Proof.
  intros Hrun.
  assert (post (fun _ w1 => story_position w1 = story_position w)
            (getAvailableChoices H nodeId w)) as Hpost.
  { apply (frame_getAvailableChoices H (fun w1 => story_position w1 = story_position w));
      unfold registry_stable; intros; first [assumption|reflexivity]. }
  exact (post_ok _ _ _ _ Hpost Hrun).
Qed.

(** ** What [nextNode] hands back *)

Lemma post_True {A} (r : result (A * World)) : post (fun _ _ => True) r.
Proof. by destruct r as [[a w]|e]. Qed.

Lemma post_bind_eq {A B} (Q : B -> World -> Prop) (m : M A) (k : A -> M B) w :
  (forall a w1, m w = Ok (a, w1) -> post Q (k a w1)) -> post Q (bind m k w).
Proof. unfold bind. intros Hk. destruct (m w) as [[a w1]|e]; [by apply Hk|done]. Qed.

Lemma framed_node r fr w g r' :
  (forall n, node_frame (g n) = node_frame n) ->
  framed r fr w -> framed r fr (with_project (alter_node g r' (_project w)) w).
Proof.
  intros Hg Hw. unfold framed in *. cbn. rewrite node_at_alter_node.
  destruct (node_at (_project w) r) as [n|]; [|done]. cbn in *. rewrite <- Hw. f_equal.
  case_decide; [apply Hg|done].
Qed.

Ltac framed_frame :=
  first [ apply framed_node
        | unfold registry_stable; intros;
          first [assumption | repeat split; intros; assumption] ].

Lemma enter_target_framed currentNode w :
  post (fun tn w1 => framed tn.1 (node_frame tn.2) w1) (enter_target currentNode w).
Proof.
  unfold enter_target. msimpl. apply post_bind_eq. intros t w1 Ht.
  destruct t as [[tr n]|]; [|done]. apply getNode_node_at in Ht as [-> Hat].
  unfold write_node. msimpl. unfold ret, framed. cbn.
  rewrite node_at_alter_node, Hat. cbn. by rewrite decide_True.
Qed.

Lemma arrive_outcome (H : Host) currentNode w :
  post (fun s w1 => match s with
                    | Return (RNode r) => emitted r w1
                    | Return _ => False
                    | Again => True
                    end)
    (arrive H currentNode w).
Proof.
  unfold arrive.
  eapply post_bind; [apply enter_target_framed|]. intros [tr n] w1 Ht. cbn in Ht.
  eapply post_bind with (Q1 := fun _ => framed tr (node_frame n)).
  { destruct (same _ _); [|done].
    eapply post_bind;
      [apply (frame_getAvailableChoices H (framed tr (node_frame n))); framed_frame|].
    intros avail w2 Ht2. destruct avail; [|done].
    destruct (getFailedConnection n); [|done]. msimpl.
    eapply post_bind;
      [apply (frame_enter_target (framed tr (node_frame n))); framed_frame|].
    by intros x w3 Hw3. }
  intros exhausted w2 Ht2. destruct exhausted; [done|]. msimpl.
  destruct (passes_through (node_type n)) eqn:Hp; [done|].
  unfold ret, post, emitted, framed in *. cbn.
  destruct (node_at (_project w2) tr) as [n2|]; [|done]. exists n2. split; [done|].
  left. injection Ht2 as _ Htype _ _ _ _. by rewrite Htype.
Qed.

Lemma depart_outcome (H : Host) elementId w :
  post (fun d w1 => match d with
                    | Stop (Return (RNode r)) => emitted r w1
                    | Stop (Return _) => _selectedNodeId w1 = Some THE_END
                    | _ => True
                    end)
    (depart H elementId w).
Proof.
  unfold depart. msimpl.
  destruct (same (_selectedNodeId w) (Some THE_END)) eqn:Hend; [by apply same_true in Hend|].
  eapply post_bind with (Q1 := fun _ _ => True); [apply post_True|]. intros [] w1 _. msimpl.
  apply post_bind_eq. intros c w2 Hc. destruct c as [[cr currentNode]|]; [|done].
  apply getNode_node_at in Hc as [-> Hat]. msimpl.
  eapply post_bind; [apply getNodeElement_pure|]. intros nodeElement w2 ->.
  eapply post_bind.
  { apply (frame_getAvailableConnections H (framed cr (node_frame currentNode)));
      try framed_frame.
    unfold framed. by rewrite Hat. }
  intros connection w2 Ht2. cbv zeta. msimpl.
  eapply post_bind with (Q1 := fun unset w3 => unset = true -> emitted cr w3).
  { destruct (_ && _).
    - eapply post_bind with (Q1 := fun _ _ => True); [apply post_True|]. intros [] w3 _.
      eapply post_bind with (Q1 := fun _ _ => True); [apply post_True|]. by intros t w4 _.
    - destruct (same (node_type currentNode) NodeType.jumpToNode) eqn:Hj.
      + apply same_true in Hj. destruct (node_jumpTo currentNode) as [j|] eqn:Hjump; [|done].
        msimpl. destruct (negb (nodeExists _ _ w2)) eqn:Hex; [|by msimpl].
        intros _. unfold emitted, framed in *.
        destruct (node_at (_project w2) cr) as [n2|]; [|done]. exists n2. split; [done|].
        right. injection Ht2 as _ Htype _ _ Hjt _.
        split; [by rewrite Htype|].
        exists j. split; [by rewrite Hjt|].
        by apply negb_true_iff in Hex.
      + destruct nodeElement as [er|]; [|done]. unfold write_elem. by msimpl. }
  intros unset w3 Hu. destruct unset; [by apply Hu|]. msimpl.
  destruct (_ && _).
  - destruct (activeSubFlows w3) as [|subFlow rest]; [by msimpl|].
    eapply post_bind with (Q1 := fun _ _ => True); [apply post_True|]. by intros [] w4 _.
  - eapply post_bind with (Q1 := fun _ _ => True); [apply post_True|]. by intros [] w4 _.
Qed.

Lemma nextNode_rec_outcome (H : Host) depth : forall elementId w,
  post (fun o w' => match o with
                    | RNode r => emitted r w'
                    | _ => _selectedNodeId w' = Some THE_END
                    end)
    (nextNode_rec H depth elementId w).
Proof.
  induction depth as [|d IH]; intros elementId w; cbn [nextNode_rec]; [done|].
  unfold nextNode_step. rewrite bind_bind.
  eapply post_bind; [apply depart_outcome|]. intros [s|currentNode] w1 Hd; msimpl.
  - destruct s as [o|]; [by destruct o|apply IH].
  - eapply post_bind; [apply arrive_outcome|]. intros [o|] w2 Ha; [by destruct o|apply IH].
Qed.

(** A node that [nextNode] hands back is of a type that the walk does not
    pass through -- a text, a choice, a fail condition or a label -- or
    it is a jump node whose target does not exist.  A start, note,
    sequence, random, variables, layout, sub-flow or condition node is
    never handed back. *)
Theorem nextNode_hands_back_no_inner_node (H : Host) (elementId : option string)
    (w : World) (r : NodeRef) (w' : World) :
  nextNode H elementId w = Ok (RNode r, w') ->
  emitted r w'.
Proof.
  intros Hrun. exact (post_ok _ _ _ _ (nextNode_rec_outcome H call_depth elementId w) Hrun).
Qed.

Lemma nextNode_at_the_end (H : Host) elementId w :
  _selectedNodeId w = Some THE_END -> nextNode H elementId w = Ok (RNull, w).
Proof.
  intros Hend. rewrite nextNode_unfold. unfold nextNode_step, depart. msimpl.
  rewrite Hend. reflexivity.
Qed.

(** Once [nextNode] has answered [false] or [null], the story is over:
    the cursor stands on the end mark, and every later call answers [null]
    and changes nothing. *)
Theorem nextNode_is_over_after_the_end (H : Host) (elementId : option string)
    (w : World) (o : Outcome) (w' : World) :
  nextNode H elementId w = Ok (o, w') ->
  (forall r, o <> RNode r) ->
  _selectedNodeId w' = Some THE_END
  /\ forall elementId', nextNode H elementId' w' = Ok (RNull, w').
Proof.
  intros Hrun Hnot.
  pose proof (post_ok _ _ _ _ (nextNode_rec_outcome H call_depth elementId w) Hrun) as Hend.
  assert (_selectedNodeId w' = Some THE_END) as Hsel.
  { destruct o as [| |r]; [done|done|]. by destruct (Hnot r). }
  split; [exact Hsel|]. intros e'. by apply nextNode_at_the_end.
Qed.

Lemma nextNode_hands_back_no_inner_node_witness : emitted (0, 1) Ex.at_list.
Proof.
  apply (nextNode_hands_back_no_inner_node (Ex.host 0) None Ex.listing_loaded (0, 1) Ex.at_list).
  vm_compute. reflexivity.
Defined.

Lemma nextNode_is_over_after_the_end_witness :
  _selectedNodeId Ex.list_over = Some THE_END
  /\ forall elementId', nextNode (Ex.host 0) elementId' Ex.list_over = Ok (RNull, Ex.list_over).
Proof.
  apply (nextNode_is_over_after_the_end (Ex.host 0) None Ex.at_list RFalse Ex.list_over).
  - vm_compute. reflexivity.
  - discriminate.
Defined.

Lemma calls_keep_the_graph_witness :
  same_graph Ex.listing_loaded Ex.at_list /\ _locale Ex.at_list = _locale Ex.listing_loaded.
Proof.
  apply (calls_keep_the_graph (Ex.host 0) (CallNextNode None) Ex.listing_loaded
           (ANode (RNode (0, 1))) Ex.at_list).
  vm_compute. reflexivity.
Defined.

Lemma getParsedText_keeps_the_position_witness :
  story_position Ex.list_rendered = story_position Ex.at_list.
Proof.
  apply (getParsedText_keeps_the_position (Ex.host 0) None false Ex.at_list "A"
           Ex.list_rendered).
  vm_compute. reflexivity.
Defined.

Lemma getAvailableChoices_keeps_the_position_witness :
  story_position Ex.fallback_listed = story_position Ex.exhausted.
Proof.
  apply (getAvailableChoices_keeps_the_position (Ex.host 0) (Some "c") Ex.exhausted
           [(0, 1, 2)] Ex.fallback_listed).
  vm_compute. reflexivity.
Defined.

Lemma getNodeElement_first_with_id_witness :
  Ex.exhausted = Ex.exhausted
  /\ exists r node,
       getNode (Some "c") None Ex.exhausted = Ok (Some (r, node), Ex.exhausted)
       /\ (0, 1, 1).1 = r
       /\ exists e, first_such (fun x => Some (el_id x) = Some "e2")
                      (node_elements node) (0, 1, 1).2 e.
Proof.
  apply (getNodeElement_first_with_id "c" (Some "e2") Ex.exhausted (Some (0, 1, 1))
           Ex.exhausted).
  vm_compute. reflexivity.
Defined.

(** ** The variation switch *)

(** [pick] is the turn of the loop of [parsedText] on a block. *)
Lemma variation_step_pick (H : Host) elementId output idx variation w k pv :
  getElementVariations elementId w !! idx = Some (k, pv) ->
  variation_step H elementId (output, idx) variation w
  = (let* c := pick H k (variation_options (variation_body variation)) in
     ret (JS.replaceAll variation ("<variation>" ++ text_or_undefined c ++ "</variation>")
            output, S idx)) w.
Proof.
  intros Hk. unfold variation_step, pick. msimpl. rewrite Hk. msimpl.
  apply filter_from_lookup in Hk as [_ Hk]. rewrite Nat.sub_0_r in Hk. rewrite Hk.
  reflexivity.
Qed.

Lemma registry_after_write k vs w pv :
  _variations w !! k = Some pv ->
  _variations (with_variations (alter (set_values vs) k (_variations w)) w) !! k
  = Some (set_values vs pv).
Proof. intros Hk. cbn. by rewrite list_lookup_alter_eq, Hk. Qed.

(** A LOOP variation goes round the options: with [i] of the options
    already taken in this round, the [j]-th rendering that follows shows
    the option [(i + j) mod n]. *)
Theorem loop_variation_goes_round (H : Host) (k : nat) (opts : list string) (m : nat) :
  forall (w : World) (pv : Variation) (i : nat),
  _variations w !! k = Some pv ->
  vn_type pv = "LOOP" ->
  i < List.length opts ->
  vn_values pv = drop i opts ->
  exists w',
    picks H k opts m w
    = Ok ((fun j => opts !! ((i + j) mod List.length opts)) <$> seq 0 m, w').
Proof.
  induction m as [|m IH]; intros w pv i Hk Htype Hi Hvals.
  - eexists. reflexivity.
  - destruct (lookup_lt_is_Some_2 opts i Hi) as [x Hx].
    assert (vn_values pv = x :: drop (S i) opts) as Hcons.
    { rewrite Hvals. by apply drop_S. }
    set (vs' := match drop (S i) opts with [] => opts | vs => vs end).
    set (i' := if decide (S i < List.length opts) then S i else 0).
    assert (vs' = drop i' opts /\ i' < List.length opts
            /\ i' = (i + 1) mod List.length opts) as (Hvs' & Hi' & Hmod).
    { unfold vs', i'. case_decide as Hlt.
      - split; [|split; [lia|]].
        + destruct (drop (S i) opts) eqn:Hd; [|done].
          apply (f_equal List.length) in Hd. rewrite length_drop in Hd. cbn in Hd. lia.
        + rewrite Nat.mod_small by lia. lia.
      - split; [|split; [lia|]].
        + rewrite drop_ge by lia. reflexivity.
        + assert (i + 1 = List.length opts) as -> by lia. by rewrite Nat.Div0.mod_same. }
    destruct (IH (with_variations (alter (set_values vs') k (_variations w)) w)
                (set_values vs' pv) i') as [w' Hrest]; try done.
    { by apply registry_after_write. }
    exists w'. cbn [picks]. unfold pick at 1. rewrite bind_bind. msimpl. rewrite Hk. msimpl.
    unfold variationContent. rewrite Htype. cbn [String.eqb Ascii.eqb Bool.eqb].
    unfold write_values. msimpl. rewrite Hcons. cbn [tail head]. fold vs'.
    rewrite (bind_ok _ _ _ _ _ Hrest). unfold ret. f_equal. f_equal.
    cbn [seq fmap list_fmap]. f_equal.
    + rewrite Nat.add_0_r, Nat.mod_small by lia. by rewrite Hx.
    + rewrite <- fmap_S_seq, <- list_fmap_compose. apply list_fmap_ext.
      intros _ j _. unfold compose. f_equal. rewrite Hmod.
      rewrite Nat.Div0.add_mod_idemp_l. f_equal. lia.
Qed.

(** A LIST variation shows the values that are left, in order, and the
    last option of the block once they are used up -- and also in the place
    of a value that is the empty string. *)
Theorem list_variation_ends_on_last_option (H : Host) (k : nat) (opts : list string)
    (m : nat) :
  forall (w : World) (pv : Variation),
  _variations w !! k = Some pv ->
  vn_type pv = "LIST" ->
  exists w',
    picks H k opts m w
    = Ok ((fun j => match vn_values pv !! j with
                    | Some x => if String.eqb x EmptyString then last opts else Some x
                    | None => last opts
                    end) <$> seq 0 m, w').
Proof.
  induction m as [|m IH]; intros w pv Hk Htype.
  - eexists. reflexivity.
  - destruct (IH (with_variations (alter (set_values (tail (vn_values pv))) k (_variations w)) w)
                (set_values (tail (vn_values pv)) pv)) as [w' Hrest]; try done.
    { by apply registry_after_write. }
    exists w'. cbn [picks]. unfold pick at 1. rewrite bind_bind. msimpl. rewrite Hk. msimpl.
    unfold variationContent. rewrite Htype. cbn [String.eqb Ascii.eqb Bool.eqb].
    unfold write_values. msimpl.
    rewrite (bind_ok _ _ _ _ _ Hrest). unfold ret. f_equal. f_equal.
    cbn [seq fmap list_fmap]. f_equal.
    + unfold falsy_text. destruct (vn_values pv) as [|x vs]; [done|]. cbn.
      by destruct (String.eqb x EmptyString).
    + rewrite <- fmap_S_seq, <- list_fmap_compose. apply list_fmap_ext.
      intros _ j _. unfold compose. cbn [vn_values set_values].
      by destruct (vn_values pv).
Qed.

Lemma picks_S (H : Host) k opts m w :
  picks H k opts (S m) w
  = (let* c := pick H k opts in
     let* rest := picks H k opts m in
     ret (c :: rest)) w.
Proof. reflexivity. Qed.

(** An SRND variation draws without repetition: as many renderings as
    there are values left show each of these values once, in some order,
    whatever the draws; the values are then those of the block again. *)
Theorem srnd_variation_shows_each_value_once (H : Host) (k : nat) (opts : list string) :
  draws_in_range H ->
  forall (n : nat) (w : World) (pv : Variation),
  _variations w !! k = Some pv ->
  vn_type pv = "SRND" ->
  List.length (vn_values pv) = S n ->
  exists l w' pv',
    picks H k opts (S n) w = Ok (Some <$> l, w')
    /\ l ≡ₚ vn_values pv
    /\ _variations w' !! k = Some pv'
    /\ vn_type pv' = "SRND"
    /\ vn_values pv' = opts.
Proof.
  intros Hrange. induction n as [|n IH]; intros w pv Hk Htype Hlen.
  - destruct (vn_values pv) as [|x [|y vs]] eqn:Hvals; try discriminate.
    exists [x]. eexists _, (set_values opts pv). cbn [picks]. unfold pick. rewrite bind_bind. msimpl.
    rewrite Hk. msimpl. unfold variationContent. rewrite Htype.
    cbn [String.eqb Ascii.eqb Bool.eqb]. unfold random_below at 1. rewrite bind_bind.
    unfold bind at 1. rewrite Hvals. cbn [List.length].
    assert (random_index H (rnd_tick w) 1 = 0) as -> by (pose proof (Hrange (rnd_tick w) 1); lia).
    unfold write_values. msimpl. cbn [delete list_delete lookup list_lookup].
    split; [reflexivity|]. split; [reflexivity|]. split; [|by split].
    cbn. rewrite list_lookup_alter_eq, Hk. reflexivity.
  - pose proof (Hrange (rnd_tick w) (S (S n)) ltac:(lia)) as Hi.
    set (i := random_index H (rnd_tick w) (S (S n))) in *.
    destruct (lookup_lt_is_Some_2 (vn_values pv) i ltac:(lia)) as [x Hx].
    assert (List.length (delete i (vn_values pv)) = S n) as Hdl.
    { rewrite length_delete by (by exists x). lia. }
    destruct (delete i (vn_values pv)) as [|y vs'] eqn:Hdel; [discriminate|].
    set (w1 := with_variations (alter (set_values (y :: vs')) k (_variations w))
                 (with_rnd_tick (S (rnd_tick w)) w)).
    destruct (IH w1 (set_values (y :: vs') pv)) as (l & w' & pv' & Hrest & Hperm & Hk' & Ht' & Hv');
      try done.
    { unfold w1. cbn. by rewrite list_lookup_alter_eq, Hk. }
    exists (x :: l), w', pv'. split; [|split; [|done]].
    + rewrite picks_S. unfold pick at 1. rewrite bind_bind. msimpl. rewrite Hk. msimpl.
      unfold variationContent. rewrite Htype. cbn [String.eqb Ascii.eqb Bool.eqb].
      unfold random_below at 1. rewrite !bind_bind. unfold bind at 1. rewrite Hlen. fold i.
      unfold write_values. msimpl. rewrite Hdel.
      change (with_variations _ _) with w1.
      rewrite (bind_ok _ _ _ _ _ Hrest). unfold ret. by rewrite Hx.
    + cbn [vn_values set_values] in Hperm. rewrite Hperm, <- Hdel.
      symmetry. by apply delete_Permutation.
Qed.

Lemma srnd_variation_shows_each_value_once_witness :
  exists l w' pv',
    picks (Ex.host 1) 0 [" a"; "b"; "c"] 3 Ex.srnd_loaded = Ok (Some <$> l, w')
    /\ l ≡ₚ [" a"; "b"; "c"]
    /\ _variations w' !! 0 = Some pv'
    /\ vn_type pv' = "SRND"
    /\ vn_values pv' = [" a"; "b"; "c"].
Proof.
  assert (draws_in_range (Ex.host 1)) as Hrange.
  { intros tick n Hn.
    change (random_index (Ex.host 1) tick n) with (if Nat.ltb 1 n then 1 else 0).
    destruct (Nat.ltb 1 n) eqn:Hlt; [apply Nat.ltb_lt in Hlt; lia|lia]. }
  apply (srnd_variation_shows_each_value_once (Ex.host 1) 0 [" a"; "b"; "c"] Hrange 2
           Ex.srnd_loaded
           {| vn_index := 0; vn_type := "SRND"; vn_values := [" a"; "b"; "c"];
              vn_elementId := "e1" |}).
  - vm_compute. reflexivity.
  - reflexivity.
  - reflexivity.
Defined.

Lemma loop_variation_goes_round_witness :
  exists w',
    picks (Ex.host 0) 0 [" a"; "b"; "c"] 5 Ex.loop_loaded
    = Ok ([Some " a"; Some "b"; Some "c"; Some " a"; Some "b"], w').
Proof.
  apply (loop_variation_goes_round (Ex.host 0) 0 [" a"; "b"; "c"] 5 Ex.loop_loaded
           {| vn_index := 0; vn_type := "LOOP"; vn_values := [" a"; "b"; "c"];
              vn_elementId := "e1" |} 0).
  - vm_compute. reflexivity.
  - reflexivity.
  - cbn. lia.
  - reflexivity.
Defined.

Lemma list_variation_ends_on_last_option_witness :
  exists w',
    picks (Ex.host 0) 0 [" a"; "b"; "c"] 5 Ex.list_loaded
    = Ok ([Some " a"; Some "b"; Some "c"; Some "c"; Some "c"], w').
Proof.
  apply (list_variation_ends_on_last_option (Ex.host 0) 0 [" a"; "b"; "c"] 5 Ex.list_loaded
           {| vn_index := 0; vn_type := "LIST"; vn_values := [" a"; "b"; "c"];
              vn_elementId := "e1" |}).
  - vm_compute. reflexivity.
  - reflexivity.
Defined.

(** ** The names of the variables *)

Lemma scan_matches (len_at : string -> option nat) (s : string) : forall skip x,
  x ∈ JS.scan len_at skip s ->
  exists s' n, len_at s' = Some n /\ x = JS.stake n s'.
Proof.
  induction s as [|a s IH]; intros skip x; cbn [JS.scan].
  - intros Hx. by apply elem_of_nil in Hx.
  - destruct skip as [|k]; [|apply IH].
    destruct (len_at (String a s)) as [len|] eqn:Hlen; [|apply IH].
    intros [->|Hx]%elem_of_cons; [eauto|by eapply IH].
Qed.

Lemma stake_span (p : ascii -> bool) (s : string) :
  JS.span p (JS.stake (JS.span p s) s) = String.length (JS.stake (JS.span p s) s).
Proof.
  induction s as [|a s IH]; [reflexivity|]. cbn [JS.span].
  destruct (p a) eqn:Hp; [|reflexivity]. cbn [JS.stake JS.span String.length].
  by rewrite Hp, IH.
Qed.

(** Every name that [findGlobalVariables] finds is a dollar sign, a
    letter, and one or more letters, digits or underscores: the name after
    the dollar sign has two characters at least, so that a variable with a
    one-letter name is never found. *)
Theorem findGlobalVariables_names (s : string) :
  forall v, v ∈ JS.findGlobalVariables s ->
  exists c rest,
    v = String "$" (String c rest)
    /\ JS.is_alpha c = true
    /\ 0 < String.length rest
    /\ JS.span JS.is_word rest = String.length rest.
Proof.
  intros v Hv. apply scan_matches in Hv as (s' & n & Hat & ->).
  unfold JS.global_at in Hat.
  destruct s' as [|d [|c rest]]; try discriminate.
  { destruct d as [[] [] [] [] [] [] [] []]; discriminate. }
  destruct (Ascii.eqb d "$") eqn:Hd.
  - apply Ascii.eqb_eq in Hd as ->.
    destruct (JS.is_alpha c) eqn:Hc; [|discriminate].
    destruct (JS.span JS.is_word rest) as [|k] eqn:Hspan; [discriminate|].
    injection Hat as <-. exists c, (JS.stake (S k) rest).
    split; [reflexivity|]. split; [done|]. rewrite <- Hspan.
    split; [|apply stake_span].
    destruct rest as [|b rest]; [discriminate|]. cbn [JS.span] in *.
    destruct (JS.is_word b); [|discriminate]. cbn. lia.
  - exfalso. apply Ascii.eqb_neq in Hd.
    destruct d as [[] [] [] [] [] [] [] []]; try discriminate. by apply Hd.
Qed.

(** ** Texts without markup *)

Lemma has_char_sdrop c n s : has_char c s = false -> has_char c (JS.sdrop n s) = false.
Proof.
  revert s. induction n as [|n IH]; intros s Hs; [done|].
  destruct s as [|a s]; [done|]. cbn in *. apply orb_false_iff in Hs as [_ Hs]. by apply IH.
Qed.

Lemma has_char_srev_onto c s : forall acc,
  has_char c (JS.srev_onto s acc) = has_char c s || has_char c acc.
Proof.
  induction s as [|a s IH]; intros acc; [done|]. cbn. rewrite IH. cbn.
  by destruct (Ascii.eqb a c), (has_char c s), (has_char c acc).
Qed.

Lemma has_char_trim c s : has_char c s = false -> has_char c (JS.trim s) = false.
Proof.
  intros Hs. unfold JS.trim, JS.trim_end, JS.trim_start, JS.strip_run, JS.srev.
  rewrite has_char_srev_onto, orb_false_r. apply has_char_sdrop.
  rewrite has_char_srev_onto, orb_false_r. by apply has_char_sdrop.
Qed.

Lemma no_prefix_without_head c p s :
  has_char c s = false -> String.prefix (String c p) s = false.
Proof.
  destruct s as [|a s]; [done|]. cbn. intros [Ha _]%orb_false_iff.
  destruct (Ascii.ascii_dec c a) as [->|Hne]; [by rewrite Ascii.eqb_refl in Ha|done].
Qed.

Lemma lower_bracket b : Ascii.eqb (JS.lower "[") (JS.lower b) = true -> b = "["%char.
Proof. destruct b as [[] [] [] [] [] [] [] []]; vm_compute; congruence. Qed.

Lemma lower_brace b : Ascii.eqb (JS.lower "{") (JS.lower b) = true -> b = "{"%char.
Proof. destruct b as [[] [] [] [] [] [] [] []]; vm_compute; congruence. Qed.

Lemma no_start_without_head c p s :
  (forall b, Ascii.eqb (JS.lower c) (JS.lower b) = true -> b = c) ->
  has_char c s = false -> JS.starts true (String c p) s = false.
Proof.
  intros Hc. destruct s as [|a s]; [done|]. cbn. intros [Ha _]%orb_false_iff.
  destruct (Ascii.eqb (JS.lower c) (JS.lower a)) eqn:Hl; [|done].
  apply Hc in Hl as ->. by rewrite Ascii.eqb_refl in Ha.
Qed.

Lemma has_char_tail c a s : has_char c (String a s) = false -> has_char c s = false.
Proof. cbn. by intros [_ Hs]%orb_false_iff. Qed.

Lemma no_blocks_without_head c p cls s :
  (forall b, Ascii.eqb (JS.lower c) (JS.lower b) = true -> b = c) ->
  has_char c s = false -> JS.lazy_blocks true (String c p) cls s = [].
Proof.
  intros Hc. unfold JS.lazy_blocks. induction s as [|a s IH]; intros Hs; [done|].
  cbn [JS.lazy_blocks_from]. rewrite (no_start_without_head c p _ Hc Hs).
  apply IH. by eapply has_char_tail.
Qed.

Lemma no_occurrences_without_head c p s :
  has_char c s = false -> JS.occurrences_from (String c p) 0 s = [].
Proof.
  induction s as [|a s IH]; intros Hs; [done|].
  cbn [JS.occurrences_from]. rewrite (no_prefix_without_head c p _ Hs).
  apply IH. by eapply has_char_tail.
Qed.

Lemma replace_lit_without_head c p rep s :
  has_char c s = false -> JS.replace_lit false (String c p) rep s = s.
Proof.
  unfold JS.replace_lit. induction s as [|a s IH]; intros Hs; [done|].
  cbn [JS.replace_lit_from JS.starts]. rewrite (no_prefix_without_head c p _ Hs).
  f_equal. apply IH. by eapply has_char_tail.
Qed.

Lemma br_at_without_tag s : has_char "<" s = false -> JS.br_at s = None.
Proof. intros Hs. unfold JS.br_at. by rewrite (no_prefix_without_head "<" "br" _ Hs). Qed.

Lemma cut_where_never (at_end : string -> bool) s :
  (forall n, at_end (JS.sdrop n s) = false) -> JS.cut_where at_end s = s.
Proof.
  induction s as [|a s IH]; intros Hnever.
  - cbn [JS.cut_where]. by destruct (at_end EmptyString).
  - cbn [JS.cut_where]. pose proof (Hnever 0) as H0. cbn [JS.sdrop] in H0. rewrite H0.
    f_equal. apply IH.
    intros n. apply (Hnever (S n)).
Qed.

Lemma strip_br_without_tag s : has_char "<" s = false -> JS.strip_br s = s.
Proof.
  intros Hs. unfold JS.strip_br, JS.leading_br.
  rewrite (br_at_without_tag _ (has_char_sdrop _ _ _ Hs)). cbn [option_map].
  apply cut_where_never. intros n. unfold JS.trailing_br.
  by rewrite (br_at_without_tag _ (has_char_sdrop _ _ _ Hs)).
Qed.

Lemma spaced_br_at_without_tag s : has_char "<" s = false -> JS.spaced_br_at s = None.
Proof.
  intros Hs. unfold JS.spaced_br_at.
  by rewrite (no_prefix_without_head "<" "br" _ (has_char_sdrop _ _ _ Hs)).
Qed.

Lemma strip_spaced_br_without_tag s : has_char "<" s = false -> JS.strip_spaced_br s = s.
Proof.
  intros Hs. unfold JS.strip_spaced_br.
  assert (forall u, has_char "<" u = false -> JS.spaced_br_run (String.length u) u = 0) as Hrun.
  { intros u Hu. destruct (String.length u); [done|]. cbn [JS.spaced_br_run].
    by rewrite (spaced_br_at_without_tag _ Hu). }
  rewrite (Hrun s Hs). cbn [JS.sdrop]. apply cut_where_never. intros n.
  unfold JS.spaced_br_to_end. by rewrite (Hrun _ (has_char_sdrop _ _ _ Hs)).
Qed.

Lemma sappend_cons a (s t : string) : (String a s ++ t)%string = String a (s ++ t)%string.
Proof. reflexivity. Qed.

Lemma sappend_assoc (s t u : string) : ((s ++ t) ++ u)%string = (s ++ (t ++ u))%string.
Proof. induction s as [|a s IH]; [done|]. rewrite !sappend_cons. f_equal. exact IH. Qed.

Lemma sappend_empty (s : string) : (s ++ EmptyString)%string = s.
Proof. induction s as [|a s IH]; [done|]. rewrite sappend_cons. f_equal. exact IH. Qed.

Lemma srev_onto_app s : forall acc, JS.srev_onto s acc = (JS.srev s ++ acc)%string.
Proof.
  unfold JS.srev. induction s as [|a s IH]; intros acc; [done|]. cbn [JS.srev_onto].
  rewrite (IH (String a acc)), (IH (String a EmptyString)), sappend_assoc. reflexivity.
Qed.

Lemma srev_app s t : JS.srev (s ++ t)%string = (JS.srev t ++ JS.srev s)%string.
Proof.
  induction s as [|a s IH].
  - change (EmptyString ++ t)%string with t. by rewrite sappend_empty.
  - rewrite sappend_cons. unfold JS.srev at 1 3. cbn [JS.srev_onto].
    rewrite !(srev_onto_app _ (String a EmptyString)), IH, sappend_assoc. reflexivity.
Qed.

Lemma srev_involutive s : JS.srev (JS.srev s) = s.
Proof.
  induction s as [|a s IH]; [done|]. unfold JS.srev at 2. cbn [JS.srev_onto].
  rewrite srev_onto_app, srev_app, IH. reflexivity.
Qed.

Lemma stake_sdrop n s : (JS.stake n s ++ JS.sdrop n s)%string = s.
Proof.
  revert s. induction n as [|n IH]; intros s; [done|].
  destruct s as [|a s]; [done|]. cbn [JS.stake JS.sdrop]. rewrite sappend_cons. f_equal.
  apply IH.
Qed.

Lemma length_sdrop_le n s : String.length (JS.sdrop n s) <= String.length s.
Proof.
  revert s. induction n as [|n IH]; intros s; [done|].
  destruct s as [|a s]; [done|]. cbn. specialize (IH s). lia.
Qed.

Lemma sdrop_add a b s : JS.sdrop (a + b) s = JS.sdrop b (JS.sdrop a s).
Proof.
  revert s. induction a as [|a IH]; intros s; [done|].
  destruct s as [|c s]; [by destruct b|]. apply IH.
Qed.

Lemma prefix_empty c : String.prefix c EmptyString = true -> c = EmptyString.
Proof. by destruct c. Qed.

Lemma prefix_app_head c s t :
  String.prefix c s = true -> String.prefix c (s ++ t)%string = true.
Proof.
  revert s. induction c as [|a c IH]; intros s; [intros _; by destruct (s ++ t)%string|].
  destruct s as [|b s]; [done|]. rewrite sappend_cons. cbn [String.prefix].
  destruct (Ascii.ascii_dec a b); [apply IH|done].
Qed.

(** A string starts with no member of [chars] exactly when [char_at] is
    [0], the members being non-empty. *)
Lemma char_at_none chars s :
  forallb (fun c => Nat.ltb 0 (String.length c)) chars = true ->
  JS.char_at chars s = 0 <-> forall c, In c chars -> String.prefix c s = false.
Proof.
  intros Hne. unfold JS.char_at. split.
  - destruct (List.find _ chars) as [c|] eqn:Hfind.
    + apply find_some in Hfind as [Hin _]. intros Hlen.
      rewrite forallb_forall in Hne. apply Hne, Nat.ltb_lt in Hin. lia.
    + intros _. apply (find_none _ _ Hfind).
  - intros Hnone. destruct (List.find _ chars) as [c|] eqn:Hfind; [|done].
    apply find_some in Hfind as [Hin Hc]. by rewrite (Hnone c Hin) in Hc.
Qed.

Lemma char_at_empty chars : JS.char_at chars EmptyString = 0.
Proof.
  unfold JS.char_at. destruct (List.find _ chars) as [c|] eqn:Hfind; [|done].
  apply find_some in Hfind as [_ Hc]. by apply prefix_empty in Hc as ->.
Qed.

Lemma char_at_app_head chars s t :
  forallb (fun c => Nat.ltb 0 (String.length c)) chars = true ->
  JS.char_at chars (s ++ t)%string = 0 -> JS.char_at chars s = 0.
Proof.
  intros Hne Hst. apply (char_at_none _ _ Hne). intros c Hin.
  destruct (String.prefix c s) eqn:Hc; [|done].
  apply (prefix_app_head _ _ t) in Hc. by rewrite (proj1 (char_at_none _ _ Hne) Hst c Hin) in Hc.
Qed.

(** Past the longest run of members of [chars] there is none at the head. *)
Lemma run_stops chars : forall fuel s,
  String.length s <= fuel -> JS.char_at chars (JS.sdrop (JS.run chars fuel s) s) = 0.
Proof.
  induction fuel as [|fuel IH]; intros s Hlen.
  - destruct s; [apply char_at_empty|cbn in Hlen; lia].
  - cbn [JS.run]. destruct (JS.char_at chars s) as [|n] eqn:Hat; [exact Hat|].
    rewrite sdrop_add. apply IH. destruct s as [|a s]; [cbn; lia|].
    cbn [JS.sdrop]. pose proof (length_sdrop_le n s). cbn in Hlen. lia.
Qed.

Lemma strip_run_clean chars s : JS.char_at chars (JS.strip_run chars s) = 0.
Proof. unfold JS.strip_run. by apply run_stops. Qed.

Lemma strip_run_id chars s : JS.char_at chars s = 0 -> JS.strip_run chars s = s.
Proof.
  intros Hat. unfold JS.strip_run. destruct (String.length s); [done|].
  cbn [JS.run]. by rewrite Hat.
Qed.

Lemma white_space_not_empty :
  forallb (fun c => Nat.ltb 0 (String.length c)) JS.white_space = true.
Proof. vm_compute. reflexivity. Qed.

(** [trim] leaves a string that neither starts nor ends with white space,
    and that it trims to itself. *)
Lemma trim_clean s : JS.char_at JS.white_space (JS.trim s) = 0.
Proof.
  unfold JS.trim, JS.trim_end. set (t := JS.trim_start s). set (u := JS.srev t).
  set (k := JS.run (JS.srev <$> JS.white_space) (String.length u) u).
  apply (char_at_app_head _ _ (JS.srev (JS.stake k u)) white_space_not_empty).
  unfold JS.strip_run. fold k. rewrite <- srev_app, stake_sdrop. unfold u.
  rewrite srev_involutive. apply strip_run_clean.
Qed.

Lemma trim_trim s : JS.trim (JS.trim s) = JS.trim s.
Proof.
  unfold JS.trim at 1. unfold JS.trim_start at 1.
  rewrite (strip_run_id _ _ (trim_clean s)).
  unfold JS.trim, JS.trim_end. rewrite srev_involutive.
  by rewrite (strip_run_id _ _ (strip_run_clean _ _)).
Qed.

(** A text without markup is rendered as it is, trimmed: on an element
    that is neither a condition nor a variables element, whose text in the
    locale of the runtime has none of the characters that open a block, a
    tag or an entity, [getParsedText] answers that text without the white
    space at its ends, and leaves the flags of the elements as [kept] tells. *)
Theorem getParsedText_of_plain_text (H : Host) (r : ElemRef) (force_eval : bool)
    (w : World) (e : NodeElement) (t : string) (out : string) (w' : World) :
  elem_at (_project w) r = Some e ->
  el_type e <> Some NodeType.condition ->
  el_type e <> Some NodeType.variables ->
  localized (_locale w) e = Some t ->
  plain_text t = true ->
  getParsedText H (Some r) force_eval w = Ok (out, w') ->
  out = JS.trim t /\ kept w w'.
Proof.
  intros He Hcond Hvars Hloc Hplain Hrun.
  apply andb_true_iff in Hplain as [Hplain Hamp].
  apply andb_true_iff in Hplain as [Hplain Htag].
  apply andb_true_iff in Hplain as [Hbracket Hbrace].
  apply negb_true_iff in Hamp, Htag, Hbracket, Hbrace.
  revert Hrun. unfold getParsedText. msimpl.
  intros Hrun. apply bind_inv in Hrun as (p & wp & Hrun & Hout).
  injection Hout as <- <-. revert Hrun. unfold parsedText.
  intros Hrun. apply bind_inv in Hrun as (content & w1 & Hcontent & Hrun).
  pose proof (content_text_element r None w) as Hspec. rewrite Hcontent in Hspec.
  cbn [post default] in Hspec. destruct Hspec as (Hkept & e0 & He0 & Hloc0).
  assert (content = t) as -> by congruence.
  apply bind_inv in Hrun as (el & w2 & Hel & Hrun).
  pose proof (read_elem_spec r w1) as Hread. rewrite Hel in Hread. cbn [post] in Hread.
  destruct Hread as [-> Hel1].
  assert (el_type el = el_type e) as Htype.
  { destruct Hkept as [_ Hk]. specialize (Hk r). rewrite He, Hel1 in Hk.
    by destruct Hk as (_ & _ & ? & _). }
  revert Hrun.
  unfold JS.match_variations, JS.match_conditionals, JS.match_todos, JS.match_justOnce,
    JS.match_ifNoMore, JS.match_braces.
  rewrite !(no_blocks_without_head "[" _ _ _ lower_bracket Hbracket).
  rewrite !(no_occurrences_without_head "[" _ _ Hbracket).
  cbn [foldM forEach fold_left]. msimpl.
  rewrite (no_blocks_without_head "{" _ _ _ lower_brace Hbrace).
  assert (same (el_type el) (Some NodeType.condition)
          || same (el_type el) (Some NodeType.variables) = false) as ->.
  { rewrite Htype. apply orb_false_iff. split; by apply same_false. }
  cbn [foldM]. msimpl. unfold ret. intros [= <- <-]. split; [|exact Hkept].
  rewrite (replace_lit_without_head "&" _ _ _ Hamp).
  rewrite (strip_br_without_tag _ (has_char_trim _ _ Htag)), trim_trim.
  apply strip_spaced_br_without_tag. by apply has_char_trim.
Qed.

Lemma getParsedText_of_plain_text_witness :
  "Hi" = JS.trim (Ex.nbsp ++ "Hi" ++ Ex.nbsp) /\ kept Ex.at_padded Ex.padded_rendered.
Proof.
  apply (getParsedText_of_plain_text (Ex.host 0) (0, 1, 0) false Ex.at_padded
           Ex.at_padded_first (Ex.nbsp ++ "Hi" ++ Ex.nbsp) "Hi" Ex.padded_rendered).
  - reflexivity.
  - discriminate.
  - discriminate.
  - reflexivity.
  - reflexivity.
  - vm_compute. reflexivity.
Defined.

(** [trim] on the white space beyond ASCII: a line separator, a byte order
    mark, an ideographic space and a hair space go, a letter with an accent
    stays. *)
Example trim_strips_unicode_white_space :
  JS.trim (JS.utf8 [226; 128; 168; 32; 239; 187; 191] ++ JS.utf8 [195; 169] ++ "t"
           ++ JS.utf8 [195; 169] ++ JS.utf8 [227; 128; 128; 10; 226; 128; 138])
  = (JS.utf8 [195; 169] ++ "t" ++ JS.utf8 [195; 169])%string.
Proof. vm_compute. reflexivity. Qed.

(** ** Labels and contents *)


(** The resolver answers the last content of the element whose locale is
    the one asked for (the locale of the runtime when none is given), or
    [null] when the element has no content in that locale: it never answers
    a content of another locale, the main one included. *)
Theorem getLocalizedContent_last_of_the_locale (r : ElemRef) (code : option string)
    (w : World) (c : option ContentRef) (w' : World) :
  getLocalizedContent (Some (OfElement r)) code w = Ok (c, w') ->
  kept w w'
  /\ exists e,
       elem_at (_project w) r = Some e
       /\ match c with
          | Some (o, i) =>
              o = OfElement r
              /\ exists lc,
                   last_such (fun x => lc_localeCode x = default (_locale w) code)
                     (el_localizedContents e) i lc
          | None =>
              forall lc, lc ∈ el_localizedContents e ->
                lc_localeCode lc <> default (_locale w) code
          end.
Proof.
  unfold getLocalizedContent. msimpl. intros Hrun.
  pose proof (getLocalizedContent_element call_depth r (default (_locale w) code) w) as Hspec.
  rewrite Hrun in Hspec. cbn [post] in Hspec. destruct Hspec as (Hkept & e & He & ->).
  split; [exact Hkept|]. exists e. split; [exact He|].
  destruct (find_last _ (el_localizedContents e)) as [[i lc]|] eqn:Hf; cbn.
  - split; [reflexivity|]. exists lc.
    apply find_last_last_such in Hf as (Hl & Hp & Hafter).
    split; [done|]. split; [by apply String.eqb_eq|].
    intros j y Hy Hj Heq. apply (Hafter j y Hy Hj). by apply String.eqb_eq.
  - intros lc Hlc. apply String.eqb_neq. by apply (proj1 (find_last_None _ _) Hf).
Qed.

Lemma getLocalizedContent_last_of_the_locale_witness :
  kept Ex.at_list Ex.at_list_resolved
  /\ exists e,
       elem_at (_project Ex.at_list) (0, 1, 0) = Some e
       /\ forall lc, lc ∈ el_localizedContents e ->
            lc_localeCode lc <> default (_locale Ex.at_list) (Some "it").
Proof.
  apply (getLocalizedContent_last_of_the_locale (0, 1, 0) (Some "it") Ex.at_list None
           Ex.at_list_resolved).
  vm_compute. reflexivity.
Defined.

(** ** The links *)

Lemma elem_of_concat_imap {A B} (f : nat -> A -> list B) (l : list A) (y : B) :
  y ∈ List.concat (imap f l) <-> exists i x, l !! i = Some x /\ y ∈ f i x.
Proof.
  revert f. induction l as [|x l IH]; intros f; cbn.
  - split; [by intros Hy%elem_of_nil|by intros (i & z & Hz & _)].
  - rewrite elem_of_app, IH. split.
    + intros [Hy|(i & z & Hz & Hy)]; [by exists 0, x|by exists (S i), z].
    + intros (i & z & Hz & Hy). destruct i as [|i]; cbn in Hz.
      * left. by injection Hz as ->.
      * right. by exists i, z.
Qed.

Lemma filter_none {A} (p : A -> bool) (l : list A) :
  (forall y, y ∈ l -> p y = false) -> List.filter p l = [].
Proof.
  induction l as [|x l IH]; intros Hall; [reflexivity|]. cbn.
  rewrite (Hall x) by (by left). apply IH.
  intros y Hy. apply Hall. by right.
Qed.

(** The entries of a list built node by node: those that come from the
    node at one position are as many as that node gives, and the entries
    follow the order of the nodes. *)
Lemma concat_imap_blocks {A B} (key : B -> nat) (l : list A) :
  forall (g : nat -> A -> list B) (k : nat),
    (forall i x y, l !! i = Some x -> y ∈ g i x -> key y = k + i) ->
    (forall i x, l !! i = Some x ->
       List.length (List.filter (fun y => Nat.eqb (key y) (k + i)) (List.concat (imap g l)))
       = List.length (g i x))
    /\ (forall i j y z,
          i <= j ->
          List.concat (imap g l) !! i = Some y ->
          List.concat (imap g l) !! j = Some z ->
          key y <= key z).
Proof.
  induction l as [|x0 l IH]; intros g k Hkey; [by split|]. rename x0 into x0.
  assert (forall i x y, l !! i = Some x -> y ∈ (g ∘ S) i x -> key y = S k + i) as Hkey'.
  { intros i x y Hx Hy. rewrite (Hkey (S i) x y Hx Hy). lia. }
  destruct (IH (g ∘ S) (S k) Hkey') as [IHcount IHorder].
  assert (forall y, y ∈ List.concat (imap (g ∘ S) l) -> k < key y) as Hrest.
  { intros y Hy. apply elem_of_concat_imap in Hy as (i & x & Hx & Hy).
    rewrite (Hkey' i x y Hx Hy). lia. }
  assert (forall y, y ∈ g 0 x0 -> key y = k) as Hhead.
  { intros y Hy. rewrite (Hkey 0 x0 y eq_refl Hy). lia. }
  cbn [imap List.concat]. split.
  - intros i x Hx. rewrite List.filter_app, length_app. destruct i as [|i].
    + cbn in Hx. injection Hx as ->. rewrite Nat.add_0_r.
      rewrite (forallb_filter_id _ (g 0 x)).
      2:{ apply forallb_forall. intros y Hy%list_elem_of_In. apply Nat.eqb_eq. auto. }
      rewrite (filter_none _ (List.concat (imap (g ∘ S) l))).
      2:{ intros y Hy. apply Nat.eqb_neq. specialize (Hrest y Hy). lia. }
      cbn. lia.
    + cbn in Hx.
      rewrite (filter_none _ (g 0 x0)).
      2:{ intros y Hy. apply Nat.eqb_neq. rewrite (Hhead y Hy). lia. }
      replace (k + S i) with (S k + i) by lia. cbn [List.length Nat.add].
      by apply IHcount.
  - intros i j y z Hij Hy Hz.
    destruct (decide (j < List.length (g 0 x0))) as [Hj|Hj].
    + rewrite lookup_app_l in Hy by lia. rewrite lookup_app_l in Hz by lia.
      apply list_elem_of_lookup_2 in Hy, Hz. rewrite (Hhead y Hy), (Hhead z Hz). lia.
    + rewrite lookup_app_r in Hz by lia.
      destruct (decide (i < List.length (g 0 x0))) as [Hi|Hi].
      * rewrite lookup_app_l in Hy by lia.
        apply list_elem_of_lookup_2 in Hy, Hz. rewrite (Hhead y Hy).
        specialize (Hrest z Hz). lia.
      * rewrite lookup_app_r in Hy by lia. eapply IHorder; [|exact Hy|exact Hz]. lia.
Qed.

(** [getLinkingNodes] answers the nodes of the selected flow that have a
    connection to the node asked for (the current one when none is given),
    and no other; [getNodesLinkingTo] answers the same.  A node is listed
    once for each such connection: the entries for the node at a position
    are as many as its connections to the node asked for.  The entries
    follow the order of the nodes in the flow. *)
Theorem getLinkingNodes_are_the_sources (nodeId : option string) (w : World) fi f :
  getSelectedFlow w = Some (fi, f) ->
  exists l,
    getLinkingNodes nodeId w = Ok (l, w)
    /\ getNodesLinkingTo nodeId w = Ok (l, w)
    /\ (forall r n,
          (r, n) ∈ l
          <-> r.1 = fi /\ flow_nodes f !! r.2 = Some n
              /\ exists connection,
                   connection ∈ node_connections n
                   /\ conn_to connection = js_or nodeId (_selectedNodeId w))
    /\ (forall ni n,
          flow_nodes f !! ni = Some n ->
          List.length (List.filter (fun x : NodeRef * Node => Nat.eqb x.1.2 ni) l)
          = List.length
              (List.filter
                 (fun connection =>
                    same (conn_to connection) (js_or nodeId (_selectedNodeId w)))
                 (node_connections n)))
    /\ (forall i j x y,
          i <= j -> l !! i = Some x -> l !! j = Some y -> x.1.2 <= y.1.2).
Proof.
  intros Hf. unfold getLinkingNodes, getNodesLinkingTo. msimpl. rewrite Hf. msimpl.
  eexists. split; [reflexivity|]. split; [reflexivity|]. split.
  - intros [fi' ni] n. rewrite elem_of_concat_imap. split.
    + intros (i & x & Hx & Hin). apply list_elem_of_In, in_map_iff in Hin as (c & Heq & Hc).
      injection Heq as <- <- <-. apply filter_In in Hc as [Hc Hto].
      split; [done|]. split; [done|]. exists c. split; [by apply list_elem_of_In|].
      by apply same_true in Hto.
    + intros (Hfi & Hn & c & Hc & Hto). cbn in Hfi, Hn. subst fi'.
      exists ni, n. split; [done|]. apply list_elem_of_In, in_map_iff. exists c.
      split; [done|]. apply filter_In. split; [by apply list_elem_of_In|].
      unfold same. by apply bool_decide_eq_true.
  - set (g := fun (ni : nat) (node : Node) =>
                List.map (fun _ : Connection => ((fi, ni), node))
                  (List.filter
                     (fun connection =>
                        same (conn_to connection) (js_or nodeId (_selectedNodeId w)))
                     (node_connections node))).
    destruct (concat_imap_blocks (fun x : NodeRef * Node => x.1.2) (flow_nodes f) g 0)
      as [Hcount Horder].
    { intros i x y Hx Hy. apply list_elem_of_In, in_map_iff in Hy as (c & <- & _).
      reflexivity. }
    split; [|exact Horder].
    intros ni n Hn. specialize (Hcount ni n Hn). cbn [Nat.add] in Hcount.
    etransitivity; [exact Hcount|]. unfold g. apply length_map.
Qed.

Lemma getLinkingNodes_are_the_sources_witness :
  exists l,
    getLinkingNodes (Some "t") Ex.at_list = Ok (l, Ex.at_list)
    /\ getNodesLinkingTo (Some "t") Ex.at_list = Ok (l, Ex.at_list)
    /\ (forall r n,
          (r, n) ∈ l
          <-> r.1 = 0 /\ flow_nodes Ex.at_list_flow !! r.2 = Some n
              /\ exists connection,
                   connection ∈ node_connections n
                   /\ conn_to connection = js_or (Some "t") (_selectedNodeId Ex.at_list))
    /\ (forall ni n,
          flow_nodes Ex.at_list_flow !! ni = Some n ->
          List.length (List.filter (fun x : NodeRef * Node => Nat.eqb x.1.2 ni) l)
          = List.length
              (List.filter
                 (fun connection =>
                    same (conn_to connection) (js_or (Some "t") (_selectedNodeId Ex.at_list)))
                 (node_connections n)))
    /\ (forall i j x y,
          i <= j -> l !! i = Some x -> l !! j = Some y -> x.1.2 <= y.1.2).
Proof.
  apply (getLinkingNodes_are_the_sources (Some "t") Ex.at_list 0 Ex.at_list_flow).
  vm_compute. reflexivity.
Defined.


(** A start node with two connections to the text node is listed twice. *)
Example getLinkingNodes_lists_a_node_twice :
  let w :=
    Ex.world_after
      (new_HomerParser (Ex.host 0)
         (Ex.project "en"
            [ Ex.flow "f1" "Main"
                [ Ex.node "start" NodeType.start None []
                    [Ex.connection "t" None None; Ex.connection "t" None None];
                  Ex.node "t" NodeType.text (Some CycleType.list)
                    [Ex.element "e1" "t" NodeType.text [Ex.content "en" "A"]] [] ] ] [])
         None) in
  exists l, getLinkingNodes (Some "t") w = Ok (l, w) /\ fst <$> l = [(0, 0); (0, 0)].
Proof. eexists. split; vm_compute; reflexivity. Qed.

Lemma getNode_in_selected_flow a w fi f :
  getSelectedFlow w = Some (fi, f) -> exists o, getNode a None w = Ok (o, w).
Proof. intros Hf. unfold getNode. msimpl. cbn [falsy_id]. rewrite Hf. msimpl. by eexists. Qed.

Lemma mapM_reads {A B} (f : A -> M B) (xs : list A) w :
  (forall x, exists y, f x w = Ok (y, w)) ->
  exists l,
    mapM f xs w = Ok (l, w)
    /\ List.length l = List.length xs
    /\ forall i x, xs !! i = Some x -> exists y, l !! i = Some y /\ f x w = Ok (y, w).
Proof.
  intros Hf. induction xs as [|x xs IH].
  - exists []. split; [reflexivity|]. split; [reflexivity|]. by intros i x.
  - destruct (Hf x) as [y Hy]. destruct IH as (l & Hl & Hlen & Hall).
    exists (y :: l). split; [|split].
    + cbn [mapM]. rewrite (bind_ok _ _ _ _ _ Hy), (bind_ok _ _ _ _ _ Hl). reflexivity.
    + cbn. by rewrite Hlen.
    + intros [|i] z Hz; cbn in Hz; [injection Hz as <-; by exists y|by apply Hall].
Qed.

(** [getLinksToNodes] answers one entry for each connection of the node,
    in order: what [getNode] answers for the target of the connection.  So
    a connection to a node that is not in the selected flow gives [null],
    and a connection without a target gives the current node.  It answers
    the empty array for a node that is not found, and writes nothing. *)
Theorem getLinksToNodes_one_per_connection (nodeId : option string) (w : World) fi f :
  getSelectedFlow w = Some (fi, f) ->
  exists l,
    getLinksToNodes nodeId w = Ok (l, w)
    /\ match getNode nodeId None w with
       | Ok (Some (_, n), _) =>
           List.length l = List.length (node_connections n)
           /\ forall i connection,
                node_connections n !! i = Some connection ->
                exists o, l !! i = Some o /\ getNode (conn_to connection) None w = Ok (o, w)
       | _ => l = []
       end.
Proof.
  intros Hf. unfold getLinksToNodes. msimpl. cbv zeta.
  assert (getNode (js_or nodeId (_selectedNodeId w)) None w = getNode nodeId None w) as Hsame.
  { unfold getNode. msimpl. f_equal.
    destruct nodeId as [s|]; cbn; [|by destruct (_selectedNodeId w) as [s|]; cbn;
                                       [destruct (String.eqb s EmptyString)|]].
    destruct (String.eqb s EmptyString) eqn:Hs; cbn; [|by rewrite Hs].
    destruct (_selectedNodeId w) as [t|]; cbn; [by destruct (String.eqb t EmptyString)|done]. }
  destruct (getNode_in_selected_flow nodeId w fi f Hf) as [o Ho].
  rewrite (bind_ok _ _ _ _ _ (eq_trans Hsame Ho)), Ho. destruct o as [[r n]|]; [|by exists []].
  destruct (mapM_reads (fun connection => getNode (conn_to connection) None)
              (node_connections n) w) as (l & Hl & Hlen & Hall).
  { intros c. by eapply getNode_in_selected_flow. }
  exists l. split; [exact Hl|]. by split.
Qed.

Lemma getLinksToNodes_one_per_connection_witness :
  exists l,
    getLinksToNodes (Some "start") Ex.at_list = Ok (l, Ex.at_list)
    /\ match getNode (Some "start") None Ex.at_list with
       | Ok (Some (_, n), _) =>
           List.length l = List.length (node_connections n)
           /\ forall i connection,
                node_connections n !! i = Some connection ->
                exists o, l !! i = Some o
                          /\ getNode (conn_to connection) None Ex.at_list = Ok (o, Ex.at_list)
       | _ => l = []
       end.
Proof.
  apply (getLinksToNodes_one_per_connection (Some "start") Ex.at_list 0 Ex.at_list_flow).
  vm_compute. reflexivity.
Defined.

Lemma findGlobalVariables_names_witness :
  exists c rest,
    "$nn" = String "$" (String c rest)
    /\ JS.is_alpha c = true
    /\ 0 < String.length rest
    /\ JS.span JS.is_word rest = String.length rest.
Proof.
  apply (findGlobalVariables_names "n={$nn} and $x").
  assert (JS.findGlobalVariables "n={$nn} and $x" = ["$nn"]) as -> by (vm_compute; reflexivity).
  by left.
Defined.

(** ** Tags *)

Lemma remove_scan_before (len_at : string -> option nat) c a b :
  (forall s, has_char c (JS.stake 1 s) = false -> len_at s = None) ->
  has_char c a = false ->
  JS.remove_scan len_at 0 (a ++ b)%string = (a ++ JS.remove_scan len_at 0 b)%string.
Proof.
  intros Hat. induction a as [|x a IH]; intros Ha; [done|].
  rewrite !sappend_cons. cbn [JS.remove_scan]. rewrite Hat.
  - f_equal. apply IH. by eapply has_char_tail.
  - cbn in *. apply orb_false_iff in Ha as [-> _]. done.
Qed.

Lemma tag_at_needs_bracket s : has_char "<" (JS.stake 1 s) = false -> JS.tag_at s = None.
Proof.
  destruct s as [|x s]; [done|]. cbn. rewrite orb_false_r. intros Hx.
  destruct x as [[] [] [] [] [] [] [] []]; try done.
Qed.

Lemma remove_scan_skip (len_at : string -> option nat) x b :
  JS.remove_scan len_at (String.length x) (x ++ b)%string = JS.remove_scan len_at 0 b.
Proof. induction x as [|c x IH]; [done|]. rewrite sappend_cons. cbn. exact IH. Qed.

Lemma span_until c name b :
  has_char c name = false ->
  JS.span (fun x => negb (Ascii.eqb x c)) (name ++ String c b)%string = String.length name.
Proof.
  induction name as [|x name IH]; intros Hn.
  - change (EmptyString ++ String c b)%string with (String c b).
    cbn [JS.span]. by rewrite Ascii.eqb_refl.
  - rewrite sappend_cons. cbn [has_char] in Hn. apply orb_false_iff in Hn as [Hx Hn].
    cbn [JS.span]. rewrite Hx. cbn [negb]. by rewrite IH.
Qed.

Lemma sdrop_length x b : JS.sdrop (String.length x) (x ++ b)%string = b.
Proof. induction x as [|c x IH]; [done|]. rewrite sappend_cons. exact IH. Qed.

Lemma no_br_prefix name b :
  0 < String.length name ->
  String.prefix "br" name = false ->
  String.prefix "br" (name ++ String ">" b)%string = false.
Proof.
  destruct name as [|x [|y name]]; cbn [String.length]; [lia| |].
  - intros _ _. change (String x EmptyString ++ String ">" b)%string with (String x (String ">" b)).
    cbn [String.prefix]. destruct (Ascii.ascii_dec "b" x) as [<-|]; [|done].
    by destruct (Ascii.ascii_dec "r" ">").
  - intros _ Hp. rewrite !sappend_cons. cbn [String.prefix] in *.
    destruct (Ascii.ascii_dec "b" x) as [Hx|]; [|done].
    destruct (Ascii.ascii_dec "r" y) as [Hy|]; [|done].
    destruct name; discriminate.
Qed.

(** [getTextWithoutTags] takes out a tag: the text before the tag is
    kept, the tag is dropped, and the rest is treated likewise. *)
Theorem getTextWithoutTags_drops_a_tag (a name b : string) :
  has_char "<" a = false ->
  0 < String.length name ->
  has_char ">" name = false ->
  String.prefix "br" name = false ->
  JS.getTextWithoutTags (a ++ String "<" (name ++ String ">" b))%string
  = (a ++ JS.getTextWithoutTags b)%string.
Proof.
  intros Ha Hlen Hname Hbr. unfold JS.getTextWithoutTags.
  rewrite (remove_scan_before _ "<" _ _ tag_at_needs_bracket Ha). f_equal.
  cbn [JS.remove_scan]. unfold JS.tag_at at 1. cbv zeta.
  rewrite (no_br_prefix _ _ Hlen Hbr), (span_until ">" _ _ Hname).
  assert (String.length (name ++ ">")%string = S (String.length name)) as Hlast.
  { clear. induction name as [|x name IH]; [done|]. rewrite sappend_cons. cbn. by rewrite IH. }
  destruct (String.length name) as [|k] eqn:Hk; [lia|].
  rewrite <- Hk, sdrop_length. rewrite Hk.
  replace (S (S (S k)) - 1) with (String.length (name ++ ">")%string) by (rewrite Hlast; lia).
  replace (name ++ String ">" b)%string with ((name ++ ">") ++ b)%string
    by (by rewrite sappend_assoc).
  apply remove_scan_skip.
Qed.

Lemma getTextWithoutTags_drops_a_tag_witness :
  JS.getTextWithoutTags ("Good " ++ String "<" ("b" ++ String ">" "morning"))%string
  = ("Good " ++ JS.getTextWithoutTags "morning")%string.
Proof. apply getTextWithoutTags_drops_a_tag; [reflexivity|cbn; lia|reflexivity|reflexivity]. Defined.

(** It keeps every tag whose name begins with br: the line breaks, and
    any other such tag as well. *)
Theorem getTextWithoutTags_keeps_br (a rest : string) :
  has_char "<" a = false ->
  String.prefix "br" rest = true ->
  JS.getTextWithoutTags (a ++ String "<" rest)%string
  = (a ++ String "<" (JS.getTextWithoutTags rest))%string.
Proof.
  intros Ha Hbr. unfold JS.getTextWithoutTags.
  rewrite (remove_scan_before _ "<" _ _ tag_at_needs_bracket Ha). f_equal.
  cbn [JS.remove_scan]. unfold JS.tag_at at 1. by rewrite Hbr.
Qed.

Lemma getTextWithoutTags_keeps_br_witness :
  JS.getTextWithoutTags ("a" ++ String "<" "brown>b")%string
  = ("a" ++ String "<" (JS.getTextWithoutTags "brown>b"))%string.
Proof. apply getTextWithoutTags_keeps_br; reflexivity. Defined.

(** Every name that [findLocalVariables] finds is a percent sign followed
    by one or more characters among the letters, the digits, the underscore
    and the signs [.], [?], [(], [)], the two square brackets: a full stop
    or a question mark that follows the name is taken as part of it. *)
Theorem findLocalVariables_names (s : string) :
  forall v, v ∈ JS.findLocalVariables s ->
  exists rest,
    v = String "%" rest
    /\ 0 < String.length rest
    /\ JS.span JS.is_local_char rest = String.length rest.
Proof.
  intros v Hv. unfold JS.findLocalVariables in Hv.
  apply list_elem_of_In, filter_In in Hv as [Hv _]. apply list_elem_of_In in Hv.
  apply scan_matches in Hv as (s' & n & Hat & ->).
  unfold JS.local_at in Hat. destruct s' as [|d rest]; [discriminate|].
  destruct (Ascii.eqb d "%") eqn:Hd.
  - apply Ascii.eqb_eq in Hd as ->.
    destruct (JS.span JS.is_local_char rest) as [|k] eqn:Hspan; [discriminate|].
    injection Hat as <-. exists (JS.stake (S k) rest).
    split; [reflexivity|]. rewrite <- Hspan. split; [|apply stake_span].
    destruct rest as [|b rest]; [discriminate|]. cbn [JS.span] in *.
    destruct (JS.is_local_char b); [|discriminate]. cbn. lia.
  - exfalso. apply Ascii.eqb_neq in Hd.
    destruct d as [[] [] [] [] [] [] [] []]; try discriminate. by apply Hd.
Qed.

Lemma findLocalVariables_names_witness :
  exists rest,
    "%turns." = String "%" rest
    /\ 0 < String.length rest
    /\ JS.span JS.is_local_char rest = String.length rest.
Proof.
  apply (findLocalVariables_names "after %turns. Go").
  assert (JS.findLocalVariables "after %turns. Go" = ["%turns."]) as ->
    by (vm_compute; reflexivity).
  by left.
Defined.

(** ** Loading again *)

Lemma load_variable_registry (H : Host) v w :
  post (fun _ w1 => _variations w1 = _variations w) (load_variable H v w).
Proof.
  unfold load_variable. msimpl.
  eapply post_bind with (Q1 := fun _ w1 => _variations w1 = _variations w).
  { by destruct (_ && _). }
  intros [] w1 H1. destruct (same _ _); [|done]. msimpl.
  eapply post_bind with (Q1 := fun _ w2 => _variations w2 = _variations w).
  { destruct (read_var _ _) as [[| | | |code]|]; try done. unfold eval_value, eval.
    eapply post_bind with (Q1 := fun _ w2 => _variations w2 = _variations w); [|done].
    eapply post_bind with (Q1 := fun _ w2 => _variations w2 = _variations w); [done|].
    by intros [x|] w2 H2. }
  by intros x w2 H2.
Qed.

(** [load] builds the variation registry only when it is empty: on a
    runtime that holds one already, loading a project -- the same or another
    -- leaves the registry as it is, so that the variations go on from where
    they were, while the visited flags start afresh. *)
Theorem load_keeps_a_registry (H : Host) (project : Project) (flowName : option string)
    (w w' : World) :
  _variations w <> [] ->
  load H project flowName w = Ok (tt, w') ->
  _variations w' = _variations w.
Proof.
  intros Hreg. unfold load. msimpl. intros Hload.
  apply bind_inv in Hload as (flow & w1 & Hflow & Hload).
  assert (w1 = with_project project w) as ->.
  { destruct (falsy_id flowName).
    - destruct (head (proj_flows project)); [|discriminate]. by injection Hflow as _ <-.
    - revert Hflow. msimpl. destruct (getFlow flowName _) as [[i fl]|]; [|discriminate].
      by intros [= _ <-]. }
  clear Hflow. revert Hload. msimpl. intros Hload.
  apply bind_inv in Hload as ([] & w2 & Hvars & Hload). revert Hload. msimpl. intros Hload.
  assert (_variations w2 = _variations w) as H2.
  { refine (post_ok _ _ _ _ (post_forEach (fun x => _variations x = _variations w)
                               (load_variable H) _
                               (with_locale (proj_locale project)
                                  (with_selectedFlowId (Some (flow_id flow))
                                     (with_project project w))) eq_refl _) Hvars).
    intros v x Hx. eapply post_mono; [apply load_variable_registry|].
    cbn. intros _ y Hy. congruence. }
  apply bind_inv in Hload as ([] & w3 & Hinit & Hload).
  cbn [_variations with_project] in Hinit. rewrite H2 in Hinit.
  destruct (_variations w) as [|v0 vs] eqn:Hvs; [done|]. injection Hinit as <-.
  apply bind_inv in Hload as (sel & w4 & Hstart & Hload).
  unfold modify in Hload. injection Hload as <-.
  assert (cursor_stable (fun x => _variations x = v0 :: vs)) as Hcs by (by intros x Hx).
  exact (post_ok _ _ _ _
           (start_inv _ _ _ (with_project (clear_visited (_project w2)) w2) Hcs H2) Hstart).
Qed.

Lemma load_keeps_a_registry_witness :
  _variations Ex.list_reloaded = _variations Ex.list_block_w3.
Proof.
  apply (load_keeps_a_registry (Ex.host 0) Ex.list_block None Ex.list_block_w3
           Ex.list_reloaded).
  - discriminate.
  - vm_compute. reflexivity.
Defined.
